(** * numth: integer division, the Euclidean suite, modular powers and the
    [ModularRing] structure engine.

    The Python sources are embedded as executable Rocq functions.  Python
    integers are unbounded, so they are [Z]; on a nonzero divisor Python's
    [//] and [%] are floor division and the remainder with the sign of the
    divisor, which is what [Z.div] and [Z.modulo] compute.  Exceptions and
    loops that may not stop are made explicit by the [result] type: a loop
    or a recursive call spends one unit of fuel, and a computation that
    would need more than it was given answers [OutOfFuel]. *)

From Stdlib Require Import ZArith List Lia Znumtheory Zpow_facts Bool String.
From stdpp Require Import base option list gmap strings pretty fin_maps numbers sorting.

Local Open Scope Z_scope.

(** ** Exceptions and the result monad *)

(** The [ValueError]s of numth.py are told apart by their message, under the
    names the specification gives them; the other constructors are the
    built-in exceptions the interpreter raises by itself. *)
Inductive error : Type :=
  | DivisionByZero                      (* 'Attempted division by zero' *)
  | UndefinedGCD                        (* 'gcd(0, 0) is undefined' *)
  | UndefinedLCM                        (* 'lcm(_,0) is undefined' *)
  | InvalidBase                         (* 'p-adic base must be at least 2' *)
  | InvalidModulus                      (* 'Modulus must be at least 2' *)
  | NotInvertible (num md : Z)          (* '{} is not invertible modulo {}' *)
  | UndefinedJacobiSymbol (num md : Z)  (* 'Jacobi symbol ( {} | {} ) is undefined' *)
  | NameError (name : string)           (* name '...' is not defined *)
  | KeyError (key : Z)
  | TypeError
  | AttributeError
  | ZeroDivisionError.

Inductive result (A : Type) : Type :=
  | Ok (a : A)
  | Raise (e : error)
  | OutOfFuel.
Arguments Ok {A} a.
Arguments Raise {A} e.
Arguments OutOfFuel {A}.

Definition result_bind {A B : Type} (f : A -> result B) (r : result A) : result B :=
  match r with
  | Ok a => f a
  | Raise e => Raise e
  | OutOfFuel => OutOfFuel
  end.

#[global] Instance result_ret : MRet result := fun _ a => Ok a.
#[global] Instance result_mbind : MBind result := fun _ _ f r => result_bind f r.

(** ** numth.py *)

Module Numth.

(** [METHOD == 'SMALL'] *)
Definition is_SMALL (METHOD : option string) : bool :=
match METHOD with
| Some s => String.eqb s "SMALL"
| None => false
end.

Definition SMALL : option string := Some "SMALL"%string.

Definition div (num denom : Z) (METHOD : option string) : result (Z * Z) :=
if denom =? 0 then Raise DivisionByZero
else
  let '(q, r) :=
    if (denom >? 0) || (num =? 0)
    then (num / denom, num mod denom)
    else (num / denom + 1, num mod denom + Z.abs denom) in
  if is_SMALL METHOD && (r >? Z.abs denom / 2)
  then Ok (q + denom / Z.abs denom, r - Z.abs denom)
  else Ok (q, r).

(** ['{} = {} * {} + {}'.format(a, q, b, r)]: integers are written in
  decimal, with a leading minus sign when negative. *)
Definition format_line (a q b r : Z) : string :=
  pretty a +:+ " = " +:+ pretty q +:+ " * " +:+ pretty b
           +:+ " + " +:+ pretty r.

(** [euclidean_algorithm] returns nothing and prints one line per call;
  the value here is the list of the lines printed, first call first. *)
Fixpoint euclidean_algorithm (fuel : nat) (a b : Z) (METHOD : option string) : result (list string) :=
qr ← div a b METHOD;
let '(q, r) := qr in
let line := format_line a q b r in
if negb (r =? 0) then
  match fuel with
  | O => OutOfFuel
  | S fuel' => rest ← euclidean_algorithm fuel' b r METHOD; Ok (line :: rest)
  end
else Ok [line].

(** The [while b_ != 0] loop of [gcd]. *)
Fixpoint gcd_loop (fuel : nat) (a_ b_ : Z) : result Z :=
if b_ =? 0 then Ok (Z.abs a_)
else match fuel with
     | O => OutOfFuel
     | S fuel' => qr ← div a_ b_ SMALL; gcd_loop fuel' b_ (snd qr)
     end.

Definition gcd (fuel : nat) (a b : Z) : result Z :=
if (a =? 0) && (b =? 0) then Raise UndefinedGCD
else gcd_loop fuel a b.

Definition lcm (fuel : nat) (a b : Z) : result Z :=
if a * b =? 0 then Raise UndefinedLCM
else g ← gcd fuel a b;
     if g =? 0 then Raise ZeroDivisionError else Ok (a / g * b).

(** The [while r != 0] loop of [bezout], on the variables it reads and
  writes; [q] is local to one iteration. *)
Fixpoint bezout_loop (fuel : nat) (a_ b_ r xx x yy y : Z) : result (Z * Z * Z * Z) :=
if r =? 0 then Ok (xx, x, yy, y)
else match fuel with
     | O => OutOfFuel
     | S fuel' =>
         let a_ := b_ in
         let b_ := r in
         qr ← div a_ b_ SMALL;
         let '(q, r) := qr in
         bezout_loop fuel' a_ b_ r x (- q * x + xx) y (- q * y + yy)
     end.

Definition bezout (fuel : nat) (a b : Z) : result (Z * Z) :=
if (a =? 0) && (b =? 0) then Raise UndefinedGCD
else if b =? 0 then
  (if a >? 0 then Ok (1, 0) else Ok (-1, 0))
else
  qr ← div a b SMALL;
  let '(q, r) := qr in
  st ← bezout_loop fuel a b r 0 1 1 (- q);
  let '(xx, _, yy, _) := st in
  if a * xx + b * yy >? 0 then Ok (xx, yy) else Ok (- xx, - yy).

(** The [while rest % base == 0] loop of [padic]. *)
Fixpoint padic_loop (fuel : nat) (base exp rest : Z) : result (Z * Z) :=
if rest mod base =? 0
then match fuel with
     | O => OutOfFuel
     | S fuel' => padic_loop fuel' base (exp + 1) (rest / base)
     end
else Ok (exp, rest).

Definition padic (fuel : nat) (num base : Z) : result (Z * Z) :=
if base <? 2 then Raise InvalidBase
else padic_loop fuel base 0 num.

Definition mod_inverse (fuel : nat) (num md : Z) : result Z :=
if md <? 1 then Raise InvalidModulus
else g ← gcd fuel num md;
     if negb (g =? 1) then Raise (NotInvertible num md)
     else xy ← bezout fuel num md; Ok (fst xy mod md).

Fixpoint mod_power (fuel : nat) (num exp md : Z) : result Z :=
if md <? 2 then Raise InvalidModulus
else if exp <? 0 then
  inv ← mod_inverse fuel num md;
  match fuel with
  | O => OutOfFuel
  | S fuel' => mod_power fuel' inv (- exp) md
  end
else if exp =? 0 then Ok 1
else if exp =? 1 then Ok (num mod md)
else match fuel with
     | O => OutOfFuel
     | S fuel' =>
         if exp mod 2 =? 0 then mod_power fuel' (num * num) (exp / 2) md
         else p ← mod_power fuel' (num * num) (exp / 2) md;
              Ok ((num * p) mod md)
     end.

(** [jacobi] builds its error message from [num] and [mod], which are not
  names of the function: Python looks them up among the module's globals
  when the [raise] statement is reached.  [G] is that global namespace;
  the module body binds neither name (only the test block under
  [__main__] does). *)
Definition lookup_global (G : gmap string Z) (name : string) : result Z :=
match G !! name with
| Some v => Ok v
| None => Raise (NameError name)
end.

Fixpoint jacobi (G : gmap string Z) (fuel : nat) (a b : Z) : result Z :=
if b mod 2 =? 0 then
  n ← lookup_global G "num";
  m ← lookup_global G "mod";
  Raise (UndefinedJacobiSymbol n m)
else if b =? 1 then Ok 1
else
  g ← gcd fuel a b;
  if negb (g =? 1) then Ok 0
  else
    ea ← padic fuel (a mod b) 2;
    let '(exp, a_) := ea in
    let sgn :=
      if (exp mod 2 =? 1) && ((b mod 8 =? 3) || (b mod 8 =? 5))
      then -1 else 1 in
    if a_ =? 1 then Ok sgn
    else
      let sgn :=
        if negb (b mod 4 =? 1) && negb (a_ mod 4 =? 1)
        then sgn * -1 else sgn in
      match fuel with
      | O => OutOfFuel
      | S fuel' => j ← jacobi G fuel' b a_; Ok (sgn * j)
      end.

End Numth.

(** ** Python dictionaries and built-ins

    A dictionary that the code iterates over is an association list in
    insertion order: assigning to a present key replaces its value in
    place, assigning to a new key appends.  The dictionaries that are only
    looked up and assigned to ([orders], the discrete-log table) are
    [gmap]s. *)

Module Dict.

Definition dict : Type := list (Z * Z).

Fixpoint get (k : Z) (d : dict) : option Z :=
  match d with
  | [] => None
  | (k', v) :: d' => if k' =? k then Some v else get k d'
  end.

Fixpoint set (k v : Z) (d : dict) : dict :=
  match d with
  | [] => [(k, v)]
  | (k', v') :: d' =>
      if k' =? k then (k', v) :: d' else (k', v') :: set k v d'
  end.

Definition mem (k : Z) (d : dict) : bool :=
  match get k d with Some _ => true | None => false end.

(** [{k : v for ...}] and [{**d1, **d2}]: the items assigned in turn. *)
Definition of_items (items : list (Z * Z)) : dict :=
  fold_left (fun d kv => set kv.1 kv.2 d) items [].

Definition values (d : dict) : list Z := d.*2.

End Dict.

(** [min(...)] of a sequence; [None] where Python raises [ValueError] on
    an empty one. *)
Definition py_min (l : list Z) : option Z :=
  match l with
  | [] => None
  | x :: l' => Some (fold_left Z.min l' x)
  end.

(** [Counter(d).elements()]: every key repeated as many times as its
    count, keys in insertion order, counts below one skipped. *)
Definition Counter_elements (d : list (Z * Z)) : list Z :=
  flat_map (fun pe => replicate (Z.to_nat pe.2) pe.1) d.

(** [x % y] on a divisor that no guard has checked. *)
Definition py_mod (x y : Z) : result Z :=
  if y =? 0 then Raise ZeroDivisionError else Ok (x mod y).

(** ** numth/algebraic_structures/modular_ring.py

    The module imports [gcd], [mod_inverse], [mod_power] from [..basic]
    and [factor], [euler_phi], [carmichael_lambda], [prime_to] from sibling
    modules.  The first three are taken to be the functions of numth.py
    above, which is how the specification describes them (sections 4.2
    and 4.3); the other four are the fields of [collaborators]. *)

Module ModularRing.

Record ring : Type := {
  modulus : Z;
  orders : gmap Z Z;
  _factorization : option (list (Z * Z));
  _euler : option Z;
  _carmichael : option Z;
  _carmichael_factorization : option (list (Z * Z));
  _multiplicative_group : option (list Z);
  _generator : option Z;
  _as_cyclic_group : option Dict.dict;
  _discrete_log : option (gmap Z Z)
}.

Definition __init__ (modulus : Z) : ring :=
{| modulus := modulus;
   orders := if modulus =? 2 then {[ 1 := 1 ]}
             else <[ modulus - 1 := 2 ]> {[ 1 := 1 ]};
   _factorization := None;
   _euler := None;
   _carmichael := None;
   _carmichael_factorization := None;
   _multiplicative_group := None;
   _generator := None;
   _as_cyclic_group := None;
   _discrete_log := None |}.

(** Assignments to the attributes. *)
Definition set_orders (v : gmap Z Z) (s : ring) : ring :=
{| modulus := modulus s; orders := v;
   _factorization := _factorization s; _euler := _euler s;
   _carmichael := _carmichael s;
   _carmichael_factorization := _carmichael_factorization s;
   _multiplicative_group := _multiplicative_group s;
   _generator := _generator s; _as_cyclic_group := _as_cyclic_group s;
   _discrete_log := _discrete_log s |}.

Definition set_factorization (v : option (list (Z * Z))) (s : ring) : ring :=
{| modulus := modulus s; orders := orders s;
   _factorization := v; _euler := _euler s;
   _carmichael := _carmichael s;
   _carmichael_factorization := _carmichael_factorization s;
   _multiplicative_group := _multiplicative_group s;
   _generator := _generator s; _as_cyclic_group := _as_cyclic_group s;
   _discrete_log := _discrete_log s |}.

Definition set_euler (v : option Z) (s : ring) : ring :=
{| modulus := modulus s; orders := orders s;
   _factorization := _factorization s; _euler := v;
   _carmichael := _carmichael s;
   _carmichael_factorization := _carmichael_factorization s;
   _multiplicative_group := _multiplicative_group s;
   _generator := _generator s; _as_cyclic_group := _as_cyclic_group s;
   _discrete_log := _discrete_log s |}.

Definition set_carmichael (v : option Z) (s : ring) : ring :=
{| modulus := modulus s; orders := orders s;
   _factorization := _factorization s; _euler := _euler s;
   _carmichael := v;
   _carmichael_factorization := _carmichael_factorization s;
   _multiplicative_group := _multiplicative_group s;
   _generator := _generator s; _as_cyclic_group := _as_cyclic_group s;
   _discrete_log := _discrete_log s |}.

Definition set_carmichael_factorization
  (v : option (list (Z * Z))) (s : ring) : ring :=
{| modulus := modulus s; orders := orders s;
   _factorization := _factorization s; _euler := _euler s;
   _carmichael := _carmichael s;
   _carmichael_factorization := v;
   _multiplicative_group := _multiplicative_group s;
   _generator := _generator s; _as_cyclic_group := _as_cyclic_group s;
   _discrete_log := _discrete_log s |}.

Definition set_multiplicative_group (v : option (list Z)) (s : ring) : ring :=
{| modulus := modulus s; orders := orders s;
   _factorization := _factorization s; _euler := _euler s;
   _carmichael := _carmichael s;
   _carmichael_factorization := _carmichael_factorization s;
   _multiplicative_group := v;
   _generator := _generator s; _as_cyclic_group := _as_cyclic_group s;
   _discrete_log := _discrete_log s |}.

Definition set_generator (v : option Z) (s : ring) : ring :=
{| modulus := modulus s; orders := orders s;
   _factorization := _factorization s; _euler := _euler s;
   _carmichael := _carmichael s;
   _carmichael_factorization := _carmichael_factorization s;
   _multiplicative_group := _multiplicative_group s;
   _generator := v; _as_cyclic_group := _as_cyclic_group s;
   _discrete_log := _discrete_log s |}.

Definition set_as_cyclic_group (v : option Dict.dict) (s : ring) : ring :=
{| modulus := modulus s; orders := orders s;
   _factorization := _factorization s; _euler := _euler s;
   _carmichael := _carmichael s;
   _carmichael_factorization := _carmichael_factorization s;
   _multiplicative_group := _multiplicative_group s;
   _generator := _generator s; _as_cyclic_group := v;
   _discrete_log := _discrete_log s |}.

Definition set_discrete_log (v : option (gmap Z Z)) (s : ring) : ring :=
{| modulus := modulus s; orders := orders s;
   _factorization := _factorization s; _euler := _euler s;
   _carmichael := _carmichael s;
   _carmichael_factorization := _carmichael_factorization s;
   _multiplicative_group := _multiplicative_group s;
   _generator := _generator s; _as_cyclic_group := _as_cyclic_group s;
   _discrete_log := v |}.

(** A method is a function of the object's state that returns a value and
  the state it leaves, raises, or runs out of fuel. *)
Definition M (A : Type) : Type := ring -> result (A * ring).

(** The functions imported from the sibling modules. *)
Record collaborators : Type := {
  factor : Z -> list (Z * Z);
  euler_phi : list (Z * Z) -> Z;
  carmichael_lambda : list (Z * Z) -> Z;
  prime_to : list (Z * Z) -> list Z
}.

Section Methods.

Variable C : collaborators.

Definition factorization : M (list (Z * Z)) := fun s =>
  match _factorization s with
  | Some f => Ok (f, s)
  | None =>
      let f := factor C (modulus s) in
      Ok (f, set_factorization (Some f) s)
  end.

Definition euler : M Z := fun s =>
  match _euler s with
  | Some e => Ok (e, s)
  | None =>
      '(f, s) ← factorization s;
      let e := euler_phi C f in
      Ok (e, set_euler (Some e) s)
  end.

Definition carmichael : M Z := fun s =>
  match _carmichael s with
  | Some c => Ok (c, s)
  | None =>
      '(f, s) ← factorization s;
      let c := carmichael_lambda C f in
      Ok (c, set_carmichael (Some c) s)
  end.

Definition carmichael_factorization : M (list (Z * Z)) := fun s =>
  match _carmichael_factorization s with
  | Some f => Ok (f, s)
  | None =>
      '(c, s) ← carmichael s;
      let f := factor C c in
      Ok (f, set_carmichael_factorization (Some f) s)
  end.

Definition carmichael_primes : M (list Z) := fun s =>
  '(f, s) ← carmichael_factorization s;
  Ok (Counter_elements f, s).

Definition is_cyclic : M bool := fun s =>
  '(e, s) ← euler s;
  '(c, s) ← carmichael s;
  Ok (e =? c, s).

Definition multiplicative_group : M (list Z) := fun s =>
  match _multiplicative_group s with
  | Some g => Ok (g, s)
  | None =>
      '(f, s) ← factorization s;
      let g := prime_to C f in
      Ok (g, set_multiplicative_group (Some g) s)
  end.

(** *** Ring operations *)

Definition elem (number : Z) : M Z := fun s =>
  r ← py_mod number (modulus s); Ok (r, s).

(** [reduce(lambda x, y: (x + y) % self.modulus, elements, 0)] *)
Fixpoint add_reduce (md : Z) (acc : Z) (elements : list Z) : result Z :=
  match elements with
  | [] => Ok acc
  | y :: rest => acc' ← py_mod (acc + y) md; add_reduce md acc' rest
  end.

Definition add (elements : list Z) : M Z := fun s =>
  r ← add_reduce (modulus s) 0 elements; Ok (r, s).

(** [reduce(lambda x, y: (x * y) % self.modulus, elements, 1)] *)
Fixpoint mult_reduce (md : Z) (acc : Z) (elements : list Z) : result Z :=
  match elements with
  | [] => Ok acc
  | y :: rest => acc' ← py_mod (acc * y) md; mult_reduce md acc' rest
  end.

Definition mult (elements : list Z) : M Z := fun s =>
  r ← mult_reduce (modulus s) 1 elements; Ok (r, s).

Definition power_of (fuel : nat) (element exponent : Z) : M Z := fun s =>
  r ← Numth.mod_power fuel element exponent (modulus s); Ok (r, s).

Definition inverse_of (fuel : nat) (element : Z) : M Z := fun s =>
  r ← Numth.mod_inverse fuel element (modulus s); Ok (r, s).

(** *** cyclic_subgroup_from *)

(** The [while curr_elem != 1] loop, on [subgroup], [curr_elem] and
    [curr_power]. *)
Fixpoint cyclic_subgroup_loop (fuel : nat) (element : Z)
    (subgroup : Dict.dict) (curr_elem curr_power : Z)
    : M (Dict.dict * Z) := fun s =>
  if curr_elem =? 1 then Ok ((subgroup, curr_power), s)
  else match fuel with
       | O => OutOfFuel
       | S fuel' =>
           let subgroup := Dict.set curr_power curr_elem subgroup in
           '(curr_elem, s) ← mult [curr_elem; element] s;
           cyclic_subgroup_loop fuel' element subgroup
             curr_elem (curr_power + 1) s
       end.

Definition cyclic_subgroup_from (fuel : nat) (element : Z)
    : M Dict.dict := fun s =>
  '((subgroup, curr_power), s) ←
     cyclic_subgroup_loop fuel element [(0, 1)] element 1 s;
  let s :=
    match orders s !! element with
    | None => set_orders (<[ element := curr_power ]> (orders s)) s
    | Some _ => s
    end in
  Ok (subgroup, s).

(** *** generator, as_cyclic_group, discrete_log, order_of

    The four methods call each other in a cycle
    ([order_of] -> [discrete_log] -> [as_cyclic_group] -> [generator]
    -> [order_of]).  Each body takes the method it calls as an argument;
    the cycle is closed in [order_of], where the call of [discrete_log]
    spends one unit of fuel. *)

(** The [for x in self.multiplicative_group()] loop of [generator]. *)
Fixpoint generator_scan (order_of : Z -> M (option Z)) (group : list Z)
    : M unit := fun s =>
  match group with
  | [] => Ok (tt, s)
  | x :: rest =>
      '(o, s) ← order_of x s;
      '(e, s) ← euler s;
      if bool_decide (o = Some e)
      then Ok (tt, set_generator (Some x) s)
      else generator_scan order_of rest s
  end.

Definition generator_body (order_of : Z -> M (option Z))
    : M (option Z) := fun s =>
  match _generator s with
  | Some g => Ok (Some g, s)
  | None =>
      '(cyclic, s) ← is_cyclic s;
      if cyclic : bool then
        '(group, s) ← multiplicative_group s;
        '(_, s) ← generator_scan order_of group s;
        Ok (_generator s, s)
      else Ok (_generator s, s)
  end.

(** [cyclic_subgroup_from(None)], reached when [generator()] found
    nothing, raises [TypeError] at its first product [1 * None]. *)
Definition as_cyclic_group_body (generator : M (option Z)) (fuel : nat)
    : M (option Dict.dict) := fun s =>
  match _as_cyclic_group s with
  | Some c => Ok (Some c, s)
  | None =>
      '(cyclic, s) ← is_cyclic s;
      if cyclic : bool then
        '(g, s) ← generator s;
        match g with
        | None => Raise TypeError
        | Some g =>
            '(subgroup, s) ← cyclic_subgroup_from fuel g s;
            let s := set_as_cyclic_group (Some subgroup) s in
            let s :=
              match _multiplicative_group s with
              | None =>
                  set_multiplicative_group
                    (Some (merge_sort Z.le (Dict.values subgroup))) s
              | Some _ => s
              end in
            Ok (_as_cyclic_group s, s)
        end
      else Ok (_as_cyclic_group s, s)
  end.

(** [{x : e for e, x in self.as_cyclic_group().items()}] *)
Definition invert_items (items : list (Z * Z)) : gmap Z Z :=
  fold_left (fun d ex => <[ ex.2 := ex.1 ]> d) items ∅.

Definition discrete_log_body (as_cyclic_group : M (option Dict.dict))
    : M (option (gmap Z Z)) := fun s =>
  match _discrete_log s with
  | Some d => Ok (Some d, s)
  | None =>
      '(cyclic, s) ← is_cyclic s;
      if cyclic : bool then
        '(c, s) ← as_cyclic_group s;
        match c with
        | None => Raise AttributeError
        | Some c =>
            let s := set_discrete_log (Some (invert_items c)) s in
            Ok (_discrete_log s, s)
        end
      else Ok (_discrete_log s, s)
  end.

(** [{p*e : self.power_of(x, p) for e, x in powers.items()
      if p*e not in powers.keys()}], as the list of its items. *)
Fixpoint new_powers_items (fuel : nat) (p : Z) (powers : Dict.dict)
    (items : list (Z * Z)) : M (list (Z * Z)) := fun s =>
  match items with
  | [] => Ok ([], s)
  | (e, x) :: rest =>
      if Dict.mem (p * e) powers
      then new_powers_items fuel p powers rest s
      else
        '(v, s) ← power_of fuel x p s;
        '(tl, s) ← new_powers_items fuel p powers rest s;
        Ok ((p * e, v) :: tl, s)
  end.

(** The [for p in self.carmichael_primes()] loop of [order_of]; it
    returns [None] when the primes are used up. *)
Fixpoint order_search (fuel : nat) (element : Z) (primes : list Z)
    (powers : Dict.dict) : M (option Z) := fun s =>
  match primes with
  | [] => Ok (None, s)
  | p :: rest =>
      '(items, s) ← new_powers_items fuel p powers powers s;
      let new_powers := Dict.of_items items in
      match py_min (filter (fun ex => ex.2 = 1) new_powers).*1 with
      | Some order =>
          Ok (Some order,
              set_orders (<[ element := order ]> (orders s)) s)
      | None =>
          order_search fuel element rest
            (Dict.of_items (powers ++ new_powers)) s
      end
  end.

Definition order_of_body (discrete_log : M (option (gmap Z Z)))
    (fuel : nat) (element : Z) : M (option Z) := fun s =>
  match orders s !! element with
  | Some o => Ok (Some o, s)
  | None =>
      match _generator s with
      | Some _ =>
          '(e, s) ← euler s;
          '(d, s) ← discrete_log s;
          match d with
          | None => Raise TypeError
          | Some d =>
              match d !! element with
              | None => Raise (KeyError element)
              | Some k =>
                  '(e', s) ← euler s;
                  g ← Numth.gcd fuel k e';
                  if g =? 0 then Raise ZeroDivisionError
                  else
                    let order := e / g in
                    Ok (Some order,
                        set_orders (<[ element := order ]> (orders s)) s)
              end
          end
      | None =>
          '(elem, s) ← elem element s;
          let powers := [(1, elem)] in
          '(primes, s) ← carmichael_primes s;
          order_search fuel element primes powers s
      end
  end.

Fixpoint order_of (fuel : nat) (element : Z) : M (option Z) :=
  order_of_body
    (match fuel with
     | O => fun _ => OutOfFuel
     | S fuel' =>
         discrete_log_body
           (as_cyclic_group_body (generator_body (order_of fuel')) fuel')
     end)
    fuel element.

Definition generator (fuel : nat) : M (option Z) :=
  generator_body (order_of fuel).

Definition as_cyclic_group (fuel : nat) : M (option Dict.dict) :=
  as_cyclic_group_body (generator fuel) fuel.

Definition discrete_log (fuel : nat) : M (option (gmap Z Z)) :=
  discrete_log_body (as_cyclic_group fuel).

(** The [for x in self.multiplicative_group()] loop of [all_orders]. *)
Fixpoint all_orders_loop (fuel : nat) (group : list Z) : M unit := fun s =>
  match group with
  | [] => Ok (tt, s)
  | x :: rest => '(_, s) ← order_of fuel x s; all_orders_loop fuel rest s
  end.

Definition all_orders (fuel : nat) : M (gmap Z Z) := fun s =>
  '(e, s) ← euler s;
  if bool_decide (Z.of_nat (size (orders s)) ≠ e) then
    '(cyclic, s) ← is_cyclic s;
    '(_, s) ← (if cyclic : bool then generator fuel s else Ok (None, s));
    '(group, s) ← multiplicative_group s;
    '(_, s) ← all_orders_loop fuel group s;
    Ok (orders s, s)
  else Ok (orders s, s).

End Methods.

(** The calls a client can make on a ring ([sqrt_of] goes to a module that
    is not at hand and [all_generators] is [all_orders] followed by
    [euler], as far as the state goes), and the state a call that returns
    leaves. *)
Inductive call : Type :=
  | Call_factorization
  | Call_euler
  | Call_carmichael
  | Call_carmichael_factorization
  | Call_carmichael_primes
  | Call_is_cyclic
  | Call_multiplicative_group
  | Call_generator
  | Call_as_cyclic_group
  | Call_discrete_log
  | Call_all_orders
  | Call_elem (number : Z)
  | Call_add (elements : list Z)
  | Call_mult (elements : list Z)
  | Call_power_of (element exponent : Z)
  | Call_inverse_of (element : Z)
  | Call_order_of (element : Z)
  | Call_cyclic_subgroup_from (element : Z).

Definition state_after {A : Type} (r : result (A * ring)) : result ring :=
  vs ← r; Ok vs.2.

Definition value_of {A : Type} (r : result (A * ring)) : result A :=
  vs ← r; Ok vs.1.

Definition perform (C : collaborators) (fuel : nat) (c : call) (s : ring)
    : result ring :=
  match c with
  | Call_factorization => state_after (factorization C s)
  | Call_euler => state_after (euler C s)
  | Call_carmichael => state_after (carmichael C s)
  | Call_carmichael_factorization => state_after (carmichael_factorization C s)
  | Call_carmichael_primes => state_after (carmichael_primes C s)
  | Call_is_cyclic => state_after (is_cyclic C s)
  | Call_multiplicative_group => state_after (multiplicative_group C s)
  | Call_generator => state_after (generator C fuel s)
  | Call_as_cyclic_group => state_after (as_cyclic_group C fuel s)
  | Call_discrete_log => state_after (discrete_log C fuel s)
  | Call_all_orders => state_after (all_orders C fuel s)
  | Call_elem number => state_after (elem number s)
  | Call_add elements => state_after (add elements s)
  | Call_mult elements => state_after (mult elements s)
  | Call_power_of element exponent =>
      state_after (power_of fuel element exponent s)
  | Call_inverse_of element => state_after (inverse_of fuel element s)
  | Call_order_of element => state_after (order_of C fuel element s)
  | Call_cyclic_subgroup_from element =>
      state_after (cyclic_subgroup_from fuel element s)
  end.

(** The states of [ModularRing(m)]: the one [__init__] builds, and every
    state a call that returns leaves behind.  (A call that raises may have
    filled caches before it did; the result type keeps no state for it,
    and such states are not among these.) *)
Inductive reachable (C : collaborators) (m : Z) : ring -> Prop :=
  | reachable_init : reachable C m (__init__ m)
  | reachable_call (s s' : ring) (fuel : nat) (c : call) :
      reachable C m s -> perform C fuel c s = Ok s' -> reachable C m s'.

End ModularRing.


(** ** lib/basic/shape_number.py

    The module imports [div] from [.division] and [integer_sqrt],
    [is_square] from [.sqrt], modules that are not among the sources at
    hand: [which_shape_number] takes the three functions as parameters.
    It returns [None] by falling off its end when the remainder is not
    zero. *)

Module ShapeNumber.

Definition shape_number_by_index (k sides : Z) : Z :=
  k * (k * (sides - 2) - sides + 4) / 2.

Section Imports.

Variable is_square : Z -> bool.
Variable integer_sqrt : Z -> Z.
Variable div : Z -> Z -> Z * Z.

Definition which_shape_number (number sides : Z) : option Z :=
  let denom := 2 * (sides - 2) in
  let root := 8 * (sides - 2) * number + (sides - 4) ^ 2 in
  if negb (is_square root) then None
  else
    let '(q, r) := div (sides - 4 + integer_sqrt root) denom in
    if r =? 0 then Some q else None.

End Imports.

End ShapeNumber.

(** ** The collaborators

    [factor], [euler_phi], [carmichael_lambda] and [prime_to] live in
    modules of the repository that are not among the sources at hand.  In
    the properties of the ring they are parameters under their contracts;
    the definitions below are used for the sample runs only. *)

Module Reference.

(** Modelled from the spec: [factor], which is not among the sources,
    returns the mapping from primes to exponents whose prime powers
    multiply to the number.  Trial division from [p] upwards; the exponent
    of a prime that divides is its p-adic valuation. *)
Fixpoint factor_from (fuel : nat) (n p : Z) : list (Z * Z) :=
  match fuel with
  | O => []
  | S fuel' =>
      if n <? 2 then []
      else if n mod p =? 0 then
        match Numth.padic (Z.to_nat n) n p with
        | Ok (e, rest) => (p, e) :: factor_from fuel' rest (p + 1)
        | _ => []
        end
      else factor_from fuel' n (p + 1)
  end.

Definition factor (n : Z) : list (Z * Z) := factor_from (Z.to_nat n) n 2.

(** Modelled from the spec: [euler_phi], which is not among the sources,
    is [n * prod (1 - 1/p)] over the primes of the factorization, here
    prime power by prime power. *)
Definition euler_phi (f : list (Z * Z)) : Z :=
  foldr (fun pe acc => (pe.1 - 1) * pe.1 ^ (pe.2 - 1) * acc) 1 f.

(** Modelled from the spec: [carmichael_lambda], which is not among the
    sources, is the lcm over the prime powers [p^e] of [lambda(p^e)], with
    [lambda(2) = 1], [lambda(4) = 2], [lambda(2^e) = 2^(e-2)] for
    [e >= 3], and [lambda(p^e) = phi(p^e)] for an odd prime. *)
Definition lambda_prime_power (p e : Z) : Z :=
  if p =? 2 then (if e <=? 2 then 2 ^ (e - 1) else 2 ^ (e - 2))
  else (p - 1) * p ^ (e - 1).

Definition carmichael_lambda (f : list (Z * Z)) : Z :=
  foldr (fun pe acc => Z.lcm (lambda_prime_power pe.1 pe.2) acc) 1 f.

(** Modelled from the spec: [prime_to], which is not among the sources,
    is the ascending sequence of the residues of [1, n) prime to [n]. *)
Definition prime_to (f : list (Z * Z)) : list Z :=
  let n := foldr (fun pe acc => pe.1 ^ pe.2 * acc) 1 f in
  filter (fun x => Z.gcd x n = 1) (seqZ 1 (n - 1)).

Definition collaborators : ModularRing.collaborators :=
  {| ModularRing.factor := factor;
     ModularRing.euler_phi := euler_phi;
     ModularRing.carmichael_lambda := carmichael_lambda;
     ModularRing.prime_to := prime_to |}.

End Reference.

(** The ring of modulus 7 once [generator()] has been called on it. *)
Definition ring_7_after_generator : ModularRing.ring :=
  match ModularRing.perform Reference.collaborators 10
          ModularRing.Call_generator (ModularRing.__init__ 7) with
  | Ok s => s
  | _ => ModularRing.__init__ 7
  end.

(** ** Vocabulary of the properties *)

(** The units of the ring: the residues in [1, m) prime to [m], ascending. *)
Definition units (m : Z) : list Z :=
  filter (fun x => Z.gcd x m = 1) (seqZ 1 (m - 1)).

(** [k] is the multiplicative order of [x] modulo [m]: the least positive
    exponent with [x^k = 1 (mod m)]. *)
Definition is_order (m x k : Z) : Prop :=
  0 < k ∧ x ^ k mod m = 1 ∧ ∀ j, 0 < j < k → x ^ j mod m ≠ 1.

(** The dictionary [{i : x^i mod m}] for [0 <= i < k], in ascending order
    of [i]. *)
Definition powers_table (m x k : Z) : Dict.dict :=
  (fun i => (i, x ^ i mod m)) <$> seqZ 0 k.

(** [f] maps primes to exponents [>= 1] and the product of the prime
    powers is [n]. *)
Definition is_factorization (f : list (Z * Z)) (n : Z) : Prop :=
  Forall (fun pe => Z.prime pe.1 ∧ 1 ≤ pe.2) f
  ∧ NoDup f.*1
  ∧ foldr (fun pe acc => pe.1 ^ pe.2 * acc) 1 f = n.

(** The state [cyclic_subgroup_from] leaves: the order [k] it counted is
    entered in [orders] unless the element has an entry. *)
Definition record_order (element k : Z) (s : ModularRing.ring)
    : ModularRing.ring :=
  match ModularRing.orders s !! element with
  | None =>
      ModularRing.set_orders (<[ element := k ]> (ModularRing.orders s)) s
  | Some _ => s
  end.

(** [r'] answers whatever [r] answers: the order in which more fuel puts
    the runs of a computation. *)
Definition le_res {A : Type} (r r' : result A) : Prop :=
  ∀ v, r = Ok v → r' = Ok v.

(** The product of a list of integers. *)
Definition product (l : list Z) : Z := foldr Z.mul 1 l.

(** The items of the comprehension of [order_of] as a list function: the
    known exponents [e] are extended to [p*e], the known ones skipped. *)
Definition new_items (m p : Z) (powers : Dict.dict) : list (Z * Z) :=
  (fun ex => (p * ex.1, ex.2 ^ p mod m))
    <$> filter (fun ex => p * ex.1 ∉ powers.*1) powers.

(** The table of [order_of] once the primes of product [P] are used:
    its keys are the positive divisors of [P], each with the power of [x]
    it names, none of them 1. *)
Definition divisor_table (m x P : Z) (powers : Dict.dict) : Prop :=
  NoDup powers.*1
  ∧ (∀ e v, (e, v) ∈ powers → v = x ^ e mod m ∧ v ≠ 1)
  ∧ (∀ d, d ∈ powers.*1 ↔ 0 < d ∧ (d | P)).

(** The states of a ring of modulus [m] that its methods produce: every
    cache that is filled holds the value its accessor computes, [orders]
    holds the true order of every unit it has an entry for, the generator
    is one, and the two tables are the powers of the generator and their
    inverse. *)
Section Invariant.
Import ModularRing.
Variable C : collaborators.
Variable m : Z.

(** [s'] is [s] up to the caches of the factorizations, of the two
    exponents and of the group. *)
Definition fills (s s' : ring) : Prop :=
  modulus s' = modulus s ∧ orders s' = orders s
  ∧ _generator s' = _generator s
  ∧ _as_cyclic_group s' = _as_cyclic_group s
  ∧ _discrete_log s' = _discrete_log s.

(** [s'] has the modulus and the two tables of [s]. *)
Definition keeps_tables (s s' : ring) : Prop :=
  modulus s' = modulus s
  ∧ _as_cyclic_group s' = _as_cyclic_group s
  ∧ _discrete_log s' = _discrete_log s.

Record ring_inv (s : ring) : Prop := {
  inv_modulus : modulus s = m;
  inv_factorization :
    ∀ f, _factorization s = Some f → f = factor C m;
  inv_euler :
    ∀ e, _euler s = Some e → e = euler_phi C (factor C m);
  inv_carmichael :
    ∀ c, _carmichael s = Some c → c = carmichael_lambda C (factor C m);
  inv_carmichael_factorization :
    ∀ f, _carmichael_factorization s = Some f →
         f = factor C (carmichael_lambda C (factor C m));
  inv_group :
    ∀ g, _multiplicative_group s = Some g → ∀ x, x ∈ g ↔ x ∈ units m;
  inv_one : orders s !! 1 = Some 1;
  inv_orders :
    ∀ x o, orders s !! x = Some o → x ∈ units m → is_order m x o;
  inv_generator :
    ∀ g, _generator s = Some g →
         euler_phi C (factor C m) = carmichael_lambda C (factor C m)
         ∧ g ∈ units m ∧ is_order m g (euler_phi C (factor C m));
  inv_cyclic :
    ∀ c, _as_cyclic_group s = Some c →
         ∃ g, _generator s = Some g
              ∧ c = powers_table m g (euler_phi C (factor C m));
  inv_dlog :
    ∀ d, _discrete_log s = Some d →
         ∃ c, _as_cyclic_group s = Some c ∧ d = invert_items c
}.

End Invariant.

(** The contracts of the collaborators, for a ring of modulus [m].
    [factor] returns the prime factorization of the modulus and of the
    Carmichael exponent; [euler_phi] the size of the multiplicative group;
    [carmichael_lambda] the exponent of that group, which every unit
    raised to gives 1 and which is the order of some unit (the maximum
    order of an element); [prime_to] the ascending list of the units. *)
Record meets_contracts (C : ModularRing.collaborators) (m : Z) : Prop := {
  factor_ok :
    is_factorization (ModularRing.factor C m) m;
  factor_carmichael_ok :
    is_factorization
      (ModularRing.factor C
         (ModularRing.carmichael_lambda C (ModularRing.factor C m)))
      (ModularRing.carmichael_lambda C (ModularRing.factor C m));
  euler_phi_ok :
    ModularRing.euler_phi C (ModularRing.factor C m)
    = Z.of_nat (length (units m));
  carmichael_exponent :
    Forall
      (fun x =>
         x ^ ModularRing.carmichael_lambda C (ModularRing.factor C m) mod m
         = 1)
      (units m);
  carmichael_attained :
    Exists
      (fun x =>
         is_order m x
           (ModularRing.carmichael_lambda C (ModularRing.factor C m)))
      (units m);
  prime_to_ok :
    ModularRing.prime_to C (ModularRing.factor C m) = units m
}.

(** What [which_shape_number] relies on from its imports: [is_square]
    tells the perfect squares, [integer_sqrt] returns the root of one that
    is not negative, and [div] is the division with remainder by a
    positive divisor. *)
Record shape_imports_ok (is_square : Z -> bool) (integer_sqrt : Z -> Z)
    (div : Z -> Z -> Z * Z) : Prop := {
  is_square_ok : ∀ n, is_square n = true ↔ ∃ r, r * r = n;
  integer_sqrt_ok : ∀ r, 0 ≤ r → integer_sqrt (r * r) = r;
  div_ok : ∀ a d, 0 < d → div a d = (a / d, a mod d)
}.

(** Functions that meet [shape_imports_ok], for the sample runs. *)
Definition sample_is_square (n : Z) : bool :=
  (0 <=? n) && (Z.sqrt n * Z.sqrt n =? n).

Definition sample_div (a d : Z) : Z * Z := (a / d, a mod d).

(** Every element with an entry in [orders] in [s] has one in [s']. *)
Definition keeps_entries (s s' : ModularRing.ring) : Prop :=
  ∀ y, is_Some (ModularRing.orders s !! y)
       → is_Some (ModularRing.orders s' !! y).

(** The divisions [(a, q, b, r)] of a run of the Euclidean algorithm from
    [a] and [b]: each one divides the previous divisor by the previous
    remainder, and the first remainder that is zero ends the run, on a
    divisor that is [g] up to sign. *)
Fixpoint division_chain (g a b : Z) (steps : list (Z * Z * Z * Z)) : Prop :=
match steps with
| [] => False
| (a', q, b', r) :: rest =>
    a' = a ∧ b' = b ∧ a = q * b + r ∧
    match rest with
    | [] => r = 0 ∧ Z.abs b = g
    | _ :: _ => r ≠ 0 ∧ division_chain g b r rest
    end
end.

(** * Properties *)

(** Linear arithmetic after the divisions by constants are replaced by
    their defining equations, one conjunct at a time. *)
Ltac zarith := repeat split; Z.div_mod_to_equations; lia.

(** ** Sample runs of numth.py *)

Example div_7_2 : Numth.div 7 2 None = Ok (3, 1).
Proof. reflexivity. Qed.
Example div_m7_m2_small : Numth.div (-7) (-2) Numth.SMALL = Ok (4, 1).
Proof. reflexivity. Qed.
Example gcd_12_18 : Numth.gcd 10 12 18 = Ok 6.
Proof. reflexivity. Qed.
Example bezout_12_18 : Numth.bezout 10 12 (-18) = Ok (-1, -1).
Proof. reflexivity. Qed.
Example jacobi_row_15 :
  map (fun a => Numth.jacobi ∅ 20 a 15) [0;1;2;3;4;5;6;7;8;9;10;11;12;13;14]
  = map Ok [0;1;1;0;1;0;0;-1;1;0;0;-1;0;-1;-1].
Proof. vm_compute. reflexivity. Qed.
Example mod_power_ex : Numth.mod_power 20 3 (-5) 7 = Ok 3.
Proof. vm_compute. reflexivity. Qed.

(** ** Division *)

Section DivFacts.
Import Numth.

Lemma div_abs_sgn (d : Z) : d ≠ 0 → d / Z.abs d = Z.sgn d.
Proof.
  intros Hd. destruct (Z.lt_trichotomy d 0) as [Hlt|[->|Hgt]]; [|done|].
  - rewrite Z.abs_neq, Z.sgn_neg by lia.
    symmetry. apply (Z.div_unique_exact); lia.
  - rewrite Z.abs_eq, Z.sgn_pos by lia. apply Z.div_same; lia.
Qed.

(** What the first assignment of [div] yields: the identity always, and a
    remainder in [0, |denom|], the upper end being reached only when a
    negative [denom] divides a nonzero [num]. *)
Lemma div_default_eq (num denom : Z) :
  denom ≠ 0 →
  ∃ q r, div num denom None = Ok (q, r)
         ∧ num = q * denom + r ∧ 0 ≤ r ≤ Z.abs denom
         ∧ (r = Z.abs denom ↔ (denom < 0 ∧ num ≠ 0 ∧ num mod denom = 0)).
Proof.
  intros Hd. unfold div. rewrite (proj2 (Z.eqb_neq _ _) Hd). simpl.
  pose proof (Z.div_mod num denom Hd) as Hdm.
  destruct (Z.gtb_spec denom 0) as [Hpos|Hneg]; simpl.
  - pose proof (Z.mod_pos_bound num denom ltac:(lia)).
    eexists _, _. split; [reflexivity|].
    generalize dependent (num / denom). generalize dependent (num mod denom).
    intros; lia.
  - destruct (Z.eqb_spec num 0) as [->|Hnum].
    + rewrite Z.mod_0_l, Z.div_0_l by done.
      eexists _, _. split; [reflexivity|]. lia.
    + pose proof (Z.mod_neg_bound num denom ltac:(lia)).
      eexists _, _. split; [reflexivity|].
      generalize dependent (num / denom). generalize dependent (num mod denom).
      intros; lia.
Qed.

Lemma div_small_eq (num denom : Z) :
  denom ≠ 0 →
  ∃ q r, div num denom SMALL = Ok (q, r)
         ∧ num = q * denom + r
         ∧ - Z.abs denom < 2 * r ∧ 2 * r ≤ Z.abs denom.
Proof.
  intros Hd. unfold div. rewrite (proj2 (Z.eqb_neq _ _) Hd).
  rewrite (div_abs_sgn _ Hd).
  change (is_SMALL SMALL) with true.
  pose proof (Z.div_mod num denom Hd) as Hdm.
  destruct (Z.gtb_spec denom 0) as [Hpos|Hneg]; simpl.
  - pose proof (Z.mod_pos_bound num denom ltac:(lia)).
    rewrite Z.sgn_pos by lia.
    generalize dependent (num / denom). generalize dependent (num mod denom).
    intros r0 Hr0 q0 Hq0.
    destruct (Z.gtb_spec r0 (Z.abs denom / 2));
      (eexists _, _; split; [reflexivity|]); zarith.
  - destruct (Z.eqb_spec num 0) as [->|Hnum].
    + rewrite Z.mod_0_l, Z.div_0_l by done.
      destruct (Z.gtb_spec 0 (Z.abs denom / 2));
        (eexists _, _; split; [reflexivity|]); zarith.
    + pose proof (Z.mod_neg_bound num denom ltac:(lia)).
      rewrite Z.sgn_neg by lia.
      generalize dependent (num / denom). generalize dependent (num mod denom).
      intros r0 Hr0 q0 Hq0.
      destruct (Z.gtb_spec (r0 + Z.abs denom) (Z.abs denom / 2));
        (eexists _, _; split; [reflexivity|]); zarith.
Qed.

(** The two ways of reading the bounds of the balanced remainder agree:
    the rational one, and the floor divisions of the repository's test. *)
Lemma small_bounds_floor (d r : Z) :
  (- Z.abs d < 2 * r ∧ 2 * r ≤ Z.abs d)
  ↔ (r ≤ Z.abs d / 2 ∧ r > (- Z.abs d) / 2).
Proof. split; intros [? ?]; zarith. Qed.

End DivFacts.

(** C1.  In default mode [div 6 (-3)] answers [(-1, 3)]: the remainder is
    [|denom|] itself and not below it.  The identity [num = q*denom + r]
    holds there, the bound [r < |denom|] does not. *)
Theorem div_default_6_m3 :
  Numth.div 6 (-3) None = Ok (-1, 3) ∧ 6 = -1 * -3 + 3 ∧ ¬ (3 < Z.abs (-3)).
Proof. split; [reflexivity|]. split; [reflexivity|]. simpl. lia. Qed.

(** C7.  In balanced (SMALL) mode, for a nonzero [denom], [div] returns
    a pair [(q, r)] with [num = q*denom + r] and
    [-|denom|/2 < r <= |denom|/2]. *)
Theorem div_small_spec (num denom : Z) :
  denom ≠ 0 →
  ∃ q r, Numth.div num denom Numth.SMALL = Ok (q, r)
         ∧ num = q * denom + r
         ∧ - Z.abs denom < 2 * r ∧ 2 * r ≤ Z.abs denom.
Proof. apply div_small_eq. Qed.

Lemma div_small_spec_witness :
  ∃ q r, Numth.div (-7) (-4) Numth.SMALL = Ok (q, r)
         ∧ -7 = q * -4 + r
         ∧ - Z.abs (-4) < 2 * r ∧ 2 * r ≤ Z.abs (-4).
Proof. apply (div_small_spec (-7) (-4)). lia. Defined.

(** ** The Euclidean suite *)

Section EuclidFacts.
Import Numth.

Lemma gcd_step (a_ b_ q r : Z) : a_ = q * b_ + r → Z.gcd b_ r = Z.gcd a_ b_.
Proof.
  intros ->. rewrite (Z.gcd_comm (q * b_ + r)), Z.add_comm.
  symmetry. apply Z.gcd_add_mult_diag_r.
Qed.

(** The loop of [gcd] stops within [|b_|] rounds, on the gcd. *)
Lemma gcd_loop_spec (fuel : nat) : ∀ a_ b_ : Z,
  Z.abs b_ ≤ Z.of_nat fuel → gcd_loop fuel a_ b_ = Ok (Z.gcd a_ b_).
Proof.
  induction fuel as [|fuel IH]; intros a_ b_ Hfuel.
  - assert (b_ = 0) as -> by lia. simpl. by rewrite Z.gcd_0_r.
  - simpl. destruct (Z.eqb_spec b_ 0) as [->|Hb].
    + by rewrite Z.gcd_0_r.
    + destruct (div_small_eq a_ b_ Hb) as (q & r & -> & Hqr & Hlo & Hhi).
      simpl. rewrite IH by lia. f_equal. by apply gcd_step with q.
Qed.

Lemma gcd_spec (fuel : nat) (a b : Z) :
  ¬ (a = 0 ∧ b = 0) → Z.abs b ≤ Z.of_nat fuel →
  gcd fuel a b = Ok (Z.gcd a b).
Proof.
  intros Hab Hfuel. unfold gcd.
  destruct (Z.eqb_spec a 0), (Z.eqb_spec b 0); simpl;
    try (by apply gcd_loop_spec). tauto.
Qed.

Lemma gcd_undefined (fuel : nat) : gcd fuel 0 0 = Raise UndefinedGCD.
Proof. reflexivity. Qed.

(** The loop of [bezout] keeps [a*xx + b*yy = b_] and [a*x + b*y = r];
    it stops within [|r|] rounds with [a*xx + b*yy] the last nonzero
    remainder, a gcd up to sign. *)
Lemma bezout_loop_spec (a b : Z) (fuel : nat) : ∀ a_ b_ r xx x yy y : Z,
  Z.abs r ≤ Z.of_nat fuel →
  b_ ≠ 0 → a * xx + b * yy = b_ → a * x + b * y = r →
  ∃ xx' x' yy' y',
    bezout_loop fuel a_ b_ r xx x yy y = Ok (xx', x', yy', y')
    ∧ Z.abs (a * xx' + b * yy') = Z.gcd b_ r.
Proof.
  induction fuel as [|fuel IH]; intros a_ b_ r xx x yy y Hfuel Hb Hxx Hx.
  - assert (r = 0) as -> by lia. simpl. eexists _, _, _, _.
    split; [reflexivity|]. by rewrite Hxx, Z.gcd_0_r.
  - simpl. destruct (Z.eqb_spec r 0) as [->|Hr].
    + eexists _, _, _, _. split; [reflexivity|]. by rewrite Hxx, Z.gcd_0_r.
    + destruct (div_small_eq b_ r Hr) as (q & r' & -> & Hqr & Hlo & Hhi).
      simpl.
      destruct (IH b_ r r' x (- q * x + xx) y (- q * y + yy))
        as (xx' & x' & yy' & y' & -> & Habs); [lia|done|done|lia|].
      eexists _, _, _, _. split; [reflexivity|].
      rewrite Habs. by apply gcd_step with q.
Qed.

Lemma bezout_spec (fuel : nat) (a b : Z) :
  ¬ (a = 0 ∧ b = 0) → Z.abs b ≤ Z.of_nat fuel →
  ∃ x y, bezout fuel a b = Ok (x, y) ∧ a * x + b * y = Z.gcd a b.
Proof.
  intros Hab Hfuel. unfold bezout.
  destruct (Z.eqb_spec b 0) as [->|Hb].
  - destruct (Z.eqb_spec a 0) as [->|Ha]; [tauto|]. simpl.
    rewrite Z.gcd_0_r.
    destruct (Z.gtb_spec a 0); eexists _, _; (split; [reflexivity|]); lia.
  - rewrite andb_false_r.
    destruct (div_small_eq a b Hb) as (q & r & -> & Hqr & Hlo & Hhi). simpl.
    destruct (bezout_loop_spec a b fuel a b r 0 1 1 (- q))
      as (xx & x & yy & y & -> & Habs); [lia|done|lia|lia|]. simpl.
    rewrite (gcd_step a b q r Hqr) in Habs.
    assert (Z.gcd a b ≠ 0) as Hg.
    { intros Hg. apply Z.gcd_eq_0 in Hg. tauto. }
    destruct (Z.gtb_spec (a * xx + b * yy) 0);
      eexists _, _; (split; [reflexivity|]); lia.
Qed.

(** More fuel does not change an answer. *)
Lemma bezout_loop_mono (fuel : nat) : ∀ (fuel' : nat) a_ b_ r xx x yy y v,
  (fuel ≤ fuel')%nat →
  bezout_loop fuel a_ b_ r xx x yy y = Ok v →
  bezout_loop fuel' a_ b_ r xx x yy y = Ok v.
Proof.
  induction fuel as [|fuel IH]; intros [|fuel'] a_ b_ r xx x yy y v Hle;
    simpl; destruct (r =? 0); try done; try lia.
  destruct (div b_ r SMALL) as [[q r']| |]; simpl; try done.
  apply IH. lia.
Qed.

Lemma bezout_mono (fuel fuel' : nat) (a b : Z) v :
  (fuel ≤ fuel')%nat → bezout fuel a b = Ok v → bezout fuel' a b = Ok v.
Proof.
  intros Hle. unfold bezout.
  destruct ((a =? 0) && (b =? 0)); [done|]. destruct (b =? 0); [done|].
  destruct (div a b SMALL) as [[q r]| |]; simpl; try done.
  destruct (bezout_loop fuel a b r 0 1 1 (- q)) as [st| |] eqn:Hloop;
    simpl; try done.
  by rewrite (bezout_loop_mono _ _ _ _ _ _ _ _ _ _ Hle Hloop).
Qed.

Lemma gcd_pos (a b : Z) : ¬ (a = 0 ∧ b = 0) → 0 < Z.gcd a b.
Proof.
  intros Hab. pose proof (Z.gcd_nonneg a b).
  assert (Z.gcd a b ≠ 0); [|lia].
  intros Hg. apply Z.gcd_eq_0 in Hg. tauto.
Qed.

End EuclidFacts.

(** C5.  For integers [a], [b] not both zero, [bezout] and [gcd] both stop
    (every large enough fuel gives the same answers), and the pair [(x, y)]
    of [bezout] satisfies [a*x + b*y = gcd a b], a strictly positive value
    (and the mathematical gcd). *)
Theorem bezout_gcd_spec (a b : Z) :
  ¬ (a = 0 ∧ b = 0) →
  ∃ (n : nat) (x y g : Z),
    (∀ fuel, (n ≤ fuel)%nat →
       Numth.bezout fuel a b = Ok (x, y) ∧ Numth.gcd fuel a b = Ok g)
    ∧ a * x + b * y = g ∧ 0 < g ∧ g = Z.gcd a b.
Proof.
  intros Hab.
  destruct (bezout_spec (Z.to_nat (Z.abs b)) a b Hab ltac:(lia))
    as (x & y & Hbz & Hxy).
  exists (Z.to_nat (Z.abs b)), x, y, (Z.gcd a b).
  split; [|by eauto using gcd_pos].
  intros fuel Hfuel. split.
  - by apply bezout_mono with (Z.to_nat (Z.abs b)).
  - apply gcd_spec; [done|lia].
Qed.

Lemma bezout_gcd_spec_witness :
  ∃ (n : nat) (x y g : Z),
    (∀ fuel, (n ≤ fuel)%nat →
       Numth.bezout fuel 240 (-46) = Ok (x, y)
       ∧ Numth.gcd fuel 240 (-46) = Ok g)
    ∧ 240 * x + -46 * y = g ∧ 0 < g ∧ g = Z.gcd 240 (-46).
Proof. apply (bezout_gcd_spec 240 (-46)). lia. Defined.

(** ** Modular inverse and power *)

Section ModularFacts.
Import Numth.

(** The guard of [mod_inverse] lets the modulus 1 through. *)
Lemma mod_inverse_below_1 (fuel : nat) (num md : Z) :
  md < 1 → mod_inverse fuel num md = Raise InvalidModulus.
Proof.
  intros Hmd. unfold mod_inverse. by rewrite (proj2 (Z.ltb_lt _ _) Hmd).
Qed.

Lemma mod_inverse_modulus_1 (fuel : nat) (num : Z) :
  (1 ≤ fuel)%nat → mod_inverse fuel num 1 = Ok 0.
Proof.
  intros Hfuel. unfold mod_inverse. simpl.
  rewrite gcd_spec by lia. rewrite Z.gcd_1_r. simpl.
  destruct (bezout_spec fuel num 1) as (x & y & -> & _); [lia|lia|].
  simpl. by rewrite Z.mod_1_r.
Qed.

Lemma mod_inverse_spec (fuel : nat) (num md : Z) :
  2 ≤ md → Z.gcd num md = 1 → Z.abs md ≤ Z.of_nat fuel →
  ∃ inv, mod_inverse fuel num md = Ok inv
         ∧ 0 < inv < md ∧ (num * inv) mod md = 1.
Proof.
  intros Hmd Hg Hfuel. unfold mod_inverse.
  rewrite (proj2 (Z.ltb_ge _ _)) by lia.
  rewrite gcd_spec by lia. rewrite Hg. simpl.
  destruct (bezout_spec fuel num md) as (x & y & -> & Hxy); [lia|lia|].
  simpl. eexists. split; [reflexivity|]. rewrite Hg in Hxy.
  assert ((num * (x mod md)) mod md = 1) as Hinv.
  { rewrite Z.mul_mod_idemp_r by lia.
    replace (num * x) with (1 + (- y) * md) by lia.
    rewrite Z.mod_add by lia. apply Z.mod_small. lia. }
  split; [|done].
  pose proof (Z.mod_pos_bound x md ltac:(lia)).
  destruct (Z.eq_dec (x mod md) 0) as [H0|]; [|lia].
  rewrite H0, Z.mul_0_r, Z.mod_0_l in Hinv by lia. lia.
Qed.

(** [mod_power] on a non-negative exponent needs no more than [exp]
    nested calls. *)
Lemma mod_power_spec (fuel : nat) : ∀ num exp md : Z,
  2 ≤ md → 0 ≤ exp → exp ≤ Z.of_nat fuel →
  mod_power fuel num exp md = Ok (num ^ exp mod md).
Proof.
  induction fuel as [|fuel IH]; intros num exp md Hmd Hexp Hfuel.
  - assert (exp = 0) as -> by lia. simpl.
    rewrite (proj2 (Z.ltb_ge _ _)) by lia.
    by rewrite Z.mod_small by lia.
  - cbn [mod_power].
    rewrite (proj2 (Z.ltb_ge md 2)), (proj2 (Z.ltb_ge exp 0)) by lia.
    destruct (Z.eqb_spec exp 0) as [->|H0].
    { by rewrite Z.pow_0_r, Z.mod_small by lia. }
    destruct (Z.eqb_spec exp 1) as [->|H1].
    { by rewrite Z.pow_1_r. }
    assert (0 ≤ exp / 2 ∧ exp / 2 ≤ Z.of_nat fuel) as [Hh0 Hh1] by zarith.
    rewrite (IH (num * num) (exp / 2) md) by lia.
    rewrite <- Z.pow_2_r, <- Z.pow_mul_r by lia.
    destruct (Z.eqb_spec (exp mod 2) 0) as [Heven|Hodd].
    + do 3 f_equal. zarith.
    + simpl. f_equal. rewrite Z.mul_mod_idemp_r by lia.
      rewrite <- Z.pow_succ_r by lia. do 2 f_equal. zarith.
Qed.

End ModularFacts.

(** C2.  [mod_inverse(5, 1)] returns 0: the guard tests [mod < 1], so the
    modulus 1, which is below 2, is not rejected. *)
Theorem mod_inverse_5_1 : Numth.mod_inverse 1 5 1 = Ok 0.
Proof. reflexivity. Qed.

(** C6.  For an exponent [exp >= 0] and a modulus [md >= 2], [mod_power]
    stops and returns [num^exp mod md]. *)
Theorem mod_power_correct (num exp md : Z) :
  0 ≤ exp → 2 ≤ md →
  ∃ n : nat, ∀ fuel, (n ≤ fuel)%nat →
    Numth.mod_power fuel num exp md = Ok (num ^ exp mod md).
Proof.
  intros Hexp Hmd. exists (Z.to_nat exp). intros fuel Hfuel.
  apply mod_power_spec; lia.
Qed.

Lemma mod_power_correct_witness :
  ∃ n : nat, ∀ fuel, (n ≤ fuel)%nat →
    Numth.mod_power fuel (-3) 13 10 = Ok ((-3) ^ 13 mod 10).
Proof. apply (mod_power_correct (-3) 13 10); lia. Defined.

(** ** p-adic valuation and the Jacobi symbol *)

Section PadicFacts.
Import Numth.

Lemma padic_loop_spec (base : Z) (fuel : nat) : ∀ exp rest : Z,
  2 ≤ base → rest ≠ 0 → 0 ≤ exp → Z.abs rest ≤ Z.of_nat fuel →
  ∃ e r, padic_loop fuel base exp rest = Ok (e, r)
         ∧ base ^ e * r = base ^ exp * rest ∧ r mod base ≠ 0.
Proof.
  induction fuel as [|fuel IH]; intros exp rest Hbase Hrest Hexp Hfuel;
    [lia|].
  simpl. destruct (Z.eqb_spec (rest mod base) 0) as [Hdiv|Hndiv].
  - pose proof (Z.div_mod rest base ltac:(lia)) as Hdm.
    rewrite Hdiv, Z.add_0_r in Hdm.
    assert (Z.abs rest = base * Z.abs (rest / base)) as Habs.
    { rewrite Hdm at 1. rewrite Z.abs_mul. f_equal. lia. }
    destruct (IH (exp + 1) (rest / base)) as (e & r & Hrun & Heq & Hr);
      [done| |lia| |].
    { intros H0. rewrite H0 in Hdm. lia. }
    { assert (rest / base ≠ 0) by (intros H0; rewrite H0 in Hdm; lia). nia. }
    destruct fuel as [|fuel'].
    { assert (rest / base ≠ 0) by (intros H0; rewrite H0 in Hdm; lia). nia. }
    exists e, r. split; [exact Hrun|]. split; [|done].
    rewrite Heq, Z.pow_add_r, Z.pow_1_r by lia.
    rewrite Hdm at 2. ring.
  - eexists _, _. split; [reflexivity|]. done.
Qed.

(** On zero the loop never leaves: the remainder stays 0. *)
Lemma padic_loop_zero (base : Z) (fuel : nat) : ∀ exp : Z,
  base ≠ 0 → padic_loop fuel base exp 0 = OutOfFuel.
Proof.
  induction fuel as [|fuel IH]; intros exp Hbase; cbn [padic_loop];
    rewrite Z.mod_0_l by done; [done|].
  rewrite Z.eqb_refl, Z.div_0_l by done. by apply IH.
Qed.

Lemma padic_loop_mono (base : Z) (fuel : nat) : ∀ (fuel' : nat) exp rest v,
  (fuel ≤ fuel')%nat →
  padic_loop fuel base exp rest = Ok v →
  padic_loop fuel' base exp rest = Ok v.
Proof.
  induction fuel as [|fuel IH]; intros [|fuel'] exp rest v Hle;
    simpl; destruct (rest mod base =? 0); try done; try lia.
  apply IH. lia.
Qed.

Lemma jacobi_even (G : gmap string Z) (fuel : nat) (a b : Z) :
  b mod 2 = 0 → G !! "num"%string = None →
  jacobi G fuel a b = Raise (NameError "num").
Proof.
  intros Hb HG. destruct fuel; simpl; rewrite Hb; simpl;
    unfold lookup_global; by rewrite HG.
Qed.

End PadicFacts.

(** C3.  [jacobi(1, 4)], called where the module's globals bind no [num]
    (the module imported, not run as a script), raises [NameError]: the
    message of the intended error is built from names the function does
    not have. *)
Theorem jacobi_1_4_name_error :
  Numth.jacobi ∅ 5 1 4 = Raise (NameError "num").
Proof. reflexivity. Qed.

(** C4.  For a base [>= 2]: on a nonzero [num], [padic] stops and returns
    [(exp, rest)] with [num = base^exp * rest] and [rest mod base <> 0];
    on [num = 0] the loop does not stop, whatever the fuel. *)
Theorem padic_spec (num base : Z) :
  2 ≤ base →
  (num ≠ 0 →
   ∃ (n : nat) (exp rest : Z),
     (∀ fuel, (n ≤ fuel)%nat → Numth.padic fuel num base = Ok (exp, rest))
     ∧ num = base ^ exp * rest ∧ rest mod base ≠ 0)
  ∧ (∀ fuel, Numth.padic fuel 0 base = OutOfFuel).
Proof.
  intros Hbase. split.
  - intros Hnum.
    destruct (padic_loop_spec base (Z.to_nat (Z.abs num)) 0 num)
      as (e & r & Hrun & Heq & Hr); [done|done|lia|lia|].
    exists (Z.to_nat (Z.abs num)), e, r. split; [|split; [|done]].
    + intros fuel Hfuel. unfold Numth.padic.
      rewrite (proj2 (Z.ltb_ge _ _)) by lia.
      by apply padic_loop_mono with (Z.to_nat (Z.abs num)).
    + rewrite Heq, Z.pow_0_r. lia.
  - intros fuel. unfold Numth.padic. rewrite (proj2 (Z.ltb_ge _ _)) by lia.
    apply padic_loop_zero. lia.
Qed.

Lemma padic_spec_witness :
  (∃ (n : nat) (exp rest : Z),
     (∀ fuel, (n ≤ fuel)%nat → Numth.padic fuel (-72) 3 = Ok (exp, rest))
     ∧ -72 = 3 ^ exp * rest ∧ rest mod 3 ≠ 0)
  ∧ (∀ fuel, Numth.padic fuel 0 3 = OutOfFuel).
Proof.
  destruct (padic_spec (-72) 3 ltac:(lia)) as [Hterm Hloop].
  split; [apply Hterm; lia | exact Hloop].
Defined.

(** ** Dictionaries *)

Section DictFacts.

Lemma dict_get_None (k : Z) (d : Dict.dict) :
  Dict.get k d = None ↔ k ∉ d.*1.
Proof.
  induction d as [|[k' v] d IH]; simpl.
  - split; [intros _; apply not_elem_of_nil|done].
  - rewrite not_elem_of_cons. destruct (Z.eqb_spec k' k) as [->|Hne].
    + split; [done|]. intros [? _]. done.
    + rewrite IH. split; [by intros ?; split|by intros [_ ?]].
Qed.

Lemma dict_get_Some (k v : Z) (d : Dict.dict) :
  NoDup d.*1 → Dict.get k d = Some v ↔ (k, v) ∈ d.
Proof.
  induction d as [|[k' v'] d IH]; simpl; intros Hnd.
  - split; [done|]. intros H. by apply elem_of_nil in H.
  - apply NoDup_cons in Hnd as [Hk' Hnd]. rewrite elem_of_cons.
    destruct (Z.eqb_spec k' k) as [->|Hne].
    + split; [intros [= ->]; by left|].
      intros [[= ->]|Hin]; [done|].
      destruct Hk'. apply list_elem_of_fmap. by exists (k, v).
    + rewrite IH by done. split; [by right|].
      intros [[= ? ?]|?]; [congruence|done].
Qed.

Lemma dict_mem_false (k : Z) (d : Dict.dict) :
  Dict.mem k d = false ↔ k ∉ d.*1.
Proof.
  unfold Dict.mem. rewrite <- dict_get_None.
  destruct (Dict.get k d); split; done.
Qed.

(** Assigning to a key that is not there appends the item. *)
Lemma dict_set_fresh (k v : Z) (d : Dict.dict) :
  k ∉ d.*1 → Dict.set k v d = d ++ [(k, v)].
Proof.
  induction d as [|[k' v'] d IH]; simpl; [done|].
  rewrite not_elem_of_cons. intros [Hne Hnin].
  destruct (Z.eqb_spec k' k) as [->|_]; [done|]. by rewrite IH.
Qed.

Lemma dict_fold_set_fresh (items : list (Z * Z)) : ∀ d : Dict.dict,
  NoDup (d ++ items).*1 →
  fold_left (fun d kv => Dict.set kv.1 kv.2 d) items d = d ++ items.
Proof.
  induction items as [|[k v] items IH]; intros d Hnd; simpl.
  - by rewrite app_nil_r.
  - rewrite dict_set_fresh.
    + rewrite IH; rewrite <- app_assoc; done.
    + rewrite fmap_app in Hnd. apply NoDup_app in Hnd as (_ & Hdisj & _).
      intros Hin. apply (Hdisj k Hin). simpl. by left.
Qed.

(** Items with pairwise distinct keys make the dictionary of themselves. *)
Lemma dict_of_items_nodup (items : list (Z * Z)) :
  NoDup items.*1 → Dict.of_items items = items.
Proof. intros Hnd. unfold Dict.of_items. by rewrite dict_fold_set_fresh. Qed.

Lemma powers_table_keys (m x k : Z) : (powers_table m x k).*1 = seqZ 0 k.
Proof.
  unfold powers_table. rewrite <- list_fmap_compose.
  rewrite <- (list_fmap_id (seqZ 0 k)) at 2. by apply list_fmap_ext.
Qed.

Lemma powers_table_succ (m x k : Z) :
  0 ≤ k →
  powers_table m x (k + 1) = powers_table m x k ++ [(k, x ^ k mod m)].
Proof.
  intros Hk. unfold powers_table.
  rewrite seqZ_app by lia. rewrite fmap_app.
  rewrite (seqZ_cons _ 1) by lia. by rewrite (seqZ_nil _ (Z.pred 1)) by lia.
Qed.

Lemma powers_table_set (m x k : Z) :
  0 ≤ k →
  Dict.set k (x ^ k mod m) (powers_table m x k) = powers_table m x (k + 1).
Proof.
  intros Hk. rewrite dict_set_fresh, powers_table_succ; [done|done|].
  rewrite powers_table_keys, elem_of_seqZ. lia.
Qed.

Lemma powers_table_lookup (m x k i v : Z) :
  (i, v) ∈ powers_table m x k ↔ 0 ≤ i < k ∧ v = x ^ i mod m.
Proof.
  unfold powers_table. rewrite list_elem_of_fmap. split.
  - intros (j & [= -> ->] & Hj). apply elem_of_seqZ in Hj. split; [lia|done].
  - intros [Hi ->]. exists i. split; [done|]. apply elem_of_seqZ. lia.
Qed.

End DictFacts.

(** ** Powers and orders modulo [m] *)

Section Orders.
Variable m : Z.
Hypothesis Hm : 2 ≤ m.

Lemma pow_mod_idemp (x k : Z) : (x mod m) ^ k mod m = x ^ k mod m.
Proof. symmetry. apply Zpower_mod. lia. Qed.

Lemma pow_succ_mod (x j : Z) :
  0 ≤ j → (x ^ j mod m * x) mod m = x ^ (j + 1) mod m.
Proof.
  intros Hj. rewrite Z.mul_mod_idemp_l by lia.
  by rewrite Z.pow_add_r, Z.pow_1_r by lia.
Qed.

Lemma pow_add_mod (x i j : Z) :
  0 ≤ i → 0 ≤ j → x ^ (i + j) mod m = (x ^ i mod m * (x ^ j mod m)) mod m.
Proof.
  intros Hi Hj. rewrite Z.pow_add_r by lia. apply Z.mul_mod. lia.
Qed.

Lemma pow_mul_mod_1 (x k q : Z) :
  0 ≤ k → 0 ≤ q → x ^ k mod m = 1 → x ^ (k * q) mod m = 1.
Proof.
  intros Hk Hq H1. rewrite Z.pow_mul_r by lia.
  rewrite <- pow_mod_idemp, H1, Z.pow_1_l by lia. apply Z.mod_small. lia.
Qed.

(** An element with a positive power equal to 1 is prime to [m]. *)
Lemma pow_one_coprime (x k : Z) : 0 < k → x ^ k mod m = 1 → Z.gcd x m = 1.
Proof.
  intros Hk H1. apply Z.coprime_Bezout.
  pose proof (Z.div_mod (x ^ k) m ltac:(lia)) as Hdm. rewrite H1 in Hdm.
  replace k with (Z.succ (k - 1)) in Hdm by lia.
  rewrite Z.pow_succ_r in Hdm by lia.
  exists (x ^ (k - 1)), (- (x * x ^ (k - 1) / m)). lia.
Qed.

Lemma mod_eq_divide (a b : Z) : a mod m = b mod m ↔ (m | a - b).
Proof.
  rewrite <- Z.mod_divide by lia. split; intros H.
  - by rewrite Zminus_mod, H, Z.sub_diag, Z.mod_0_l by lia.
  - rewrite <- (Z.sub_add b a). rewrite <- Zplus_mod_idemp_l, H. done.
Qed.

Lemma pow_cancel (x i a b : Z) :
  Z.gcd x m = 1 → 0 ≤ i →
  (x ^ i * a) mod m = (x ^ i * b) mod m → a mod m = b mod m.
Proof.
  intros Hg Hi. rewrite !mod_eq_divide, <- Z.mul_sub_distr_l.
  intros Hdiv. apply Z.gauss with (x ^ i); [done|].
  apply Z.coprime_pow_r; [done|]. unfold Z.coprime. by rewrite Z.gcd_comm.
Qed.

Lemma pow_diff (x i j : Z) :
  Z.gcd x m = 1 → 0 ≤ i ≤ j →
  x ^ i mod m = x ^ j mod m → x ^ (j - i) mod m = 1.
Proof.
  intros Hg Hij Heq. transitivity (1 mod m); [|apply Z.mod_small; lia].
  apply pow_cancel with x i; [done|lia|].
  rewrite <- Z.pow_add_r, Z.mul_1_r by lia.
  replace (i + (j - i)) with j by lia. done.
Qed.

(** Among the first [m + 1] powers two agree modulo [m]. *)
Lemma repeated_entry (l : list Z) :
  ¬ NoDup l → ∃ (i j : nat) (v : Z),
    (i < j)%nat ∧ l !! i = Some v ∧ l !! j = Some v.
Proof.
  induction l as [|a l IH]; intros Hdup.
  - destruct Hdup. constructor.
  - destruct (decide (a ∈ l)) as [Hin|Hnin].
    + apply list_elem_of_lookup in Hin as [j Hj].
      exists 0%nat, (S j), a. split; [lia|done].
    + destruct IH as (i & j & v & Hij & Hi & Hj).
      { intros Hnd. apply Hdup. by constructor. }
      exists (S i), (S j), v. split; [lia|done].
Qed.

Lemma power_repeats (x : Z) :
  ∃ i j, 0 ≤ i < j ∧ x ^ i mod m = x ^ j mod m.
Proof.
  set (l := (fun i => x ^ i mod m) <$> seqZ 0 (m + 1)).
  destruct (repeated_entry l) as (i & j & v & Hij & Hi & Hj).
  { intros Hnd.
    assert (l ⊆+ seqZ 0 m) as Hsub.
    { apply NoDup_submseteq; [done|]. intros y Hy.
      apply list_elem_of_fmap in Hy as (k & -> & _).
      apply elem_of_seqZ. pose proof (Z.mod_pos_bound (x ^ k) m). lia. }
    apply submseteq_length in Hsub.
    unfold l in Hsub. rewrite length_fmap, !length_seqZ in Hsub. lia. }
  unfold l in Hi, Hj. rewrite list_lookup_fmap in Hi, Hj.
  destruct (seqZ 0 (m + 1) !! i) as [a|] eqn:Ha; [|done].
  destruct (seqZ 0 (m + 1) !! j) as [b|] eqn:Hb; [|done].
  apply lookup_seqZ in Ha as [-> _]. apply lookup_seqZ in Hb as [-> _].
  simpl in Hi, Hj. exists (Z.of_nat i), (Z.of_nat j).
  split; [lia|]. rewrite !Z.add_0_l in *. congruence.
Qed.

(** A positive exponent that works gives a least one. *)
Lemma least_exponent (x : Z) (n : nat) : ∀ k : Z,
  0 < k ≤ Z.of_nat n → x ^ k mod m = 1 → ∃ k', is_order m x k'.
Proof.
  induction n as [|n IH]; intros k Hk H1; [lia|].
  destruct (decide (Exists (fun j => x ^ j mod m = 1) (seqZ 1 (k - 1))))
    as [Hex|Hnex].
  - apply Exists_exists in Hex as (j & Hj & Hj1).
    apply elem_of_seqZ in Hj. apply (IH j); [lia|done].
  - exists k. split; [lia|]. split; [done|].
    intros j Hj Hj1. apply Hnex, Exists_exists. exists j.
    split; [|done]. apply elem_of_seqZ. lia.
Qed.

Lemma order_exists (x : Z) : Z.gcd x m = 1 → ∃ k, is_order m x k.
Proof.
  intros Hg. destruct (power_repeats x) as (i & j & Hij & Heq).
  apply (least_exponent x (Z.to_nat (j - i)) (j - i)); [lia|].
  apply pow_diff; [done|lia|done].
Qed.

Lemma order_divides (x k j : Z) :
  is_order m x k → 0 ≤ j → x ^ j mod m = 1 → (k | j).
Proof.
  intros (Hk & Hk1 & Hmin) Hj Hj1.
  apply Z.mod_divide; [lia|].
  pose proof (Z.div_mod j k ltac:(lia)) as Hdm.
  pose proof (Z.mod_pos_bound j k ltac:(lia)) as Hr.
  assert (0 ≤ j / k) as Hq by (apply Z.div_pos; lia).
  destruct (decide (j mod k = 0)) as [|Hne]; [done|].
  destruct (Hmin (j mod k)); [lia|].
  rewrite Hdm, pow_add_mod in Hj1 by lia.
  rewrite (pow_mul_mod_1 x k (j / k)), Z.mul_1_l in Hj1 by (done || lia).
  by rewrite Z.mod_mod in Hj1 by lia.
Qed.

Lemma order_unique (x k k' : Z) : is_order m x k → is_order m x k' → k = k'.
Proof.
  intros (Hk & Hk1 & Hmin) (Hk' & Hk1' & Hmin').
  destruct (Z.lt_trichotomy k k') as [Hlt|[->|Hgt]]; [|done|].
  - destruct (Hmin' k); [lia|done].
  - destruct (Hmin k'); [lia|done].
Qed.

Lemma order_coprime (x k : Z) : is_order m x k → Z.gcd x m = 1.
Proof. intros (Hk & Hk1 & _). by apply pow_one_coprime with k. Qed.

(** Below the order the powers are pairwise distinct. *)
Lemma order_inj (x k i j : Z) :
  is_order m x k → 0 ≤ i < k → 0 ≤ j < k →
  x ^ i mod m = x ^ j mod m → i = j.
Proof.
  intros Hord Hi Hj Heq. pose proof (order_coprime _ _ Hord) as Hg.
  destruct Hord as (Hk & Hk1 & Hmin).
  destruct (Z.lt_trichotomy i j) as [Hlt|[->|Hgt]]; [|done|].
  - destruct (Hmin (j - i)); [lia|]. apply pow_diff; [done|lia|done].
  - destruct (Hmin (i - j)); [lia|]. apply pow_diff; [done|lia|done].
Qed.

Lemma order_one : is_order m 1 1.
Proof.
  split; [lia|]. split; [|lia]. rewrite Z.pow_1_r. apply Z.mod_small. lia.
Qed.

Lemma units_elem (x : Z) : x ∈ units m ↔ 1 ≤ x < m ∧ Z.gcd x m = 1.
Proof.
  unfold units. rewrite list_elem_of_filter, elem_of_seqZ.
  split; intros [? ?]; split; (done || lia).
Qed.

Lemma NoDup_units : NoDup (units m).
Proof. apply NoDup_filter, NoDup_seqZ. Qed.

(** The powers of a unit are units. *)
Lemma pow_unit (g i : Z) : Z.gcd g m = 1 → 0 ≤ i → g ^ i mod m ∈ units m.
Proof.
  intros Hg Hi. apply units_elem.
  assert (Z.gcd (g ^ i mod m) m = 1) as Hgcd.
  { rewrite Z.gcd_mod_l. by apply Z.coprime_pow_l. }
  split; [|done]. pose proof (Z.mod_pos_bound (g ^ i) m ltac:(lia)).
  destruct (decide (g ^ i mod m = 0)) as [H0|]; [|lia].
  rewrite H0, Z.gcd_0_l in Hgcd. lia.
Qed.

Lemma powers_nodup (g k : Z) :
  is_order m g k → NoDup ((fun i => g ^ i mod m) <$> seqZ 0 k).
Proof.
  intros Hord. apply NoDup_fmap_2_strong; [|apply NoDup_seqZ].
  intros i j Hi%elem_of_seqZ Hj%elem_of_seqZ.
  apply (order_inj g k); [done|lia|lia].
Qed.

(** An element whose order is the number of units generates them all. *)
Lemma generator_covers (g x : Z) :
  is_order m g (Z.of_nat (length (units m))) →
  x ∈ units m ↔ ∃ i, 0 ≤ i < Z.of_nat (length (units m)) ∧ x = g ^ i mod m.
Proof.
  intros Hord. set (k := Z.of_nat (length (units m))) in *.
  set (l := (fun i => g ^ i mod m) <$> seqZ 0 k).
  assert (l ≡ₚ units m) as Hperm.
  { apply submseteq_length_Permutation.
    - apply NoDup_submseteq; [by apply powers_nodup|].
      intros y (i & -> & Hi%elem_of_seqZ)%list_elem_of_fmap.
      apply pow_unit; [by apply order_coprime with k|lia].
    - unfold l. rewrite length_fmap, length_seqZ. lia. }
  rewrite <- Hperm. unfold l. rewrite list_elem_of_fmap.
  split.
  - intros (i & -> & Hi%elem_of_seqZ). exists i. split; [lia|done].
  - intros (i & Hi & ->). exists i. split; [done|]. apply elem_of_seqZ. lia.
Qed.

(** The order of the [i]-th power of an element of order [n]. *)
Lemma order_of_power (g n i : Z) :
  is_order m g n → 0 ≤ i → is_order m (g ^ i mod m) (n / Z.gcd i n).
Proof.
  intros Hord Hi. pose proof Hord as (Hn & Hn1 & _).
  set (d := Z.gcd i n).
  assert (0 < d) as Hd.
  { pose proof (Z.gcd_nonneg i n).
    assert (d ≠ 0); [|unfold d in *; lia].
    intros [_ ?]%Z.gcd_eq_0. lia. }
  destruct (Z.gcd_divide_l i n) as [i' Hi'].
  destruct (Z.gcd_divide_r i n) as [n' Hn'].
  fold d in Hi', Hn'.
  assert (n / d = n') as -> by (rewrite Hn'; apply Z.div_mul; lia).
  assert (i / d = i') as Hi'd by (rewrite Hi'; apply Z.div_mul; lia).
  assert (0 < n') as Hn'pos by nia.
  assert (0 ≤ i') as Hi'pos by nia.
  assert (Z.gcd n' i' = 1) as Hcop.
  { rewrite Z.gcd_comm. pose proof (Z.gcd_div_gcd i n d ltac:(lia) eq_refl).
    by rewrite Hi'd, Hn', Z.div_mul in H by lia. }
  split; [done|]. split.
  - rewrite pow_mod_idemp, <- Z.pow_mul_r by lia.
    replace (i * n') with (n * i') by nia.
    by apply pow_mul_mod_1; [lia|lia|].
  - intros j Hj H1. rewrite pow_mod_idemp, <- Z.pow_mul_r in H1 by lia.
    apply (order_divides g n) in H1; [|done|nia].
    rewrite Hn', Hi' in H1.
    replace (i' * d * j) with (d * (i' * j)) in H1 by lia.
    rewrite (Z.mul_comm n' d) in H1.
    apply Z.mul_divide_cancel_l in H1; [|lia].
    apply Z.gauss in H1; [|done].
    apply Z.divide_pos_le in H1; lia.
Qed.

(** The inverse table of a dictionary with pairwise distinct values. *)
Lemma invert_fold (items : list (Z * Z)) : ∀ (d : gmap Z Z),
  NoDup items.*2 →
  (∀ i v, (i, v) ∈ items →
     fold_left (fun d ex => <[ ex.2 := ex.1 ]> d) items d !! v = Some i)
  ∧ (∀ v, v ∉ items.*2 →
     fold_left (fun d ex => <[ ex.2 := ex.1 ]> d) items d !! v = d !! v).
Proof.
  induction items as [|[i0 v0] items IH]; intros d Hnd; simpl.
  - split; [|done]. intros i v Hin. by apply elem_of_nil in Hin.
  - apply NoDup_cons in Hnd as [Hv0 Hnd].
    destruct (IH (<[v0:=i0]> d) Hnd) as [IH1 IH2]. split.
    + intros i v [[= -> ->]|Hin]%elem_of_cons; [|by apply IH1].
      by rewrite IH2, lookup_insert_eq.
    + intros v [Hne Hv]%not_elem_of_cons.
      by rewrite IH2, lookup_insert_ne.
Qed.

Lemma invert_fold_inv (items : list (Z * Z)) : ∀ (d : gmap Z Z) (i v : Z),
  fold_left (fun d ex => <[ ex.2 := ex.1 ]> d) items d !! v = Some i →
  (i, v) ∈ items ∨ d !! v = Some i.
Proof.
  induction items as [|[i0 v0] items IH]; intros d i v; simpl; [by right|].
  intros [Hin|Hd]%IH; [left; by right|].
  destruct (decide (v0 = v)) as [->|Hne].
  - rewrite lookup_insert_eq in Hd. injection Hd as ->. left. by left.
  - rewrite lookup_insert_ne in Hd by done. by right.
Qed.

Lemma invert_items_lookup_inv (c : Dict.dict) (i v : Z) :
  ModularRing.invert_items c !! v = Some i → (i, v) ∈ c.
Proof. by intros [?|?]%invert_fold_inv. Qed.

Lemma invert_items_lookup (c : Dict.dict) (i v : Z) :
  NoDup c.*2 → (i, v) ∈ c → ModularRing.invert_items c !! v = Some i.
Proof. intros Hnd Hin. by apply (invert_fold c ∅ Hnd). Qed.

Lemma powers_table_values (x k : Z) :
  (powers_table m x k).*2 = (fun i => x ^ i mod m) <$> seqZ 0 k.
Proof. unfold powers_table. by rewrite <- list_fmap_compose. Qed.

Lemma powers_table_get (x k p v : Z) :
  Dict.get p (powers_table m x k) = Some v ↔ 0 ≤ p < k ∧ v = x ^ p mod m.
Proof.
  rewrite dict_get_Some, powers_table_lookup; [done|].
  rewrite powers_table_keys. apply NoDup_seqZ.
Qed.

End Orders.

(** ** cyclic_subgroup_from *)

Section CyclicSubgroup.
Import ModularRing.
Variable m : Z.
Hypothesis Hm : 2 ≤ m.

Lemma mult_pair (s : ring) (a b : Z) :
  modulus s = m → mult [a; b] s = Ok ((a * b) mod m, s).
Proof.
  intros Hs. unfold mult, mult_reduce, py_mod. rewrite Hs.
  rewrite (proj2 (Z.eqb_neq m 0)) by lia. simpl.
  by rewrite Z.mul_1_l, Z.mul_mod_idemp_l by lia.
Qed.

(** The state of the loop when [curr_power] is [j]. *)
Lemma cyclic_subgroup_loop_run (s : ring) (x k : Z) (fuel : nat) : ∀ j : Z,
  modulus s = m → is_order m x k → 1 ≤ j ≤ k → k - j ≤ Z.of_nat fuel →
  cyclic_subgroup_loop fuel x (powers_table m x j) (x ^ j mod m) j s
  = Ok ((powers_table m x k, k), s).
Proof.
  induction fuel as [|fuel IH]; intros j Hs Hord Hj Hfuel;
    pose proof Hord as (Hk & Hk1 & Hmin); simpl.
  - assert (j = k) as -> by lia. by rewrite Hk1.
  - destruct (Z.eqb_spec (x ^ j mod m) 1) as [H1|Hne].
    + destruct (decide (j = k)) as [->|]; [done|].
      destruct (Hmin j); [lia|done].
    + rewrite mult_pair by done. simpl.
      rewrite powers_table_set, pow_succ_mod by lia.
      assert (j ≠ k) by congruence. apply IH; (done || lia).
Qed.

(** Without a power equal to 1 the loop goes on for ever. *)
Lemma cyclic_subgroup_loop_diverges (s : ring) (x : Z) (fuel : nat) :
  ∀ (j : Z) (subgroup : Dict.dict),
  modulus s = m → (∀ j, 0 < j → x ^ j mod m ≠ 1) → 1 ≤ j →
  cyclic_subgroup_loop fuel x subgroup (x ^ j mod m) j s = OutOfFuel.
Proof.
  induction fuel as [|fuel IH]; intros j subgroup Hs Hno Hj; simpl;
    rewrite (proj2 (Z.eqb_neq _ _)) by (apply Hno; lia); [done|].
  rewrite mult_pair by done. simpl. rewrite pow_succ_mod by lia.
  apply IH; (done || lia).
Qed.

Lemma cyclic_subgroup_loop_mono (x : Z) (fuel : nat) :
  ∀ (fuel' : nat) subgroup c j (s : ring) r,
  (fuel ≤ fuel')%nat →
  cyclic_subgroup_loop fuel x subgroup c j s = Ok r →
  cyclic_subgroup_loop fuel' x subgroup c j s = Ok r.
Proof.
  induction fuel as [|fuel IH]; intros [|fuel'] subgroup c j s r Hle;
    simpl; destruct (c =? 1); try done; try lia.
  destruct (mult [c; x] s) as [[c' s']| |]; simpl; [|done..].
  apply IH. lia.
Qed.

Lemma cyclic_subgroup_from_run (s : ring) (x k : Z) (fuel : nat) :
  modulus s = m → 0 ≤ x < m → is_order m x k → k ≤ Z.of_nat fuel →
  cyclic_subgroup_from fuel x s
  = Ok (powers_table m x k, record_order x k s).
Proof.
  intros Hs Hx Hord Hfuel. unfold cyclic_subgroup_from.
  pose proof (cyclic_subgroup_loop_run s x k fuel 1 Hs Hord) as Hrun.
  assert (powers_table m x 1 = [(0, 1)]) as Htab.
  { unfold powers_table. rewrite (seqZ_cons _ 1) by lia.
    rewrite (seqZ_nil _ (Z.pred 1)) by lia. simpl.
    by rewrite Z.mod_small by lia. }
  rewrite Htab, Z.pow_1_r, Z.mod_small in Hrun by lia.
  rewrite Hrun by (destruct Hord; lia). done.
Qed.

Lemma cyclic_subgroup_from_diverges (s : ring) (x : Z) (fuel : nat) :
  modulus s = m → 0 ≤ x < m → Z.gcd x m ≠ 1 →
  cyclic_subgroup_from fuel x s = OutOfFuel.
Proof.
  intros Hs Hx Hg. unfold cyclic_subgroup_from.
  pose proof (cyclic_subgroup_loop_diverges s x fuel 1 [(0, 1)] Hs) as Hrun.
  rewrite Z.pow_1_r, Z.mod_small in Hrun by lia.
  rewrite Hrun; [done| |lia].
  intros j Hj H1. apply Hg. by apply pow_one_coprime with j.
Qed.

Lemma cyclic_subgroup_from_mono (x : Z) (fuel fuel' : nat) (s : ring) r :
  (fuel ≤ fuel')%nat →
  cyclic_subgroup_from fuel x s = Ok r →
  cyclic_subgroup_from fuel' x s = Ok r.
Proof.
  intros Hle. unfold cyclic_subgroup_from.
  destruct (cyclic_subgroup_loop fuel x [(0, 1)] x 1 s)
    as [[[sub k] s']| |] eqn:Hrun; simpl; [|done..].
  by rewrite (cyclic_subgroup_loop_mono _ _ _ _ _ _ _ _ Hle Hrun).
Qed.

(** Whenever it returns, it returns the table of the powers below the
    order. *)
Lemma cyclic_subgroup_from_result (s : ring) (x : Z) (fuel : nat) r :
  modulus s = m → 0 ≤ x < m →
  cyclic_subgroup_from fuel x s = Ok r →
  ∃ k, is_order m x k ∧ r = (powers_table m x k, record_order x k s).
Proof.
  intros Hs Hx Hrun. destruct (decide (Z.gcd x m = 1)) as [Hg|Hg].
  - destruct (order_exists m Hm x Hg) as [k Hord]. exists k. split; [done|].
    pose proof (cyclic_subgroup_from_run s x k (Z.to_nat k) Hs Hx Hord
                  ltac:(lia)) as Hrun'.
    apply (cyclic_subgroup_from_mono _ _ (fuel `max` Z.to_nat k)) in Hrun;
      [|lia].
    apply (cyclic_subgroup_from_mono _ _ (fuel `max` Z.to_nat k)) in Hrun';
      [|lia].
    congruence.
  - by rewrite cyclic_subgroup_from_diverges in Hrun.
Qed.

(** In any case it leaves the state as it was, up to one entry of
    [orders]. *)
Lemma cyclic_subgroup_loop_frame (x : Z) (fuel : nat) :
  ∀ subgroup c j (s : ring) r s',
  cyclic_subgroup_loop fuel x subgroup c j s = Ok (r, s') → s' = s.
Proof.
  induction fuel as [|fuel IH]; intros subgroup c j s r s'; simpl;
    destruct (c =? 1); try done; try by intros [= _ <-].
  unfold mult at 1. destruct (mult_reduce _ _ _) as [c'| |]; simpl; try done.
  apply IH.
Qed.

Lemma cyclic_subgroup_from_frame (x : Z) (fuel : nat) (s : ring) r s' :
  cyclic_subgroup_from fuel x s = Ok (r, s') → ∃ k, s' = record_order x k s.
Proof.
  unfold cyclic_subgroup_from.
  destruct (cyclic_subgroup_loop fuel x [(0, 1)] x 1 s)
    as [[[sub k] s1]| |] eqn:Hloop; simpl; try done.
  apply cyclic_subgroup_loop_frame in Hloop as ->.
  intros [= _ <-]. by exists k.
Qed.

End CyclicSubgroup.

(** C10.  In a ring of modulus [>= 2] and for an element of [0, modulus),
    [cyclic_subgroup_from] returns for some fuel exactly when the element
    is prime to the modulus, and does not stop otherwise; whenever it
    returns, the result is the dictionary [{i : element^i mod modulus}] for
    [0 <= i < k], [k] the least positive exponent with
    [element^k = 1 (mod modulus)] (and [k] is entered in [orders] if the
    element had no entry). *)
Theorem cyclic_subgroup_from_spec (s : ModularRing.ring) (element : Z) :
  2 ≤ ModularRing.modulus s → 0 ≤ element < ModularRing.modulus s →
  ((∃ fuel r, ModularRing.cyclic_subgroup_from fuel element s = Ok r)
   ↔ Z.gcd element (ModularRing.modulus s) = 1)
  ∧ (Z.gcd element (ModularRing.modulus s) ≠ 1 →
     ∀ fuel, ModularRing.cyclic_subgroup_from fuel element s = OutOfFuel)
  ∧ (∀ fuel r, ModularRing.cyclic_subgroup_from fuel element s = Ok r →
     ∃ k, is_order (ModularRing.modulus s) element k
          ∧ r = (powers_table (ModularRing.modulus s) element k,
                 record_order element k s)).
Proof.
  intros Hm Hx. set (m := ModularRing.modulus s) in *.
  split; [|split].
  - split.
    + intros (fuel & r & Hrun).
      destruct (decide (Z.gcd element m = 1)) as [|Hg]; [done|].
      by rewrite (cyclic_subgroup_from_diverges m Hm) in Hrun.
    + intros Hg. destruct (order_exists m Hm element Hg) as [k Hord].
      exists (Z.to_nat k). eexists.
      apply (cyclic_subgroup_from_run m Hm); [done|done|done|lia].
  - intros Hg fuel. by apply (cyclic_subgroup_from_diverges m Hm).
  - intros fuel r. by apply (cyclic_subgroup_from_result m Hm).
Qed.

Lemma cyclic_subgroup_from_spec_witness :
  let s := ModularRing.__init__ 9 in
  ((∃ fuel r, ModularRing.cyclic_subgroup_from fuel 4 s = Ok r)
   ↔ Z.gcd 4 (ModularRing.modulus s) = 1)
  ∧ (Z.gcd 4 (ModularRing.modulus s) ≠ 1 →
     ∀ fuel, ModularRing.cyclic_subgroup_from fuel 4 s = OutOfFuel)
  ∧ (∀ fuel r, ModularRing.cyclic_subgroup_from fuel 4 s = Ok r →
     ∃ k, is_order (ModularRing.modulus s) 4 k
          ∧ r = (powers_table (ModularRing.modulus s) 4 k,
                 record_order 4 k s)).
Proof.
  apply (cyclic_subgroup_from_spec (ModularRing.__init__ 9) 4); simpl; lia.
Defined.

(** ** Factorizations and divisors *)

Section Divisors.

Lemma product_app (l1 l2 : list Z) :
  product (l1 ++ l2) = product l1 * product l2.
Proof.
  unfold product. induction l1 as [|a l1 IH]; simpl; [lia|].
  rewrite IH. lia.
Qed.

Lemma product_replicate (n : nat) (p : Z) :
  product (replicate n p) = p ^ Z.of_nat n.
Proof.
  unfold product. induction n as [|n IH]; [done|].
  rewrite Nat2Z.inj_succ, Z.pow_succ_r by lia. simpl. by rewrite IH.
Qed.

Lemma Counter_elements_product (f : list (Z * Z)) (n : Z) :
  is_factorization f n → product (Counter_elements f) = n.
Proof.
  intros (Hf & _ & <-). induction Hf as [|[p e] f [_ He] _ IH]; [done|].
  simpl in *. rewrite product_app, product_replicate, IH.
  by rewrite Z2Nat.id by lia.
Qed.

Lemma Counter_elements_prime (f : list (Z * Z)) (n : Z) :
  is_factorization f n → Forall Z.prime (Counter_elements f).
Proof.
  intros (Hf & _ & _). induction Hf as [|[p e] f [Hp _] _ IH]; simpl.
  - constructor.
  - apply Forall_app. split; [|done]. by apply Forall_replicate.
Qed.

Lemma product_primes_pos (l : list Z) : Forall Z.prime l → 0 < product l.
Proof.
  induction 1 as [|p l Hp _ IH]; unfold product in *; simpl; [lia|].
  apply Z.prime_ge_2 in Hp. nia.
Qed.

Lemma prime_le_product (l : list Z) (p : Z) :
  Forall Z.prime l → p ∈ l → p ≤ product l.
Proof.
  induction 1 as [|q l Hq Hl IH]; intros Hin.
  - by apply elem_of_nil in Hin.
  - pose proof (product_primes_pos l Hl). apply Z.prime_ge_2 in Hq.
    unfold product in *. simpl. apply elem_of_cons in Hin as [->|Hin].
    + nia.
    + specialize (IH Hin). nia.
Qed.

(** A divisor of [p * n], [p] prime, divides [n] or is [p] times a divisor
    of [n]. *)
Lemma divide_prime_mul (p n d : Z) :
  Z.prime p → (d | p * n) → (d | n) ∨ ∃ e, d = p * e ∧ (e | n).
Proof.
  intros Hp Hd. pose proof (Z.prime_ge_2 p Hp).
  destruct (decide (d mod p = 0)) as [Hdiv|Hnd];
    rewrite Z.mod_divide in * by lia; [destruct Hdiv as [e ->]|].
  - right. exists e. split; [lia|].
    apply (Z.mul_divide_cancel_l _ _ p); [lia|]. by rewrite (Z.mul_comm p e).
  - left. apply Z.gauss with p; [done|].
    rewrite Z.gcd_comm. by apply Z.coprime_prime_l.
Qed.

Lemma py_min_None (l : list Z) : py_min l = None → l = [].
Proof. by destruct l. Qed.

Lemma fold_min_le (l : list Z) : ∀ a, fold_left Z.min l a ≤ a.
Proof.
  induction l as [|b l IH]; intros a; simpl; [lia|].
  specialize (IH (Z.min a b)). lia.
Qed.

Lemma fold_min_lower (l : list Z) : ∀ a y, y ∈ l → fold_left Z.min l a ≤ y.
Proof.
  induction l as [|b l IH]; intros a y Hy; simpl.
  - by apply elem_of_nil in Hy.
  - apply elem_of_cons in Hy as [->|Hy]; [|by apply IH].
    pose proof (fold_min_le l (Z.min a b)). lia.
Qed.

Lemma fold_min_elem (l : list Z) : ∀ a,
  fold_left Z.min l a = a ∨ fold_left Z.min l a ∈ l.
Proof.
  induction l as [|b l IH]; intros a; simpl; [by left|].
  destruct (IH (Z.min a b)) as [Heq|Hin].
  - rewrite Heq. destruct (Z.min_spec a b) as [[_ ->]|[_ ->]];
      [by left|right; by left].
  - right. by right.
Qed.

Lemma py_min_Some (l : list Z) (o : Z) :
  py_min l = Some o → o ∈ l ∧ ∀ y, y ∈ l → o ≤ y.
Proof.
  destruct l as [|a l]; [done|]. simpl. intros [= <-]. split.
  - destruct (fold_min_elem l a) as [->|?]; [by left|by right].
  - intros y Hy. apply elem_of_cons in Hy as [->|Hy].
    + apply fold_min_le.
    + by apply fold_min_lower.
Qed.

End Divisors.

(** ** More fuel, same answer *)

Section Monotone.
Import Numth ModularRing.

#[local] Instance le_res_refl {A : Type} : Reflexive (@le_res A).
Proof. by intros r v. Qed.

Lemma le_res_bind {A B : Type} (r r' : result A) (k k' : A → result B) :
  le_res r r' → (∀ a, le_res (k a) (k' a)) → le_res (r ≫= k) (r' ≫= k').
Proof.
  intros Hr Hk v. destruct r as [a| |]; try done.
  rewrite (Hr a eq_refl). apply Hk.
Qed.

Lemma gcd_mono (fuel fuel' : nat) (a b : Z) :
  (fuel ≤ fuel')%nat → le_res (gcd fuel a b) (gcd fuel' a b).
Proof.
  intros Hle. unfold gcd. destruct ((a =? 0) && (b =? 0)); [done|].
  revert fuel' a b Hle.
  induction fuel as [|fuel IH]; intros [|fuel'] a b Hle v; simpl;
    destruct (b =? 0); try done; try lia.
  destruct (div a b SMALL) as [[q r]| |]; simpl; try done.
  apply IH. lia.
Qed.

Lemma mod_inverse_mono (fuel fuel' : nat) (num md : Z) :
  (fuel ≤ fuel')%nat →
  le_res (mod_inverse fuel num md) (mod_inverse fuel' num md).
Proof.
  intros Hle. unfold mod_inverse. destruct (md <? 1); [done|].
  apply le_res_bind; [by apply gcd_mono|]. intros g.
  destruct (negb (g =? 1)); [done|].
  apply le_res_bind; [|done]. intros v. by apply bezout_mono.
Qed.

Lemma mod_power_mono (fuel : nat) : ∀ (fuel' : nat) (num exp md : Z),
  (fuel ≤ fuel')%nat →
  le_res (mod_power fuel num exp md) (mod_power fuel' num exp md).
Proof.
  induction fuel as [|fuel IH]; intros [|fuel'] num exp md Hle;
    try done; try lia; cbn [mod_power]; destruct (md <? 2); try done;
    destruct (exp <? 0).
  - intros v. by destruct (mod_inverse 0 num md).
  - by destruct (exp =? 0), (exp =? 1).
  - apply le_res_bind; [apply mod_inverse_mono; lia|].
    intros inv. apply IH. lia.
  - destruct (exp =? 0); [done|]. destruct (exp =? 1); [done|].
    destruct (exp mod 2 =? 0); [apply IH; lia|].
    apply le_res_bind; [apply IH; lia|done].
Qed.

Lemma new_powers_items_mono (fuel fuel' : nat) (p : Z) (powers : Dict.dict)
    (items : list (Z * Z)) (s : ring) :
  (fuel ≤ fuel')%nat →
  le_res (new_powers_items fuel p powers items s)
         (new_powers_items fuel' p powers items s).
Proof.
  intros Hle. revert s. induction items as [|[e x] items IH]; intros s;
    [done|]. simpl. destruct (Dict.mem (p * e) powers); [apply IH|].
  apply le_res_bind.
  - unfold power_of. apply le_res_bind; [by apply mod_power_mono|done].
  - intros [v s1]. apply le_res_bind; [apply IH|done].
Qed.

Lemma order_search_mono (fuel fuel' : nat) (x : Z) (primes : list Z) :
  ∀ (powers : Dict.dict) (s : ring),
  (fuel ≤ fuel')%nat →
  le_res (order_search fuel x primes powers s)
         (order_search fuel' x primes powers s).
Proof.
  induction primes as [|p primes IH]; intros powers s Hle; [done|].
  cbn [order_search]. apply le_res_bind; [by apply new_powers_items_mono|].
  intros [items s1]. destruct (py_min _); [done|by apply IH].
Qed.

Section Bodies.
Variable C : collaborators.

Lemma generator_scan_mono (oo oo' : Z → M (option Z)) (group : list Z) :
  (∀ x s, le_res (oo x s) (oo' x s)) →
  ∀ s, le_res (generator_scan C oo group s) (generator_scan C oo' group s).
Proof.
  intros Hoo. induction group as [|x group IH]; intros s; [done|].
  cbn [generator_scan]. apply le_res_bind; [apply Hoo|].
  intros [o s1]. apply le_res_bind; [done|].
  intros [e s2]. by case_bool_decide.
Qed.

Lemma generator_body_mono (oo oo' : Z → M (option Z)) (s : ring) :
  (∀ x s, le_res (oo x s) (oo' x s)) →
  le_res (generator_body C oo s) (generator_body C oo' s).
Proof.
  intros Hoo. unfold generator_body. destruct (_generator s); [done|].
  apply le_res_bind; [done|]. intros [[] s1]; [|done].
  apply le_res_bind; [done|]. intros [group s2].
  apply le_res_bind; [by apply generator_scan_mono|done].
Qed.

Lemma as_cyclic_group_body_mono (gen gen' : M (option Z))
    (fuel fuel' : nat) (s : ring) :
  (∀ s, le_res (gen s) (gen' s)) → (fuel ≤ fuel')%nat →
  le_res (as_cyclic_group_body C gen fuel s)
         (as_cyclic_group_body C gen' fuel' s).
Proof.
  intros Hgen Hle. unfold as_cyclic_group_body.
  destruct (_as_cyclic_group s); [done|].
  apply le_res_bind; [done|]. intros [[] s1]; [|done].
  apply le_res_bind; [apply Hgen|]. intros [[g|] s2]; [|done].
  apply le_res_bind; [|done]. intros v. by apply cyclic_subgroup_from_mono.
Qed.

Lemma discrete_log_body_mono (acg acg' : M (option Dict.dict)) (s : ring) :
  (∀ s, le_res (acg s) (acg' s)) →
  le_res (discrete_log_body C acg s) (discrete_log_body C acg' s).
Proof.
  intros Hacg. unfold discrete_log_body.
  destruct (_discrete_log s); [done|].
  apply le_res_bind; [done|]. intros [[] s1]; [|done].
  apply le_res_bind; [apply Hacg|done].
Qed.

Lemma order_of_body_mono (dl dl' : M (option (gmap Z Z)))
    (fuel fuel' : nat) (x : Z) (s : ring) :
  (∀ s, le_res (dl s) (dl' s)) → (fuel ≤ fuel')%nat →
  le_res (order_of_body C dl fuel x s) (order_of_body C dl' fuel' x s).
Proof.
  intros Hdl Hle. unfold order_of_body.
  destruct (orders s !! x); [done|]. destruct (_generator s).
  - apply le_res_bind; [done|]. intros [e s1].
    apply le_res_bind; [apply Hdl|]. intros [[d|] s2]; [|done].
    destruct (d !! x); [|done].
    apply le_res_bind; [done|]. intros [e' s3].
    apply le_res_bind; [by apply gcd_mono|done].
  - apply le_res_bind; [done|]. intros [e s1].
    apply le_res_bind; [done|]. intros [primes s2].
    by apply order_search_mono.
Qed.

Lemma order_of_mono (fuel : nat) : ∀ (fuel' : nat) (x : Z) (s : ring),
  (fuel ≤ fuel')%nat → le_res (order_of C fuel x s) (order_of C fuel' x s).
Proof.
  induction fuel as [|fuel IH]; intros [|fuel'] x s Hle; try lia;
    cbn [order_of]; (apply order_of_body_mono; [|done]); intros s0;
    try done.
  apply discrete_log_body_mono. intros s1.
  apply as_cyclic_group_body_mono; [|lia]. intros s2.
  apply generator_body_mono. intros y s3. apply IH. lia.
Qed.

Lemma generator_mono (fuel fuel' : nat) (s : ring) :
  (fuel ≤ fuel')%nat → le_res (generator C fuel s) (generator C fuel' s).
Proof.
  intros Hle. apply generator_body_mono. intros x s0. by apply order_of_mono.
Qed.

Lemma as_cyclic_group_mono (fuel fuel' : nat) (s : ring) :
  (fuel ≤ fuel')%nat →
  le_res (as_cyclic_group C fuel s) (as_cyclic_group C fuel' s).
Proof.
  intros Hle. apply as_cyclic_group_body_mono; [|done].
  intros s0. by apply generator_mono.
Qed.

Lemma discrete_log_mono (fuel fuel' : nat) (s : ring) :
  (fuel ≤ fuel')%nat →
  le_res (discrete_log C fuel s) (discrete_log C fuel' s).
Proof.
  intros Hle. apply discrete_log_body_mono.
  intros s0. by apply as_cyclic_group_mono.
Qed.

End Bodies.

End Monotone.

(** ** The ModularRing structure engine *)

Section RingFacts.
Import ModularRing.
Variable C : collaborators.
Variable m : Z.
Hypothesis Hm : 2 ≤ m.

Abbreviation phi := (euler_phi C (factor C m)).
Abbreviation lam := (carmichael_lambda C (factor C m)).
Abbreviation inv := (ring_inv C m).
Hypothesis HC : meets_contracts C m.

Lemma fills_refl (s : ring) : fills s s.
Proof. by repeat split. Qed.

Lemma fills_trans (s1 s2 s3 : ring) : fills s1 s2 → fills s2 s3 → fills s1 s3.
Proof.
  intros (? & ? & ? & ? & ?) (? & ? & ? & ? & ?).
  repeat split; congruence.
Qed.

(** Assignments that keep the invariant. *)
Lemma inv_set_factorization (s : ring) :
  inv s → inv (set_factorization (Some (factor C m)) s).
Proof. intros []. split; simpl; try done. by intros ? [= <-]. Qed.

Lemma inv_set_euler (s : ring) : inv s → inv (set_euler (Some phi) s).
Proof. intros []. split; simpl; try done. by intros ? [= <-]. Qed.

Lemma inv_set_carmichael (s : ring) :
  inv s → inv (set_carmichael (Some lam) s).
Proof. intros []. split; simpl; try done. by intros ? [= <-]. Qed.

Lemma inv_set_carmichael_factorization (s : ring) :
  inv s → inv (set_carmichael_factorization (Some (factor C lam)) s).
Proof. intros []. split; simpl; try done. by intros ? [= <-]. Qed.

Lemma inv_set_multiplicative_group (s : ring) (g : list Z) :
  inv s → (∀ x, x ∈ g ↔ x ∈ units m) →
  inv (set_multiplicative_group (Some g) s).
Proof. intros [] Hg. split; simpl; try done. by intros ? [= <-]. Qed.

Lemma inv_set_orders (s : ring) (x o : Z) :
  inv s → x ≠ 1 → (x ∈ units m → is_order m x o) →
  inv (set_orders (<[ x := o ]> (orders s)) s).
Proof.
  intros [] Hx Ho. split; simpl; try done.
  - by rewrite lookup_insert_ne.
  - intros y o'. destruct (decide (x = y)) as [->|Hne].
    + rewrite lookup_insert_eq. by intros [= <-].
    + rewrite lookup_insert_ne by done. auto.
Qed.

Lemma inv_set_generator (s : ring) (g : Z) :
  inv s → _generator s = None →
  phi = lam → g ∈ units m → is_order m g phi →
  inv (set_generator (Some g) s).
Proof.
  intros [] Hnone ? ? ?. split; simpl; try done.
  - by intros ? [= <-].
  - intros c Hc. destruct (inv_cyclic0 c Hc) as (g' & Hg' & _). congruence.
Qed.

Lemma inv_set_as_cyclic_group (s : ring) (g : Z) :
  inv s → _generator s = Some g → _discrete_log s = None →
  inv (set_as_cyclic_group (Some (powers_table m g phi)) s).
Proof.
  intros [] Hg Hd. split; simpl; try done.
  - intros ? [= <-]. by exists g.
  - intros d Hd'. congruence.
Qed.

Lemma inv_set_discrete_log (s : ring) (c : Dict.dict) :
  inv s → _as_cyclic_group s = Some c →
  inv (set_discrete_log (Some (invert_items c)) s).
Proof.
  intros [] Hc. split; simpl; try done. intros ? [= <-]. by exists c.
Qed.

(** *** The cached accessors *)

Lemma factorization_run (s : ring) :
  inv s → ∃ s', factorization C s = Ok (factor C m, s')
                ∧ inv s' ∧ fills s s'.
Proof.
  intros Hinv. unfold factorization.
  destruct (_factorization s) as [f|] eqn:Hf.
  - rewrite (inv_factorization _ _ _ Hinv f Hf).
    exists s. by split; [|split; [|apply fills_refl]].
  - rewrite (inv_modulus _ _ _ Hinv). eexists. split; [done|].
    split; [by apply inv_set_factorization|by repeat split].
Qed.

Lemma euler_run (s : ring) :
  inv s → ∃ s', euler C s = Ok (phi, s') ∧ inv s' ∧ fills s s'.
Proof.
  intros Hinv. unfold euler.
  destruct (_euler s) as [e|] eqn:He.
  - rewrite (inv_euler _ _ _ Hinv e He).
    exists s. by split; [|split; [|apply fills_refl]].
  - destruct (factorization_run s Hinv) as (s1 & -> & Hinv1 & Hfl1). simpl.
    eexists. split; [done|]. split; [by apply inv_set_euler|].
    apply fills_trans with s1; [done|by repeat split].
Qed.

Lemma carmichael_run (s : ring) :
  inv s → ∃ s', carmichael C s = Ok (lam, s')
                ∧ inv s' ∧ fills s s'.
Proof.
  intros Hinv. unfold carmichael.
  destruct (_carmichael s) as [c|] eqn:Hc.
  - rewrite (inv_carmichael _ _ _ Hinv c Hc).
    exists s. by split; [|split; [|apply fills_refl]].
  - destruct (factorization_run s Hinv) as (s1 & -> & Hinv1 & Hfl1). simpl.
    eexists. split; [done|]. split; [by apply inv_set_carmichael|].
    apply fills_trans with s1; [done|by repeat split].
Qed.

Lemma carmichael_factorization_run (s : ring) :
  inv s →
  ∃ s', carmichael_factorization C s
        = Ok (factor C lam, s') ∧ inv s' ∧ fills s s'.
Proof.
  intros Hinv. unfold carmichael_factorization.
  destruct (_carmichael_factorization s) as [f|] eqn:Hf.
  - rewrite (inv_carmichael_factorization _ _ _ Hinv f Hf).
    exists s. by split; [|split; [|apply fills_refl]].
  - destruct (carmichael_run s Hinv) as (s1 & -> & Hinv1 & Hfl1). simpl.
    eexists. split; [done|].
    split; [by apply inv_set_carmichael_factorization|].
    apply fills_trans with s1; [done|by repeat split].
Qed.

Lemma carmichael_primes_run (s : ring) :
  inv s →
  ∃ s', carmichael_primes C s
        = Ok (Counter_elements (factor C lam), s') ∧ inv s' ∧ fills s s'.
Proof.
  intros Hinv. unfold carmichael_primes.
  destruct (carmichael_factorization_run s Hinv) as (s1 & -> & Hinv1 & Hfl1).
  simpl. by exists s1.
Qed.

Lemma is_cyclic_run (s : ring) :
  inv s →
  ∃ s', is_cyclic C s
        = Ok (phi =? lam, s') ∧ inv s' ∧ fills s s'.
Proof.
  intros Hinv. unfold is_cyclic.
  destruct (euler_run s Hinv) as (s1 & -> & Hinv1 & Hfl1). simpl.
  destruct (carmichael_run s1 Hinv1) as (s2 & -> & Hinv2 & Hfl2). simpl.
  exists s2. split; [done|]. split; [done|]. by apply fills_trans with s1.
Qed.

Lemma prime_to_contract : prime_to C (factor C m) = units m.
Proof. apply HC. Qed.

Lemma multiplicative_group_run (s : ring) :
  inv s →
  ∃ g s', multiplicative_group C s = Ok (g, s')
          ∧ (∀ x, x ∈ g ↔ x ∈ units m) ∧ inv s' ∧ fills s s'.
Proof.
  intros Hinv. unfold multiplicative_group.
  destruct (_multiplicative_group s) as [g|] eqn:Hg.
  - exists g, s. split; [done|].
    split; [by apply (inv_group _ _ _ Hinv)|].
    by split; [|apply fills_refl].
  - destruct (factorization_run s Hinv) as (s1 & -> & Hinv1 & Hfl1). simpl.
    eexists _, _. split; [done|]. rewrite prime_to_contract.
    split; [done|]. split; [by apply inv_set_multiplicative_group|].
    apply fills_trans with s1; [done|by repeat split].
Qed.

(** *** order_of: the search through the divisors of [carmichael()] *)

Lemma new_powers_items_step (fuel : nat) (p : Z) (powers : Dict.dict)
    (items : list (Z * Z)) (s : ring) :
  modulus s = m → 0 ≤ p ≤ Z.of_nat fuel →
  new_powers_items fuel p powers items s
  = Ok ((fun ex => (p * ex.1, ex.2 ^ p mod m))
          <$> filter (fun ex => p * ex.1 ∉ powers.*1) items, s).
Proof.
  intros Hs Hp. induction items as [|[e x] items IH]; simpl; [done|].
  destruct (Dict.mem (p * e) powers) eqn:Hmem.
  - rewrite filter_cons_False; [done|]. simpl. intros Hnin.
    apply dict_mem_false in Hnin. congruence.
  - apply dict_mem_false in Hmem. rewrite filter_cons_True by done.
    unfold power_of at 1. rewrite Hs, mod_power_spec by lia. simpl.
    by rewrite IH.
Qed.

Lemma new_powers_items_run (fuel : nat) (p : Z) (powers : Dict.dict)
    (s : ring) :
  modulus s = m → 0 ≤ p ≤ Z.of_nat fuel →
  new_powers_items fuel p powers powers s = Ok (new_items m p powers, s).
Proof. apply new_powers_items_step. Qed.

Lemma new_items_elem (p : Z) (powers : Dict.dict) (o v : Z) :
  (o, v) ∈ new_items m p powers
  ↔ (∃ e v0, (e, v0) ∈ powers ∧ (p * e ∉ powers.*1)
             ∧ o = p * e ∧ v = v0 ^ p mod m).
Proof.
  unfold new_items. rewrite list_elem_of_fmap. split.
  - intros ([e v0] & Heq & [Hfresh Hin]%list_elem_of_filter).
    injection Heq as -> ->. by exists e, v0.
  - intros (e & v0 & Hin & Hfresh & -> & ->). exists (e, v0).
    split; [done|]. by apply list_elem_of_filter.
Qed.

Lemma new_items_keys (p : Z) (powers : Dict.dict) (o : Z) :
  o ∈ (new_items m p powers).*1
  ↔ (∃ e, e ∈ powers.*1 ∧ o = p * e ∧ o ∉ powers.*1).
Proof.
  rewrite list_elem_of_fmap. split.
  - intros ([o' v] & -> & Hin). apply new_items_elem in Hin
      as (e & v0 & Hin & Hfresh & -> & ->).
    exists e. split; [|done]. apply list_elem_of_fmap. by exists (e, v0).
  - intros (e & He & -> & Hfresh).
    apply list_elem_of_fmap in He as ([e' v0] & -> & Hin).
    exists (p * e', v0 ^ p mod m). split; [done|].
    apply new_items_elem. by exists e', v0.
Qed.

Lemma new_items_nodup (p : Z) (powers : Dict.dict) :
  p ≠ 0 → NoDup powers.*1 → NoDup (new_items m p powers).*1.
Proof.
  intros Hp Hnd.
  assert ((new_items m p powers).*1
          = Z.mul p <$> (filter (fun ex => p * ex.1 ∉ powers.*1) powers).*1)
    as ->.
  { unfold new_items. by rewrite <- !list_fmap_compose. }
  apply NoDup_fmap_2_strong.
  - intros a b _ _ Hab. nia.
  - apply sublist_NoDup with powers.*1; [done|].
    apply fmap_sublist, sublist_filter.
Qed.

Lemma order_search_run (x k : Z) (fuel : nat) (rest : list Z) :
  ∀ (powers : Dict.dict) (P : Z) (s : ring),
  modulus s = m → is_order m x k →
  Forall Z.prime rest → Forall (fun p => p ≤ Z.of_nat fuel) rest →
  0 < P → x ^ (P * product rest) mod m = 1 →
  divisor_table m x P powers →
  order_search fuel x rest powers s
  = Ok (Some k, set_orders (<[ x := k ]> (orders s)) s).
Proof.
  induction rest as [|p rest IH];
    intros powers P s Hs Hord Hpr Hfuel HP Hlam (Hnd & Hval & Hkeys).
  - exfalso. unfold product in Hlam. simpl in Hlam.
    rewrite Z.mul_1_r in Hlam.
    assert (P ∈ powers.*1) as Hin by (apply Hkeys; split; [lia|reflexivity]).
    apply list_elem_of_fmap in Hin as ([e v] & -> & Hin). simpl in Hlam.
    destruct (Hval _ _ Hin) as [-> Hne]. done.
  - apply Forall_cons in Hpr as [Hp Hpr].
    apply Forall_cons in Hfuel as [Hpfuel Hfuel].
    pose proof (Z.prime_ge_2 p Hp) as Hp2.
    cbn [order_search]. rewrite new_powers_items_run by (done || lia).
    simpl.
    pose proof (new_items_nodup p powers ltac:(lia) Hnd) as Hnd'.
    rewrite (dict_of_items_nodup (new_items m p powers)) by done.
    assert (∀ o v, (o, v) ∈ new_items m p powers → v = x ^ o mod m) as Hval'.
    { intros o v (e & v0 & Hin & _ & -> & ->)%new_items_elem.
      destruct (Hval _ _ Hin) as [-> _].
      assert (0 < e) by (apply Hkeys, list_elem_of_fmap; by exists (e, x ^ e mod m)).
      rewrite pow_mod_idemp, <- Z.pow_mul_r by lia.
      by rewrite (Z.mul_comm e p). }
    assert (∀ d, d ∈ (powers ++ new_items m p powers).*1
                 ↔ 0 < d ∧ (d | P * p)) as Hkeys'.
    { intros d. rewrite fmap_app, elem_of_app, new_items_keys. split.
      - intros [Hd|(e & He & -> & _)].
        + apply Hkeys in Hd as [? ?]. split; [done|].
          by apply Z.divide_mul_l.
        + apply Hkeys in He as [? ?]. split; [nia|].
          rewrite (Z.mul_comm P p). by apply Z.mul_divide_mono_l.
      - intros [Hd Hdiv]. rewrite (Z.mul_comm P p) in Hdiv.
        destruct (decide (d ∈ powers.*1)) as [|Hfresh]; [by left|right].
        destruct (divide_prime_mul p P d Hp Hdiv) as [HdP|(e & -> & HeP)].
        { destruct Hfresh. by apply Hkeys. }
        exists e. split; [|done]. apply Hkeys. split; [nia|done]. }
    destruct (py_min _) as [o|] eqn:Hmin.
    + apply py_min_Some in Hmin as [Hin Hle].
      apply list_elem_of_fmap in Hin as ([o' v] & -> & Hin).
      apply list_elem_of_filter in Hin as [Hv Hin]. simpl in Hv, Hle |- *.
      subst v. pose proof (Hval' _ _ Hin) as Ho1. symmetry in Ho1.
      assert (o' ∈ (powers ++ new_items m p powers).*1) as Ho'.
      { rewrite fmap_app, elem_of_app. right.
        apply list_elem_of_fmap. by exists (o', 1). }
      apply Hkeys' in Ho' as [Hopos Hodiv].
      pose proof (order_divides m Hm x k o' Hord ltac:(lia) Ho1) as Hko.
      pose proof Hord as (Hkpos & Hk1 & _).
      assert (k ∈ (powers ++ new_items m p powers).*1) as Hk.
      { apply Hkeys'. split; [done|]. by etransitivity. }
      rewrite fmap_app, elem_of_app in Hk. destruct Hk as [Hk|Hk].
      { apply list_elem_of_fmap in Hk as ([k' v] & -> & Hk).
        destruct (Hval _ _ Hk) as [-> Hne]. done. }
      apply list_elem_of_fmap in Hk as ([k' v] & -> & Hk).
      pose proof (Hval' _ _ Hk) as Hv. simpl in *. rewrite Hk1 in Hv. subst v.
      assert (o' ≤ k') as Hle'.
      { apply Hle. apply list_elem_of_fmap. exists (k', 1). split; [done|].
        by apply list_elem_of_filter. }
      apply Z.divide_pos_le in Hko; [|done].
      by replace o' with k' by lia.
    + apply py_min_None in Hmin. apply fmap_nil_inv in Hmin.
      assert (NoDup (powers ++ new_items m p powers).*1) as Hnd''.
      { rewrite fmap_app. apply NoDup_app. split; [done|]. split; [|done].
        intros d Hd (e & _ & _ & Hfresh)%new_items_keys. done. }
      rewrite (dict_of_items_nodup (powers ++ _)) by done.
      apply (IH _ (P * p)); try done; [nia| |].
      * unfold product in *. simpl in Hlam.
        by rewrite <- Z.mul_assoc.
      * split; [done|]. split; [|done].
        intros e v [Hin|Hin]%elem_of_app; [by apply Hval|].
        split; [by apply Hval'|]. intros ->.
        by apply (filter_nil_not_elem_of _ _ (e, 1) Hmin).
Qed.

Lemma fills_keeps_tables (s s' : ring) : fills s s' → keeps_tables s s'.
Proof. intros (? & ? & ? & ? & ?). by repeat split. Qed.

Lemma keeps_tables_trans (s1 s2 s3 : ring) :
  keeps_tables s1 s2 → keeps_tables s2 s3 → keeps_tables s1 s3.
Proof. intros (? & ? & ?) (? & ? & ?). repeat split; congruence. Qed.

Lemma factor_contract : is_factorization (factor C lam) lam.
Proof. apply HC. Qed.

Lemma carmichael_contract (x : Z) : x ∈ units m → x ^ lam mod m = 1.
Proof. revert x. apply Forall_forall. apply HC. Qed.

Lemma euler_contract : phi = Z.of_nat (length (units m)).
Proof. apply HC. Qed.

Lemma lam_pos : 0 < lam.
Proof.
  rewrite <- (Counter_elements_product _ _ factor_contract).
  apply product_primes_pos, (Counter_elements_prime _ _ factor_contract).
Qed.

Lemma order_of_unfold (fuel : nat) (x : Z) :
  order_of C fuel x
  = order_of_body C
      (match fuel with
       | O => fun _ => OutOfFuel
       | S fuel' => discrete_log C fuel'
       end) fuel x.
Proof. by destruct fuel. Qed.

(** An element with an entry in [orders] gets it back. *)
Lemma order_of_cached (fuel : nat) (x o : Z) (s : ring) :
  orders s !! x = Some o →
  order_of C fuel x s = Ok (Some o, s).
Proof.
  intros Ho. rewrite order_of_unfold. unfold order_of_body. by rewrite Ho.
Qed.

(** Without a generator, a unit without an entry has its order searched
    for and found. *)
Lemma order_of_searched (fuel : nat) (x : Z) (s : ring) :
  inv s → x ∈ units m → orders s !! x = None → _generator s = None →
  lam ≤ Z.of_nat fuel →
  ∃ k s', order_of C fuel x s
          = Ok (Some k, s')
          ∧ is_order m x k ∧ inv s' ∧ keeps_tables s s'
          ∧ _generator s' = None.
Proof.
  intros Hinv Hx Hnone Hgen Hfuel.
  pose proof Hx as [Hrange Hgcd]%units_elem.
  destruct (order_exists m Hm x Hgcd) as [k Hord].
  assert (x ≠ 1) as Hx1.
  { intros ->. rewrite (inv_one _ _ _ Hinv) in Hnone. done. }
  rewrite order_of_unfold. unfold order_of_body. rewrite Hnone, Hgen.
  unfold elem, py_mod. rewrite (inv_modulus _ _ _ Hinv).
  rewrite (proj2 (Z.eqb_neq m 0)) by lia. simpl.
  rewrite Z.mod_small by lia.
  destruct (carmichael_primes_run s Hinv) as (s1 & -> & Hinv1 & Hfl1). simpl.
  pose proof (Counter_elements_prime _ _ factor_contract) as Hprimes.
  pose proof (Counter_elements_product _ _ factor_contract) as Hprod.
  rewrite (order_search_run x k fuel _ _ 1 s1); try done.
  - exists k, (set_orders (<[x:=k]> (orders s1)) s1).
    split; [done|]. split; [done|]. destruct Hfl1 as (? & ? & ? & ? & ?).
    split; [by apply inv_set_orders|]. split; [by repeat split|].
    simpl. congruence.
  - by apply (inv_modulus _ _ _ Hinv1).
  - apply Forall_forall. intros p Hp.
    pose proof (prime_le_product _ p Hprimes Hp). lia.
  - rewrite Z.mul_1_l, Hprod.
    by apply carmichael_contract.
  - split; [apply NoDup_singleton|]. split.
    + intros e v [= -> ->]%list_elem_of_singleton.
      rewrite Z.pow_1_r, Z.mod_small by lia. done.
    + intros d. simpl. rewrite list_elem_of_singleton. split.
      * intros ->. split; [lia|reflexivity].
      * intros [Hd Hdiv]. apply Z.divide_1_r_nonneg in Hdiv; lia.
Qed.

Lemma order_of_no_generator (fuel : nat) (x : Z) (s : ring) :
  inv s → x ∈ units m → _generator s = None → lam ≤ Z.of_nat fuel →
  ∃ k s', order_of C fuel x s
          = Ok (Some k, s')
          ∧ is_order m x k ∧ inv s' ∧ keeps_tables s s'
          ∧ _generator s' = None.
Proof.
  intros Hinv Hx Hgen Hfuel. destruct (orders s !! x) as [o|] eqn:Ho.
  - exists o, s. split; [by apply order_of_cached|].
    split; [by apply (inv_orders _ _ _ Hinv)|].
    split; [done|]. by split; [repeat split|].
  - by apply order_of_searched.
Qed.

(** *** generator *)

Lemma generator_scan_run (fuel : nat) (group : list Z) : ∀ s : ring,
  inv s → _generator s = None → phi = lam →
  (∀ x, x ∈ group → x ∈ units m) → lam ≤ Z.of_nat fuel →
  ∃ s', generator_scan C (order_of C fuel) group s = Ok (tt, s')
        ∧ inv s' ∧ keeps_tables s s'
        ∧ (Exists (fun x => is_order m x phi) group
           → is_Some (_generator s')).
Proof.
  induction group as [|x group IH]; intros s Hinv Hgen Hcyc Hgroup Hfuel.
  - exists s. split; [done|]. split; [done|]. split; [by repeat split|].
    intros H. by apply Exists_nil in H.
  - cbn [generator_scan].
    destruct (order_of_no_generator fuel x s)
      as (k & s1 & -> & Hord & Hinv1 & Hkt1 & Hgen1);
      [done|apply Hgroup; by left|done|done|].
    simpl. destruct (euler_run s1 Hinv1) as (s2 & -> & Hinv2 & Hfl2). simpl.
    pose proof Hfl2 as (Hm2 & Ho2 & Hg2 & Hc2 & Hd2).
    pose proof (fills_keeps_tables _ _ Hfl2) as Hkt2.
    pose proof (keeps_tables_trans _ _ _ Hkt1 Hkt2) as Hkt12.
    case_bool_decide as Hk.
    + injection Hk as ->. exists (set_generator (Some x) s2).
      split; [done|]. split.
      { apply inv_set_generator; try done; [congruence|].
        apply Hgroup. by left. }
      split; [|by eexists].
      destruct Hkt12 as (? & ? & ?). by repeat split.
    + destruct (IH s2) as (s3 & -> & Hinv3 & Hkt3 & Hfound);
        [done|congruence|done| |done|].
      { intros y Hy. apply Hgroup. by right. }
      exists s3. split; [done|]. split; [done|].
      split; [by apply keeps_tables_trans with s2|].
      intros [Hx|Hrest]%Exists_cons; [|by apply Hfound].
      destruct Hk. f_equal. by apply (order_unique m x).
Qed.

Lemma generator_run (fuel : nat) (s : ring) :
  inv s → lam ≤ Z.of_nat fuel →
  ∃ s', generator C fuel s = Ok (_generator s', s')
        ∧ inv s' ∧ keeps_tables s s'
        ∧ (phi = lam → is_Some (_generator s')).
Proof.
  intros Hinv Hfuel. unfold generator, generator_body.
  destruct (_generator s) as [g|] eqn:Hg.
  - exists s. rewrite Hg. split; [done|]. split; [done|].
    split; [by repeat split|]. by eexists.
  - destruct (is_cyclic_run s Hinv) as (s1 & -> & Hinv1 & Hfl1). simpl.
    pose proof Hfl1 as (Hm1 & Ho1 & Hg1 & Hc1 & Hd1).
    destruct (Z.eqb_spec phi lam) as [Hcyc|Hncyc].
    + destruct (multiplicative_group_run s1 Hinv1)
        as (group & s2 & -> & Hgroup & Hinv2 & Hfl2). simpl.
      pose proof Hfl2 as (Hm2 & Ho2 & Hg2 & Hc2 & Hd2).
      destruct (generator_scan_run fuel group s2)
        as (s3 & -> & Hinv3 & Hkt3 & Hfound);
        [done|congruence|done|by intros x ?%Hgroup|done|].
      simpl. exists s3. split; [done|]. split; [done|]. split.
      { apply keeps_tables_trans with s2; [|done].
        apply fills_keeps_tables. by apply fills_trans with s1. }
      intros _. apply Hfound.
      pose proof (carmichael_attained _ _ HC) as Hmax.
      apply Exists_exists in Hmax as (x & Hx & Hord).
      apply Exists_exists. exists x. split; [by apply Hgroup|].
      by rewrite Hcyc.
    + exists s1. split; [done|]. split; [done|].
      split; [by apply fills_keeps_tables|]. done.
Qed.

(** *** as_cyclic_group and discrete_log *)

Lemma record_order_inv (x k : Z) (s : ring) :
  inv s → (x ∈ units m → is_order m x k) → inv (record_order x k s).
Proof.
  intros Hinv Hord. unfold record_order.
  destruct (orders s !! x) as [o|] eqn:Ho; [done|].
  apply inv_set_orders; [done| |done].
  intros ->. rewrite (inv_one _ _ _ Hinv) in Ho. done.
Qed.

(** The powers of a generator are the units. *)
Lemma generator_values (g x : Z) :
  is_order m g phi → x ∈ Dict.values (powers_table m g phi) ↔ x ∈ units m.
Proof.
  intros Hord. unfold Dict.values. rewrite powers_table_values.
  rewrite euler_contract in Hord |- *.
  rewrite (generator_covers m Hm g x Hord), list_elem_of_fmap.
  split.
  - intros (i & -> & Hi%elem_of_seqZ). exists i. split; [lia|done].
  - intros (i & Hi & ->). exists i. split; [done|]. apply elem_of_seqZ. lia.
Qed.

Lemma as_cyclic_group_run (fuel : nat) (s : ring) :
  inv s → phi = lam → lam ≤ Z.of_nat fuel → phi ≤ Z.of_nat fuel →
  ∃ g s', as_cyclic_group C fuel s = Ok (Some (powers_table m g phi), s')
          ∧ _generator s' = Some g
          ∧ _as_cyclic_group s' = Some (powers_table m g phi)
          ∧ inv s' ∧ modulus s' = modulus s
          ∧ _discrete_log s' = _discrete_log s.
Proof.
  intros Hinv Hcyc Hlam Hphi. unfold as_cyclic_group, as_cyclic_group_body.
  destruct (_as_cyclic_group s) as [c|] eqn:Hc.
  - destruct (inv_cyclic _ _ _ Hinv c Hc) as (g & Hg & ->).
    exists g, s. by rewrite Hc.
  - destruct (is_cyclic_run s Hinv) as (s1 & -> & Hinv1 & Hfl1). simpl.
    pose proof Hfl1 as (Hm1 & Ho1 & Hg1 & Hc1 & Hd1).
    rewrite (proj2 (Z.eqb_eq phi lam) Hcyc).
    destruct (generator_run fuel s1 Hinv1 Hlam)
      as (s2 & -> & Hinv2 & (Hm2 & Hc2 & Hd2) & Hsome). simpl.
    destruct (Hsome Hcyc) as [g Hg]. rewrite Hg.
    destruct (inv_generator _ _ _ Hinv2 g Hg) as (_ & Hunit & Hord).
    pose proof Hunit as [Hrange _]%units_elem.
    rewrite (cyclic_subgroup_from_run m Hm s2 g phi fuel);
      [|apply Hinv2|lia|done|done]. simpl.
    pose proof (record_order_inv g phi s2 Hinv2 (fun _ => Hord)) as Hinv3.
    set (s3 := record_order g phi s2) in *.
    assert (modulus s3 = modulus s2 ∧ _generator s3 = _generator s2
            ∧ _as_cyclic_group s3 = _as_cyclic_group s2
            ∧ _discrete_log s3 = _discrete_log s2
            ∧ _multiplicative_group s3 = _multiplicative_group s2)
      as (Hm3 & Hg3 & Hc3 & Hd3 & Hmg3).
    { unfold s3, record_order. by destruct (orders s2 !! g). }
    assert (_discrete_log s3 = None) as Hdnone.
    { destruct (_discrete_log s3) as [d|] eqn:Hd; [|done].
      destruct (inv_dlog _ _ _ Hinv3 d Hd) as (c & Hc' & _). congruence. }
    assert (inv (set_as_cyclic_group (Some (powers_table m g phi)) s3))
      as Hinv4 by (apply inv_set_as_cyclic_group; congruence).
    exists g. destruct (_multiplicative_group s3) as [mg|] eqn:Hmg;
      (eexists; split; [reflexivity|]); simpl.
    + split_and!; (done || congruence).
    + split_and!; try congruence.
      apply inv_set_multiplicative_group; [done|].
      intros x. rewrite merge_sort_Permutation. by apply generator_values.
Qed.

Lemma discrete_log_run (fuel : nat) (s : ring) :
  inv s → phi = lam → lam ≤ Z.of_nat fuel → phi ≤ Z.of_nat fuel →
  ∃ g s', discrete_log C fuel s
          = Ok (Some (invert_items (powers_table m g phi)), s')
          ∧ _generator s' = Some g
          ∧ _as_cyclic_group s' = Some (powers_table m g phi)
          ∧ _discrete_log s' = Some (invert_items (powers_table m g phi))
          ∧ inv s' ∧ modulus s' = modulus s.
Proof.
  intros Hinv Hcyc Hlam Hphi. unfold discrete_log, discrete_log_body.
  destruct (_discrete_log s) as [d|] eqn:Hd.
  - destruct (inv_dlog _ _ _ Hinv d Hd) as (c & Hc & ->).
    destruct (inv_cyclic _ _ _ Hinv c Hc) as (g & Hg & ->).
    exists g, s. by rewrite Hd.
  - destruct (is_cyclic_run s Hinv) as (s1 & -> & Hinv1 & Hfl1). simpl.
    pose proof Hfl1 as (Hm1 & Ho1 & Hg1 & Hc1 & Hd1).
    rewrite (proj2 (Z.eqb_eq phi lam) Hcyc).
    destruct (as_cyclic_group_run fuel s1 Hinv1 Hcyc Hlam Hphi)
      as (g & s2 & -> & Hg2 & Hc2 & Hinv2 & Hm2 & Hd2). simpl.
    exists g. eexists. split; [reflexivity|]. simpl.
    split_and!; try congruence. by apply inv_set_discrete_log.
Qed.

(** *** order_of with a generator at hand *)

Lemma phi_nonneg : 0 ≤ phi.
Proof. rewrite euler_contract. lia. Qed.

Lemma order_of_by_log (fuel : nat) (x : Z) (s : ring) :
  inv s → x ∈ units m → orders s !! x = None → is_Some (_generator s) →
  lam ≤ Z.of_nat fuel → phi ≤ Z.of_nat fuel →
  ∃ k s', order_of C (S fuel) x s = Ok (Some k, s')
          ∧ is_order m x k ∧ inv s'.
Proof.
  intros Hinv Hx Hnone [g0 Hg0] Hlam Hphi.
  destruct (inv_generator _ _ _ Hinv g0 Hg0) as (Hcyc & _ & _).
  assert (x ≠ 1) as Hx1.
  { intros ->. rewrite (inv_one _ _ _ Hinv) in Hnone. done. }
  rewrite order_of_unfold. unfold order_of_body. rewrite Hnone, Hg0.
  destruct (euler_run s Hinv) as (s1 & -> & Hinv1 & Hfl1). simpl.
  destruct (discrete_log_run fuel s1 Hinv1 Hcyc Hlam Hphi)
    as (g & s2 & -> & Hg2 & Hc2 & Hd2 & Hinv2 & Hm2). simpl.
  destruct (inv_generator _ _ _ Hinv2 g Hg2) as (_ & Hgunit & Hord).
  pose proof Hord as (Hphipos & _ & _).
  pose proof Hx as (i & Hi & Hxi)%(generator_covers m Hm g);
    [|by rewrite <- euler_contract].
  rewrite <- euler_contract in Hi.
  rewrite (invert_items_lookup (powers_table m g phi) i x).
  2:{ rewrite powers_table_values. by apply powers_nodup. }
  2:{ by apply powers_table_lookup. }
  destruct (euler_run s2 Hinv2) as (s3 & -> & Hinv3 & Hfl3). simpl.
  rewrite gcd_spec by lia. simpl.
  pose proof (gcd_pos i phi ltac:(lia)) as Hgpos.
  rewrite (proj2 (Z.eqb_neq _ 0)) by lia.
  eexists _, _. split; [reflexivity|]. split.
  - rewrite Hxi. apply order_of_power; [done|done|lia].
  - apply inv_set_orders; [done|done|]. intros _.
    rewrite Hxi. apply order_of_power; [done|done|lia].
Qed.

(** *** order_of on a unit, in any state of the ring *)

Lemma order_of_run (fuel : nat) (x : Z) (s : ring) :
  inv s → x ∈ units m → lam + phi < Z.of_nat fuel →
  ∃ k s', order_of C fuel x s = Ok (Some k, s')
          ∧ is_order m x k ∧ inv s'.
Proof.
  intros Hinv Hx Hfuel. pose proof lam_pos. pose proof phi_nonneg.
  destruct (orders s !! x) as [o|] eqn:Ho.
  { exists o, s. split; [by apply order_of_cached|].
    split; [by apply (inv_orders _ _ _ Hinv)|done]. }
  destruct (_generator s) as [g|] eqn:Hg.
  - destruct fuel as [|fuel]; [lia|].
    apply order_of_by_log; [done|done|done|by rewrite Hg|lia|lia].
  - destruct (order_of_searched fuel x s)
      as (k & s' & ? & ? & ? & _); [done|done|done|done|lia|].
    by exists k, s'.
Qed.

(** The order of a unit divides the Carmichael exponent. *)
Lemma order_divides_lam (x k : Z) : x ∈ units m → is_order m x k → (k | lam).
Proof.
  intros Hx Hord. pose proof lam_pos.
  apply (order_divides m Hm x); [done|lia|by apply carmichael_contract].
Qed.

(** A new ring is in a state of the invariant. *)
Lemma init_inv : inv (__init__ m).
Proof.
  split; simpl; try done.
  - destruct (Z.eqb_spec m 2) as [->|Hne].
    + by rewrite lookup_singleton_eq.
    + rewrite lookup_insert_ne by lia. by rewrite lookup_singleton_eq.
  - intros x o Ho Hx. assert (is_order m (m - 1) 2 ∨ m = 2) as Hm1.
    { destruct (decide (m = 2)) as [|Hne]; [by right|left].
      split; [lia|]. split.
      - replace ((m - 1) ^ 2) with (1 + (m - 2) * m) by lia.
        rewrite Z.mod_add by lia. apply Z.mod_small. lia.
      - intros j Hj. assert (j = 1) as -> by lia.
        rewrite Z.pow_1_r, Z.mod_small by lia. lia. }
    destruct (Z.eqb_spec m 2) as [->|Hne].
    + apply lookup_singleton_Some in Ho as [<- <-]. by apply order_one.
    + apply lookup_insert_Some in Ho as [[<- <-]|[_ Ho]].
      * by destruct Hm1.
      * apply lookup_singleton_Some in Ho as [<- <-]. by apply order_one.
Qed.

(** *** Every call keeps the invariant *)

Lemma new_powers_items_frame (fuel : nat) (p : Z) (powers : Dict.dict)
    (items : list (Z * Z)) : ∀ (s : ring) l s',
  new_powers_items fuel p powers items s = Ok (l, s') → s' = s.
Proof.
  induction items as [|[e x] items IH]; intros s l s'; simpl;
    [by intros [= _ <-]|].
  destruct (Dict.mem (p * e) powers); [apply IH|].
  unfold power_of at 1.
  destruct (Numth.mod_power _ _ _ _) as [v| |]; simpl; try done.
  destruct (new_powers_items fuel p powers items s) as [[tl s1]| |] eqn:Htl;
    simpl; try done.
  apply IH in Htl as ->. by intros [= _ <-].
Qed.

Lemma order_search_frame (fuel : nat) (x : Z) (primes : list Z) :
  ∀ (powers : Dict.dict) (s : ring) v s',
  order_search fuel x primes powers s = Ok (v, s') →
  s' = s ∨ ∃ o, s' = set_orders (<[ x := o ]> (orders s)) s.
Proof.
  induction primes as [|p primes IH]; intros powers s v s';
    cbn [order_search]; [intros [= _ <-]; by left|].
  destruct (new_powers_items fuel p powers powers s)
    as [[items s1]| |] eqn:Hitems; simpl; try done.
  apply new_powers_items_frame in Hitems as ->.
  destruct (py_min _) as [o|]; [|apply IH].
  intros [= _ <-]. right. by exists o.
Qed.

Lemma cyclic_subgroup_from_preserves (fuel : nat) (x : Z) (s : ring) v s' :
  inv s → cyclic_subgroup_from fuel x s = Ok (v, s') → inv s'.
Proof.
  intros Hinv Hrun. destruct (decide (x ∈ units m)) as [Hx|Hx].
  - pose proof Hx as [Hrange _]%units_elem.
    apply (cyclic_subgroup_from_result m Hm) in Hrun
      as (k & Hord & [= _ ->]); [|apply Hinv|lia].
    by apply record_order_inv.
  - apply cyclic_subgroup_from_frame in Hrun as [k ->].
    by apply record_order_inv.
Qed.

Lemma order_of_preserves (fuel : nat) (x : Z) (s : ring) v s' :
  inv s → order_of C fuel x s = Ok (v, s') →
  inv s' ∧ (_generator s = None → _generator s' = None)
  ∧ (x ∈ units m → ∃ k, v = Some k ∧ is_order m x k).
Proof.
  intros Hinv Hrun. pose proof lam_pos. pose proof phi_nonneg.
  set (big := (fuel `max` S (Z.to_nat (lam + phi)))%nat).
  destruct (decide (x ∈ units m)) as [Hx|Hx].
  - apply (order_of_mono C fuel big) in Hrun; [|lia].
    destruct (_generator s) as [g|] eqn:Hg.
    + destruct (order_of_run big x s Hinv Hx) as (k & s1 & Hrun' & ? & ?);
        [lia|].
      rewrite Hrun' in Hrun. injection Hrun as <- <-.
      split; [done|]. split; [done|]. by exists k.
    + destruct (order_of_no_generator big x s Hinv Hx Hg)
        as (k & s1 & Hrun' & ? & ? & _ & ?); [lia|].
      rewrite Hrun' in Hrun. injection Hrun as <- <-.
      split; [done|]. split; [done|]. by exists k.
  - split; [|split; [|done]]; revert Hrun;
      rewrite order_of_unfold; unfold order_of_body;
      (destruct (orders s !! x) as [o|] eqn:Ho; [by intros [= _ <-]|]);
      assert (x ≠ 1) as Hx1
        by (intros ->; rewrite (inv_one _ _ _ Hinv) in Ho; done).
    + destruct (_generator s) as [g0|] eqn:Hg0.
      * destruct (inv_generator _ _ _ Hinv g0 Hg0) as (Hcyc & _ & _).
        destruct (euler_run s Hinv) as (s1 & -> & Hinv1 & Hfl1). simpl.
        destruct fuel as [|fuel]; [done|].
        destruct (discrete_log C fuel s1) as [[d s2]| |] eqn:Hdl;
          simpl; try done.
        apply (discrete_log_mono C fuel big) in Hdl; [|lia].
        destruct (discrete_log_run big s1 Hinv1 Hcyc)
          as (g & s2' & Hdl' & Hg2 & _ & _ & Hinv2 & _); [lia..|].
        rewrite Hdl' in Hdl. injection Hdl as <- <-.
        destruct (inv_generator _ _ _ Hinv2 g Hg2) as (_ & _ & Hord).
        destruct (invert_items _ !! x) as [i|] eqn:Hlook; [|done].
        apply invert_items_lookup_inv, powers_table_lookup in Hlook
          as [Hi ->].
        destruct Hx. apply pow_unit; [done| |lia].
        by apply (order_coprime m Hm g phi).
      * unfold elem, py_mod. rewrite (inv_modulus _ _ _ Hinv).
        rewrite (proj2 (Z.eqb_neq m 0)) by lia. simpl.
        destruct (carmichael_primes_run s Hinv)
          as (s1 & -> & Hinv1 & Hfl1). simpl.
        intros [->|[o ->]]%order_search_frame; [done|].
        by apply inv_set_orders.
    + intros Hrun Hg0. revert Hrun. rewrite Hg0.
      unfold elem, py_mod. rewrite (inv_modulus _ _ _ Hinv).
      rewrite (proj2 (Z.eqb_neq m 0)) by lia. simpl.
      destruct (carmichael_primes_run s Hinv)
        as (s1 & -> & Hinv1 & (_ & _ & Hg1 & _)). simpl.
      intros [->|[o ->]]%order_search_frame; simpl; congruence.
Qed.

Lemma generator_preserves (fuel : nat) (s : ring) v s' :
  inv s → generator C fuel s = Ok (v, s') → inv s'.
Proof.
  intros Hinv Hrun. pose proof lam_pos.
  apply (generator_mono C fuel (fuel `max` Z.to_nat lam)) in Hrun; [|lia].
  destruct (generator_run (fuel `max` Z.to_nat lam) s Hinv)
    as (s1 & Hrun' & ? & _); [lia|].
  rewrite Hrun' in Hrun. by injection Hrun as _ <-.
Qed.

Lemma as_cyclic_group_preserves (fuel : nat) (s : ring) v s' :
  inv s → as_cyclic_group C fuel s = Ok (v, s') → inv s'.
Proof.
  intros Hinv Hrun. pose proof lam_pos. pose proof phi_nonneg.
  destruct (decide (phi = lam)) as [Hcyc|Hncyc].
  - set (big := (fuel `max` Z.to_nat (lam + phi))%nat).
    apply (as_cyclic_group_mono C fuel big) in Hrun; [|lia].
    destruct (as_cyclic_group_run big s Hinv Hcyc)
      as (g & s1 & Hrun' & _ & _ & ? & _); [lia..|].
    rewrite Hrun' in Hrun. by injection Hrun as _ <-.
  - revert Hrun. unfold as_cyclic_group, as_cyclic_group_body.
    destruct (_as_cyclic_group s); [by intros [= _ <-]|].
    destruct (is_cyclic_run s Hinv) as (s1 & -> & Hinv1 & _). simpl.
    rewrite (proj2 (Z.eqb_neq phi lam) Hncyc). by intros [= _ <-].
Qed.

Lemma discrete_log_preserves (fuel : nat) (s : ring) v s' :
  inv s → discrete_log C fuel s = Ok (v, s') → inv s'.
Proof.
  intros Hinv Hrun. pose proof lam_pos. pose proof phi_nonneg.
  destruct (decide (phi = lam)) as [Hcyc|Hncyc].
  - set (big := (fuel `max` Z.to_nat (lam + phi))%nat).
    apply (discrete_log_mono C fuel big) in Hrun; [|lia].
    destruct (discrete_log_run big s Hinv Hcyc)
      as (g & s1 & Hrun' & _ & _ & _ & ? & _); [lia..|].
    rewrite Hrun' in Hrun. by injection Hrun as _ <-.
  - revert Hrun. unfold discrete_log, discrete_log_body.
    destruct (_discrete_log s); [by intros [= _ <-]|].
    destruct (is_cyclic_run s Hinv) as (s1 & -> & Hinv1 & _). simpl.
    rewrite (proj2 (Z.eqb_neq phi lam) Hncyc). by intros [= _ <-].
Qed.

Lemma all_orders_loop_preserves (fuel : nat) (group : list Z) :
  ∀ (s : ring) v s',
  inv s → all_orders_loop C fuel group s = Ok (v, s') → inv s'.
Proof.
  induction group as [|x group IH]; intros s v s' Hinv; simpl;
    [by intros [= _ <-]|].
  destruct (order_of C fuel x s) as [[o s1]| |] eqn:Hrun; simpl; try done.
  apply order_of_preserves in Hrun as [Hinv1 _]; [|done]. by apply IH.
Qed.

Lemma all_orders_preserves (fuel : nat) (s : ring) v s' :
  inv s → all_orders C fuel s = Ok (v, s') → inv s'.
Proof.
  intros Hinv. unfold all_orders.
  destruct (euler_run s Hinv) as (s1 & -> & Hinv1 & _). simpl.
  case_bool_decide; [|by intros [= _ <-]].
  destruct (is_cyclic_run s1 Hinv1) as (s2 & -> & Hinv2 & _). simpl.
  assert (∃ r, (if phi =? lam then generator C fuel s2 else Ok (None, s2))
               = r ∧ ∀ g s3, r = Ok (g, s3) → inv s3) as (r & -> & Hr).
  { eexists. split; [done|]. intros g s3. destruct (phi =? lam).
    - by apply generator_preserves.
    - by intros [= _ <-]. }
  destruct r as [[g s3]| |]; simpl; try done.
  specialize (Hr g s3 eq_refl).
  destruct (multiplicative_group_run s3 Hr) as (group & s4 & -> & _ & Hinv4 & _).
  simpl.
  destruct (all_orders_loop C fuel group s4) as [[u s5]| |] eqn:Hloop;
    simpl; try done.
  apply all_orders_loop_preserves in Hloop; [|done]. by intros [= _ <-].
Qed.

Lemma perform_preserves (fuel : nat) (c : call) (s s' : ring) :
  inv s → perform C fuel c s = Ok s' → inv s'.
Proof.
  intros Hinv. destruct c; unfold perform, state_after.
  - destruct (factorization_run s Hinv) as (s1 & -> & ? & _).
    by intros [= <-].
  - destruct (euler_run s Hinv) as (s1 & -> & ? & _). by intros [= <-].
  - destruct (carmichael_run s Hinv) as (s1 & -> & ? & _). by intros [= <-].
  - destruct (carmichael_factorization_run s Hinv) as (s1 & -> & ? & _).
    by intros [= <-].
  - destruct (carmichael_primes_run s Hinv) as (s1 & -> & ? & _).
    by intros [= <-].
  - destruct (is_cyclic_run s Hinv) as (s1 & -> & ? & _). by intros [= <-].
  - destruct (multiplicative_group_run s Hinv) as (g & s1 & -> & _ & ? & _).
    by intros [= <-].
  - destruct (generator C fuel s) as [[v s1]| |] eqn:Hrun; simpl; try done.
    intros [= <-]. by apply generator_preserves in Hrun.
  - destruct (as_cyclic_group C fuel s) as [[v s1]| |] eqn:Hrun; simpl;
      try done.
    intros [= <-]. by apply as_cyclic_group_preserves in Hrun.
  - destruct (discrete_log C fuel s) as [[v s1]| |] eqn:Hrun; simpl;
      try done.
    intros [= <-]. by apply discrete_log_preserves in Hrun.
  - destruct (all_orders C fuel s) as [[v s1]| |] eqn:Hrun; simpl; try done.
    intros [= <-]. by apply all_orders_preserves in Hrun.
  - unfold elem. destruct (py_mod _ _); simpl; try done. by intros [= <-].
  - unfold add. destruct (add_reduce _ _ _); simpl; try done.
    by intros [= <-].
  - unfold mult. destruct (mult_reduce _ _ _); simpl; try done.
    by intros [= <-].
  - unfold power_of. destruct (Numth.mod_power _ _ _ _); simpl; try done.
    by intros [= <-].
  - unfold inverse_of. destruct (Numth.mod_inverse _ _ _); simpl; try done.
    by intros [= <-].
  - destruct (order_of C fuel element s) as [[v s1]| |] eqn:Hrun; simpl;
      try done.
    intros [= <-]. by apply order_of_preserves in Hrun as [? _].
  - destruct (cyclic_subgroup_from fuel element s) as [[v s1]| |] eqn:Hrun;
      simpl; try done.
    intros [= <-]. by apply cyclic_subgroup_from_preserves in Hrun.
Qed.

(** Every state of the ring is a state of the invariant. *)
Lemma reachable_inv (s : ring) : reachable C m s → inv s.
Proof.
  induction 1 as [|s s' fuel c _ IH Hcall]; [apply init_inv|].
  by apply (perform_preserves fuel c s).
Qed.

End RingFacts.

(** ** The reference collaborators at modulus 7 *)

Lemma prime_7 : Z.prime 7.
Proof.
  split; [lia|]. intros n Hn [k Hk].
  assert (n = 2 ∨ n = 3 ∨ n = 4 ∨ n = 5 ∨ n = 6) as Hcases by lia.
  destruct Hcases as [->|[->|[->|[->| ->]]]]; lia.
Qed.

Lemma is_order_7_3 : is_order 7 3 6.
Proof.
  split; [lia|]. split; [reflexivity|]. intros j Hj.
  assert (j = 1 ∨ j = 2 ∨ j = 3 ∨ j = 4 ∨ j = 5) as Hcases by lia.
  destruct Hcases as [->|[->|[->|[->| ->]]]]; vm_compute; discriminate.
Qed.

Lemma reference_contracts_7 : meets_contracts Reference.collaborators 7.
Proof.
  assert (Reference.factor 7 = [(7, 1)]) as Hf7 by (by vm_compute).
  assert (Reference.factor 6 = [(2, 1); (3, 1)]) as Hf6 by (by vm_compute).
  assert (Reference.carmichael_lambda [(7, 1)] = 6) as Hlam by reflexivity.
  assert (units 7 = [1; 2; 3; 4; 5; 6]) as Hunits by (by vm_compute).
  split; simpl; rewrite ?Hf7, ?Hlam, ?Hf6, ?Hunits.
  - split; [|split; [|reflexivity]].
    + apply Forall_singleton. split; [apply prime_7|simpl; lia].
    + apply NoDup_singleton.
  - split; [|split; [|reflexivity]].
    + apply Forall_cons. split; [split; [apply Z.prime_2|simpl; lia]|].
      apply Forall_singleton. split; [apply Z.prime_3|simpl; lia].
    + apply (bool_decide_unpack _). by vm_compute.
  - reflexivity.
  - by repeat constructor.
  - apply Exists_exists. exists 3. split; [|apply is_order_7_3].
    apply (bool_decide_unpack _). by vm_compute.
  - reflexivity.
Qed.

(** C8.  In a ring of modulus [m >= 2] whose collaborators meet their
    contracts, in every state of the ring, [order_of] stops on every unit
    [x] and returns an order that divides the value of [carmichael()]. *)
Theorem order_of_divides_carmichael
    (C : ModularRing.collaborators) (m : Z) (s : ModularRing.ring) (x : Z) :
  2 ≤ m → meets_contracts C m → ModularRing.reachable C m s →
  x ∈ units m →
  ∃ n : nat, ∀ fuel, (n ≤ fuel)%nat →
    ∃ o s1 c s2,
      ModularRing.order_of C fuel x s = Ok (Some o, s1)
      ∧ ModularRing.carmichael C s1 = Ok (c, s2)
      ∧ (o | c).
Proof.
  intros Hm HC Hinv%(reachable_inv C m Hm HC) Hx.
  set (lam := ModularRing.carmichael_lambda C (ModularRing.factor C m)).
  set (phi := ModularRing.euler_phi C (ModularRing.factor C m)).
  exists (S (Z.to_nat (lam + phi))). intros fuel Hfuel.
  destruct (order_of_run C m Hm HC fuel x s Hinv Hx)
    as (o & s1 & Hrun & Hord & Hinv1); [fold lam phi; lia|].
  destruct (carmichael_run C m s1 Hinv1) as (s2 & Hcar & _).
  exists o, s1, lam, s2. split; [done|]. split; [done|].
  by apply (order_divides_lam C m Hm HC x).
Qed.

Lemma order_of_divides_carmichael_witness :
  ∃ n : nat, ∀ fuel, (n ≤ fuel)%nat →
    ∃ o s1 c s2,
      ModularRing.order_of Reference.collaborators fuel 2
        (ModularRing.__init__ 7) = Ok (Some o, s1)
      ∧ ModularRing.carmichael Reference.collaborators s1 = Ok (c, s2)
      ∧ (o | c).
Proof.
  apply (order_of_divides_carmichael Reference.collaborators 7
           (ModularRing.__init__ 7) 2).
  - lia.
  - apply reference_contracts_7.
  - apply ModularRing.reachable_init.
  - apply (bool_decide_unpack _). by vm_compute.
Defined.

(** C9.  In a cyclic ring ([is_cyclic()] is true) of modulus [m >= 2]
    whose collaborators meet their contracts, in every state of the ring,
    [discrete_log()] and [as_cyclic_group()] return tables; the power
    indices of the cyclic realization are those of [0, euler()), and the
    discrete-log table sends the element at every power index [p] back to
    [p].  For the modulus 7 the indices are those of [0, 6). *)
Theorem discrete_log_inverts_cyclic_group
    (C : ModularRing.collaborators) (m : Z) (s : ModularRing.ring) :
  2 ≤ m → meets_contracts C m → ModularRing.reachable C m s →
  (∃ s0, ModularRing.is_cyclic C s = Ok (true, s0)) →
  ∃ n : nat, ∀ fuel, (n ≤ fuel)%nat →
    ∃ dl s1 acg s2,
      ModularRing.discrete_log C fuel s = Ok (Some dl, s1)
      ∧ ModularRing.as_cyclic_group C fuel s1 = Ok (Some acg, s2)
      ∧ (∀ p, is_Some (Dict.get p acg)
              ↔ 0 ≤ p < ModularRing.euler_phi C (ModularRing.factor C m))
      ∧ (∀ p v, Dict.get p acg = Some v → dl !! v = Some p).
Proof.
  intros Hm HC Hinv%(reachable_inv C m Hm HC) [s0 Hcyclic].
  set (lam := ModularRing.carmichael_lambda C (ModularRing.factor C m)).
  set (phi := ModularRing.euler_phi C (ModularRing.factor C m)).
  assert (phi = lam) as Hcyc.
  { destruct (is_cyclic_run C m s Hinv) as (s' & Hrun & _).
    rewrite Hrun in Hcyclic. injection Hcyclic as Heq _.
    by apply Z.eqb_eq. }
  exists (Z.to_nat (lam + phi)). intros fuel Hfuel.
  pose proof (lam_pos C m HC). pose proof (phi_nonneg C m HC).
  destruct (discrete_log_run C m Hm HC fuel s Hinv Hcyc)
    as (g & s1 & Hdl & Hg & Hacg & _ & Hinv1 & _); [fold lam phi; lia..|].
  exists (ModularRing.invert_items (powers_table m g phi)), s1,
    (powers_table m g phi), s1.
  split; [done|]. split.
  { unfold ModularRing.as_cyclic_group, ModularRing.as_cyclic_group_body.
    by rewrite Hacg. }
  destruct (inv_generator _ _ _ Hinv1 g Hg) as (_ & _ & Hord).
  split.
  - intros p. unfold is_Some. setoid_rewrite powers_table_get. split.
    + by intros (v & Hp & _).
    + intros Hp. by eexists.
  - intros p v [Hp ->]%powers_table_get. apply invert_items_lookup.
    + rewrite powers_table_values. by apply powers_nodup.
    + by apply powers_table_lookup.
Qed.

Lemma discrete_log_inverts_cyclic_group_witness :
  ∃ n : nat, ∀ fuel, (n ≤ fuel)%nat →
    ∃ dl s1 acg s2,
      ModularRing.discrete_log Reference.collaborators fuel
        (ModularRing.__init__ 7) = Ok (Some dl, s1)
      ∧ ModularRing.as_cyclic_group Reference.collaborators fuel s1
        = Ok (Some acg, s2)
      ∧ (∀ p, is_Some (Dict.get p acg) ↔ 0 ≤ p < 6)
      ∧ (∀ p v, Dict.get p acg = Some v → dl !! v = Some p).
Proof.
  apply (discrete_log_inverts_cyclic_group Reference.collaborators 7
           (ModularRing.__init__ 7)).
  - lia.
  - apply reference_contracts_7.
  - apply ModularRing.reachable_init.
  - eexists. by vm_compute.
Defined.

(** ** Sample runs of [ModularRing(7)] and [ModularRing(15)] *)

Section SampleRuns.
Import ModularRing.
Let R := Reference.collaborators.

Example ring_7_euler : value_of (euler R (__init__ 7)) = Ok 6.
Proof. vm_compute. reflexivity. Qed.

Example ring_7_carmichael : value_of (carmichael R (__init__ 7)) = Ok 6.
Proof. vm_compute. reflexivity. Qed.

Example ring_7_is_cyclic : value_of (is_cyclic R (__init__ 7)) = Ok true.
Proof. vm_compute. reflexivity. Qed.

Example ring_7_generator :
  value_of (generator R 10 (__init__ 7)) = Ok (Some 3).
Proof. vm_compute. reflexivity. Qed.

(** The orders of 1, ..., 6 modulo 7 once [all_orders] has run. *)
Example ring_7_all_orders :
  (d ← value_of (all_orders R 10 (__init__ 7));
   Ok ((fun x => d !! x) <$> [1; 2; 3; 4; 5; 6]))
  = Ok [Some 1; Some 3; Some 6; Some 3; Some 6; Some 2].
Proof. vm_compute. reflexivity. Qed.

(** [discrete_log()[as_cyclic_group()[p]]] for [p] = 0, ..., 5. *)
Example ring_7_round_trip :
  ('(dl, s1) ← discrete_log R 10 (__init__ 7);
   '(acg, s2) ← as_cyclic_group R 10 s1;
   Ok (acg,
       (fun p => v ← acg ≫= Dict.get p; dl ≫= (.!! v))
         <$> [0; 1; 2; 3; 4; 5]))
  = Ok (Some [(0, 1); (1, 3); (2, 2); (3, 6); (4, 4); (5, 5)],
        [Some 0; Some 1; Some 2; Some 3; Some 4; Some 5]).
Proof. vm_compute. reflexivity. Qed.

Example ring_15_not_cyclic :
  value_of (discrete_log R 10 (__init__ 15)) = Ok None.
Proof. vm_compute. reflexivity. Qed.

Example ring_15_order_of_2 :
  value_of (order_of R 10 2 (__init__ 15)) = Ok (Some 4).
Proof. vm_compute. reflexivity. Qed.

End SampleRuns.

(** Outside the data model, a ring built on the modulus 1: its only
    residue 0 is prime to 1, and the loop of [cyclic_subgroup_from] never
    sees a 1. *)
Remark cyclic_subgroup_from_modulus_1 (fuel : nat) :
  Z.gcd 0 1 = 1
  ∧ ModularRing.cyclic_subgroup_from fuel 0 (ModularRing.__init__ 1)
    = OutOfFuel.
Proof.
  split; [done|]. unfold ModularRing.cyclic_subgroup_from.
  assert (∀ sub j,
            ModularRing.cyclic_subgroup_loop fuel 0 sub 0 j
              (ModularRing.__init__ 1) = OutOfFuel) as ->; [|done].
  induction fuel as [|fuel IH]; intros sub j; [done|].
  cbn [ModularRing.cyclic_subgroup_loop]. simpl. apply IH.
Qed.

(** * Further properties of numth.py *)

Section NumthMore.
Import Numth.

(** A run that answers, answers what every run with enough fuel does. *)
Lemma gcd_partial (fuel : nat) (a b g : Z) :
  gcd fuel a b = Ok g → ¬ (a = 0 ∧ b = 0) ∧ g = Z.gcd a b.
Proof.
  intros Hrun. assert (¬ (a = 0 ∧ b = 0)) as Hab.
  { intros [-> ->]. done. }
  split; [done|].
  apply (gcd_mono fuel (fuel `max` Z.to_nat (Z.abs b))) in Hrun; [|lia].
  rewrite gcd_spec in Hrun by (done || lia). by injection Hrun.
Qed.

Lemma gcd_divisor_of_coprime (a b c : Z) :
  Z.gcd a b = 1 → (c | a) → Z.gcd c b = 1.
Proof.
  intros Hab Hc. pose proof (Z.gcd_nonneg c b).
  assert ((Z.gcd c b | 1)) as Hdiv.
  { rewrite <- Hab. apply Z.gcd_greatest.
    - etransitivity; [apply Z.gcd_divide_l|done].
    - apply Z.gcd_divide_r. }
  apply Z.divide_1_r_nonneg in Hdiv; done.
Qed.

(** The remainders of [gcd] halve at least: [fuel] divisions are enough
    below [2^fuel]. *)
Lemma gcd_loop_log (fuel : nat) : ∀ a_ b_ : Z,
  Z.abs b_ < 2 ^ Z.of_nat fuel → gcd_loop fuel a_ b_ = Ok (Z.gcd a_ b_).
Proof.
  induction fuel as [|fuel IH]; intros a_ b_ Hfuel.
  - assert (b_ = 0) as -> by (simpl in Hfuel; lia).
    simpl. by rewrite Z.gcd_0_r.
  - simpl. destruct (Z.eqb_spec b_ 0) as [->|Hb].
    { by rewrite Z.gcd_0_r. }
    destruct (div_small_eq a_ b_ Hb) as (q & r & -> & Heq & Hlo & Hhi).
    simpl. rewrite IH.
    + by rewrite (gcd_step a_ b_ q r Heq).
    + rewrite Nat2Z.inj_succ, Z.pow_succ_r in Hfuel by lia. lia.
Qed.

(** Inverses modulo [md] are unique among the residues. *)
Lemma inverse_unique (md x y y' : Z) :
  2 ≤ md → 0 ≤ y < md → 0 ≤ y' < md →
  (x * y) mod md = 1 → (x * y') mod md = 1 → y = y'.
Proof.
  intros Hmd Hy Hy' H1 H1'.
  assert (Z.gcd x md = 1) as Hg.
  { apply Z.coprime_Bezout. exists y, (- (x * y / md)).
    pose proof (Z.div_mod (x * y) md ltac:(lia)). lia. }
  assert (y mod md = y' mod md) as Heq.
  { apply (pow_cancel md Hmd x 1); [done|lia|].
    by rewrite Z.pow_1_r, H1, H1'. }
  by rewrite !Z.mod_small in Heq by lia.
Qed.

Lemma mod_power_negative (fuel : nat) (num exp md inv : Z) :
  2 ≤ md → exp < 0 → - exp < Z.of_nat fuel →
  mod_inverse fuel num md = Ok inv →
  mod_power fuel num exp md = Ok (inv ^ (- exp) mod md).
Proof.
  intros Hmd Hexp Hfuel Hinv. destruct fuel as [|fuel]; [lia|].
  cbn [mod_power]. rewrite (proj2 (Z.ltb_ge md 2)) by lia.
  rewrite (proj2 (Z.ltb_lt exp 0)) by lia. rewrite Hinv. simpl.
  apply mod_power_spec; lia.
Qed.

Lemma padic_loop_exp_le (base : Z) (fuel : nat) : ∀ exp rest e r,
  padic_loop fuel base exp rest = Ok (e, r) → exp ≤ e.
Proof.
  induction fuel as [|fuel IH]; intros exp rest e r; simpl;
    destruct (rest mod base =? 0); try done;
    try (intros [= <- _]; lia).
  intros Hrun%IH. lia.
Qed.

Lemma mod_power_negative_exponent_aux (num exp md : Z) :
  2 ≤ md → exp < 0 → Z.gcd num md = 1 →
  ∃ (n : nat) (r : Z),
    (∀ fuel, (n ≤ fuel)%nat → mod_power fuel num exp md = Ok r)
    ∧ 0 ≤ r < md ∧ (num ^ (- exp) * r) mod md = 1.
Proof.
  intros Hmd Hexp Hg. set (n := Z.to_nat (md + - exp + 1)).
  destruct (mod_inverse_spec n num md) as (inv & Hinv & Hrange & Hinv1);
    [done|done|lia|].
  exists n, (inv ^ (- exp) mod md). split; [|split].
  - intros fuel Hfuel. apply mod_power_negative; [done|done|lia|].
    by apply (mod_inverse_mono n fuel).
  - apply Z.mod_pos_bound. lia.
  - rewrite Z.mul_mod_idemp_r, <- Z.pow_mul_l by lia.
    rewrite <- (pow_mod_idemp md Hmd), Hinv1.
    rewrite Z.pow_1_l by lia. apply Z.mod_small. lia.
Qed.

End NumthMore.

(** X1.  In default mode and for a nonzero [denom], [div] returns [(q, r)]
    with [num = q*denom + r] and [0 <= r <= |denom|]; the remainder is
    [|denom|] exactly when [denom] is negative and divides a nonzero
    [num]. *)
Theorem div_default_remainder (num denom : Z) :
  denom ≠ 0 →
  ∃ q r, Numth.div num denom None = Ok (q, r)
         ∧ num = q * denom + r ∧ 0 ≤ r ≤ Z.abs denom
         ∧ (r = Z.abs denom ↔ (denom < 0 ∧ num ≠ 0 ∧ num mod denom = 0)).
Proof. apply div_default_eq. Qed.

Lemma div_default_remainder_witness :
  ∃ q r, Numth.div (-7) (-2) None = Ok (q, r)
         ∧ -7 = q * -2 + r ∧ 0 ≤ r ≤ Z.abs (-2)
         ∧ (r = Z.abs (-2) ↔ (-2 < 0 ∧ -7 ≠ 0 ∧ -7 mod -2 = 0)).
Proof. apply (div_default_remainder (-7) (-2)). lia. Defined.

(** X2.  For [a], [b] not both zero, [gcd] returns the greatest common
    divisor, a positive number that divides both and that every common
    divisor divides, and its loop makes at most [log2 |b| + 1] divisions:
    the remainders of the SMALL mode halve at least. *)
Theorem gcd_greatest_common_divisor (a b : Z) :
  ¬ (a = 0 ∧ b = 0) →
  ∃ g : Z,
    (∀ fuel, Z.log2 (Z.abs b) + 1 ≤ Z.of_nat fuel →
       Numth.gcd fuel a b = Ok g)
    ∧ 0 < g ∧ (g | a) ∧ (g | b)
    ∧ ∀ c, (c | a) → (c | b) → (c | g).
Proof.
  intros Hab. exists (Z.gcd a b). split.
  { intros fuel Hfuel. unfold Numth.gcd.
    destruct (Z.eqb_spec a 0) as [->|Ha], (Z.eqb_spec b 0) as [->|Hb];
      try tauto; simpl; apply gcd_loop_log.
    all: try (apply Z.pow_pos_nonneg; lia).
    all: apply Z.log2_lt_pow2; lia. }
  split; [by apply gcd_pos|].
  split; [apply Z.gcd_divide_l|]. split; [apply Z.gcd_divide_r|].
  intros c. apply Z.gcd_greatest.
Qed.

Lemma gcd_greatest_common_divisor_witness :
  ∃ g : Z,
    (∀ fuel, Z.log2 (Z.abs 18) + 1 ≤ Z.of_nat fuel →
       Numth.gcd fuel (-12) 18 = Ok g)
    ∧ 0 < g ∧ (g | -12) ∧ (g | 18)
    ∧ ∀ c, (c | -12) → (c | 18) → (c | g).
Proof. apply (gcd_greatest_common_divisor (-12) 18). lia. Defined.

(** X3.  Dividing [a] and [b] by their [gcd] leaves numbers whose [gcd]
    is 1 (the check of the repository's test). *)
Theorem gcd_cofactors_coprime (a b : Z) :
  ¬ (a = 0 ∧ b = 0) →
  ∃ (n : nat) (d : Z), ∀ fuel, (n ≤ fuel)%nat →
    Numth.gcd fuel a b = Ok d ∧ Numth.gcd fuel (a / d) (b / d) = Ok 1.
Proof.
  intros Hab. pose proof (gcd_pos a b Hab) as Hpos.
  exists (Z.to_nat (Z.abs b)), (Z.gcd a b). intros fuel Hfuel.
  split; [apply gcd_spec; [done|lia]|].
  pose proof (Z.gcd_div_gcd a b (Z.gcd a b) ltac:(lia) eq_refl) as Hcop.
  rewrite gcd_spec, Hcop; [done| |].
  - intros [Ha Hb]. rewrite Ha, Hb in Hcop. done.
  - destruct (Z.gcd_divide_r a b) as [k Hk].
    rewrite Hk at 1. rewrite Z.div_mul by lia. nia.
Qed.

Lemma gcd_cofactors_coprime_witness :
  ∃ (n : nat) (d : Z), ∀ fuel, (n ≤ fuel)%nat →
    Numth.gcd fuel 84 (-36) = Ok d
    ∧ Numth.gcd fuel (84 / d) (-36 / d) = Ok 1.
Proof. apply (gcd_cofactors_coprime 84 (-36)). lia. Defined.

(** X4.  For nonzero [a] and [b], [lcm] stops and returns a common
    multiple of [a] and [b] whose absolute value is the least common
    multiple, and whose quotients by [a] and by [b] are coprime. *)
Theorem lcm_least_common_multiple (a b : Z) :
  a ≠ 0 → b ≠ 0 →
  ∃ (n : nat) (l : Z),
    (∀ fuel, (n ≤ fuel)%nat → Numth.lcm fuel a b = Ok l)
    ∧ (a | l) ∧ (b | l) ∧ Z.abs l = Z.lcm a b
    ∧ Z.gcd (l / a) (l / b) = 1.
Proof.
  intros Ha Hb. pose proof (gcd_pos a b ltac:(lia)) as Hpos.
  destruct (Z.gcd_divide_l a b) as [a' Ha'].
  destruct (Z.gcd_divide_r a b) as [b' Hb'].
  set (g := Z.gcd a b) in *.
  assert (a / g = a') as Hag by (rewrite Ha'; apply Z.div_mul; lia).
  assert (b / g = b') as Hbg by (rewrite Hb'; apply Z.div_mul; lia).
  exists (Z.to_nat (Z.abs b)), (a / g * b). split.
  { intros fuel Hfuel. unfold Numth.lcm.
    rewrite (proj2 (Z.eqb_neq (a * b) 0)) by nia.
    rewrite gcd_spec by lia. fold g. simpl.
    by rewrite (proj2 (Z.eqb_neq g 0)) by lia. }
  rewrite Hag. split; [exists b'; nia|]. split; [exists a'; lia|].
  split.
  - unfold Z.lcm. fold g. rewrite Hbg. f_equal. nia.
  - assert (a' ≠ 0 ∧ b' ≠ 0) as [Ha0 Hb0] by nia.
    replace (a' * b / a) with b'.
    2:{ apply Z.div_unique_exact; [done|nia]. }
    rewrite Z.div_mul by done.
    pose proof (Z.gcd_div_gcd a b g ltac:(lia) eq_refl) as Hcop.
    by rewrite Hag, Hbg, Z.gcd_comm in Hcop.
Qed.

Lemma lcm_least_common_multiple_witness :
  ∃ (n : nat) (l : Z),
    (∀ fuel, (n ≤ fuel)%nat → Numth.lcm fuel (-4) 6 = Ok l)
    ∧ (-4 | l) ∧ (6 | l) ∧ Z.abs l = Z.lcm (-4) 6
    ∧ Z.gcd (l / -4) (l / 6) = 1.
Proof. apply (lcm_least_common_multiple (-4) 6); lia. Defined.

(** X5.  For a modulus [md >= 2], [mod_inverse] stops; when [num] is prime
    to [md] it returns the inverse, a residue of (0, md) with
    [(num * inv) mod md = 1], and otherwise it raises NotInvertible. *)
Theorem mod_inverse_correct (num md : Z) :
  2 ≤ md →
  ∃ n : nat, ∀ fuel, (n ≤ fuel)%nat →
    (Z.gcd num md = 1 →
     ∃ inv, Numth.mod_inverse fuel num md = Ok inv
            ∧ 0 < inv < md ∧ (num * inv) mod md = 1)
    ∧ (Z.gcd num md ≠ 1 →
       Numth.mod_inverse fuel num md = Raise (NotInvertible num md)).
Proof.
  intros Hmd. exists (Z.to_nat md). intros fuel Hfuel. split.
  - intros Hg. apply mod_inverse_spec; [done|done|lia].
  - intros Hg. unfold Numth.mod_inverse.
    rewrite (proj2 (Z.ltb_ge md 1)) by lia.
    rewrite gcd_spec by lia. simpl.
    by rewrite (proj2 (Z.eqb_neq _ 1) Hg).
Qed.

Lemma mod_inverse_correct_witness :
  ∃ n : nat, ∀ fuel, (n ≤ fuel)%nat →
    ∃ inv, Numth.mod_inverse fuel (-3) 10 = Ok inv
           ∧ 0 < inv < 10 ∧ (-3 * inv) mod 10 = 1.
Proof.
  destruct (mod_inverse_correct (-3) 10 ltac:(lia)) as [n Hn].
  exists n. intros fuel Hfuel. apply (Hn fuel Hfuel). reflexivity.
Defined.

(** X6.  For a modulus [md >= 2], a negative exponent and a [num] prime to
    [md], [mod_power] stops on the residue that inverts [num^(-exp)]
    modulo [md]. *)
Theorem mod_power_negative_exponent (num exp md : Z) :
  2 ≤ md → exp < 0 → Z.gcd num md = 1 →
  ∃ (n : nat) (r : Z),
    (∀ fuel, (n ≤ fuel)%nat → Numth.mod_power fuel num exp md = Ok r)
    ∧ 0 ≤ r < md ∧ (num ^ (- exp) * r) mod md = 1.
Proof. apply mod_power_negative_exponent_aux. Qed.

Lemma mod_power_negative_exponent_witness :
  ∃ (n : nat) (r : Z),
    (∀ fuel, (n ≤ fuel)%nat → Numth.mod_power fuel 3 (-5) 7 = Ok r)
    ∧ 0 ≤ r < 7 ∧ (3 ^ (- -5) * r) mod 7 = 1.
Proof. apply (mod_power_negative_exponent 3 (-5) 7); (lia || reflexivity). Defined.

(** X7.  For a modulus [md >= 2], an exponent [exp >= 0] and a [num] prime
    to [md], the inverse of [mod_power(num, exp, md)] is
    [mod_power(num, -exp, md)] (the check of the repository's test). *)
Theorem mod_power_inverse_round_trip (num exp md : Z) :
  2 ≤ md → 0 ≤ exp → Z.gcd num md = 1 →
  ∃ (n : nat) (r : Z), ∀ fuel, (n ≤ fuel)%nat →
    (ans ← Numth.mod_power fuel num exp md; Numth.mod_inverse fuel ans md)
    = Ok r
    ∧ Numth.mod_power fuel num (- exp) md = Ok r.
Proof.
  intros Hmd Hexp Hg. set (n := Z.to_nat (md + exp + 1)).
  assert (Z.gcd (num ^ exp mod md) md = 1) as Hgp.
  { rewrite Z.gcd_mod_l. by apply Z.coprime_pow_l. }
  destruct (mod_inverse_spec n (num ^ exp mod md) md)
    as (r & Hr & Hrange & Hr1); [done|done|lia|].
  assert (∀ fuel, (n ≤ fuel)%nat →
    (ans ← Numth.mod_power fuel num exp md; Numth.mod_inverse fuel ans md)
    = Ok r) as Hleft.
  { intros fuel Hfuel. rewrite mod_power_spec by lia. simpl.
    by apply (mod_inverse_mono n fuel). }
  exists n, r. intros fuel Hfuel. split; [by apply Hleft|].
  destruct (decide (exp = 0)) as [->|Hne].
  { specialize (Hleft fuel Hfuel). destruct fuel as [|fuel]; [lia|].
    rewrite mod_power_spec in Hleft by lia. simpl in Hleft.
    rewrite Z.mod_1_l in Hleft by lia.
    destruct (mod_inverse_spec (S fuel) 1 md) as (i & Hi & Hirange & Hi1);
      [done|apply Z.gcd_1_l|lia|].
    rewrite Hi in Hleft. injection Hleft as <-.
    rewrite Z.mul_1_l, Z.mod_small in Hi1 by lia. subst i.
    simpl. by rewrite (proj2 (Z.ltb_ge md 2)) by lia. }
  destruct (mod_power_negative_exponent_aux num (- exp) md)
    as (n' & r' & Hrun & Hrange' & Hr1'); [done|lia|done|].
  rewrite Z.opp_involutive in Hr1'.
  assert (r = r') as ->.
  { apply (inverse_unique md (num ^ exp)); [done|lia|done| |done].
    by rewrite <- Z.mul_mod_idemp_l, Hr1 by lia. }
  specialize (Hrun (fuel `max` n')%nat ltac:(lia)).
  destruct (mod_inverse_spec n num md) as (inv & Hinv & _ & _);
    [done|done|lia|].
  rewrite (mod_power_negative (fuel `max` n') _ _ _ inv) in Hrun;
    [|done|lia|lia|by apply (mod_inverse_mono n); [lia|]].
  rewrite (mod_power_negative fuel _ _ _ inv);
    [done|done|lia|lia|by apply (mod_inverse_mono n)].
Qed.

Lemma mod_power_inverse_round_trip_witness :
  ∃ (n : nat) (r : Z), ∀ fuel, (n ≤ fuel)%nat →
    (ans ← Numth.mod_power fuel 3 4 10; Numth.mod_inverse fuel ans 10)
    = Ok r
    ∧ Numth.mod_power fuel 3 (- 4) 10 = Ok r.
Proof. apply (mod_power_inverse_round_trip 3 4 10); (lia || reflexivity). Defined.

Section JacobiFacts.
Import Numth.

(** What a returning [padic] run tells about its result. *)
Lemma padic_partial (fuel : nat) (num base e r : Z) :
  padic fuel num base = Ok (e, r) →
  2 ≤ base ∧ num ≠ 0 ∧ 0 ≤ e ∧ num = base ^ e * r ∧ r mod base ≠ 0.
Proof.
  unfold padic. destruct (Z.ltb_spec base 2) as [|Hbase]; [done|].
  intros Hrun. assert (num ≠ 0) as Hnum.
  { intros ->. by rewrite padic_loop_zero in Hrun by lia. }
  split; [done|]. split; [done|].
  split; [by apply padic_loop_exp_le in Hrun|].
  destruct (padic_loop_spec base (fuel `max` Z.to_nat (Z.abs num)) 0 num)
    as (e' & r' & Hrun' & Heq & Hr); [done|done|lia|lia|].
  apply (padic_loop_mono _ _ (fuel `max` Z.to_nat (Z.abs num))) in Hrun;
    [|lia].
  rewrite Hrun in Hrun'. injection Hrun' as <- <-.
  rewrite Z.pow_0_r in Heq. split; [lia|done].
Qed.

Lemma padic_valuation (num base e r k : Z) :
  2 ≤ base → 0 ≤ e → num = base ^ e * r → r mod base ≠ 0 → 0 ≤ k →
  (base ^ k | num) ↔ k ≤ e.
Proof.
  intros Hbase He -> Hr Hk. split.
  - intros Hdiv. destruct (Z.le_gt_cases k e) as [|Hlt]; [done|].
    exfalso. apply Hr. apply Z.mod_divide; [lia|].
    replace k with (e + 1 + (k - e - 1)) in Hdiv by lia.
    rewrite !Z.pow_add_r, Z.pow_1_r in Hdiv by lia.
    destruct Hdiv as [c Hc]. exists (c * base ^ (k - e - 1)).
    assert (0 < base ^ e) by (apply Z.pow_pos_nonneg; lia). nia.
  - intros Hle. exists (r * base ^ (e - k)).
    replace e with (k + (e - k)) at 1 by lia.
    rewrite Z.pow_add_r by lia. lia.
Qed.

Lemma gcd_loop_cases (fuel : nat) : ∀ a b : Z,
  gcd_loop fuel a b = Ok (Z.gcd a b) ∨ gcd_loop fuel a b = OutOfFuel.
Proof.
  induction fuel as [|fuel IH]; intros a b; simpl;
    destruct (Z.eqb_spec b 0) as [->|Hb];
    try (left; by rewrite Z.gcd_0_r); [by right|].
  destruct (div_small_eq a b Hb) as (q & r & -> & Heq & _). simpl.
  rewrite <- (gcd_step a b q r Heq). apply IH.
Qed.

Lemma padic_loop_no_raise (base : Z) (fuel : nat) : ∀ exp rest err,
  padic_loop fuel base exp rest ≠ Raise err.
Proof.
  induction fuel as [|fuel IH]; intros exp rest err; simpl;
    destruct (rest mod base =? 0); done.
Qed.

Lemma jacobi_unfold (G : gmap string Z) (fuel : nat) (a b : Z) :
  jacobi G fuel a b =
  if b mod 2 =? 0 then
    n ← lookup_global G "num"; m ← lookup_global G "mod";
    Raise (UndefinedJacobiSymbol n m)
  else if b =? 1 then Ok 1
  else
    g ← gcd fuel a b;
    if negb (g =? 1) then Ok 0
    else
      ea ← padic fuel (a mod b) 2;
      let '(exp, a_) := ea in
      let sgn :=
        if (exp mod 2 =? 1) && ((b mod 8 =? 3) || (b mod 8 =? 5))
        then -1 else 1 in
      if a_ =? 1 then Ok sgn
      else
        let sgn :=
          if negb (b mod 4 =? 1) && negb (a_ mod 4 =? 1)
          then sgn * -1 else sgn in
        match fuel with
        | O => OutOfFuel
        | S fuel' => j ← jacobi G fuel' b a_; Ok (sgn * j)
        end.
Proof. by destruct fuel. Qed.

(** The odd part of [a mod b] is prime to [b] when [a] is. *)
Lemma odd_part_coprime (a b e r : Z) :
  Z.gcd a b = 1 → a mod b = 2 ^ e * r → Z.gcd b r = 1.
Proof.
  intros Hg Heq. rewrite Z.gcd_comm.
  apply (gcd_divisor_of_coprime (a mod b)).
  - by rewrite Z.gcd_mod_l.
  - exists (2 ^ e). lia.
Qed.

Lemma jacobi_positive (G : gmap string Z) (fuel : nat) : ∀ a b : Z,
  0 < b → b mod 2 = 1 → b ≤ Z.of_nat fuel →
  ∃ j, jacobi G fuel a b = Ok j
       ∧ (j = 1 ∨ j = -1 ∨ j = 0) ∧ (j = 0 ↔ Z.gcd a b ≠ 1).
Proof.
  induction fuel as [|fuel IH]; intros a b Hb Hodd Hfuel; [lia|].
  rewrite jacobi_unfold. rewrite Hodd. cbn [Z.eqb].
  destruct (Z.eqb_spec b 1) as [->|Hb1].
  { exists 1. rewrite Z.gcd_1_r. split; [done|]. split; [by left|done]. }
  rewrite gcd_spec by lia. cbn [mbind result_mbind result_bind].
  destruct (Z.eqb_spec (Z.gcd a b) 1) as [Hg|Hg]; cbn [negb].
  2:{ exists 0. split; [done|]. split; [by right; right|done]. }
  assert (a mod b ≠ 0) as Hab.
  { intros H0. rewrite <- Z.gcd_mod_l, H0, Z.gcd_0_l in Hg. lia. }
  pose proof (Z.mod_pos_bound a b Hb) as Hrange.
  destruct (padic_loop_spec 2 (S fuel) 0 (a mod b))
    as (e & r & Hrun & _ & _); [done|done|lia|lia|].
  assert (padic (S fuel) (a mod b) 2 = Ok (e, r)) as Hpadic by done.
  rewrite Hpadic. cbn [mbind result_mbind result_bind].
  apply padic_partial in Hpadic as (_ & _ & He & Heq & Hr).
  assert (0 < 2 ^ e) as Hpow by (apply Z.pow_pos_nonneg; lia).
  assert (0 < r < b) as Hrb by nia.
  set (sgn := if (e mod 2 =? 1) && ((b mod 8 =? 3) || (b mod 8 =? 5))
              then -1 else 1).
  assert (sgn = 1 ∨ sgn = -1) as Hsgn.
  { unfold sgn. destruct (_ && _); auto. }
  destruct (Z.eqb_spec r 1) as [Hr1|Hr1].
  { exists sgn. split; [done|]. split; lia. }
  destruct (IH b r) as (j & Hj & Hjv & Hj0); [lia| |lia|].
  { pose proof (Z.mod_pos_bound r 2). lia. }
  rewrite Hj. cbn [mbind result_mbind result_bind].
  assert (j ≠ 0) as Hjne.
  { intros Hz. apply Hj0 in Hz. apply Hz.
    by apply (odd_part_coprime a b e r). }
  eexists. split; [done|].
  destruct (negb (b mod 4 =? 1) && negb (r mod 4 =? 1)); split; lia.
Qed.

Lemma jacobi_negative (G : gmap string Z) (fuel : nat) : ∀ a b : Z,
  b < 0 → b mod 2 = 1 → Z.gcd a b = 1 → jacobi G fuel a b = OutOfFuel.
Proof.
  induction fuel as [|fuel IH]; intros a b Hb Hodd Hg;
    rewrite jacobi_unfold; rewrite Hodd; cbn [Z.eqb];
    rewrite (proj2 (Z.eqb_neq b 1)) by lia.
  all: unfold gcd at 1; rewrite (proj2 (Z.eqb_neq b 0)) by lia;
    rewrite andb_false_r;
    match goal with |- context [gcd_loop ?f ?x ?y] =>
      destruct (gcd_loop_cases f x y) as [->| ->] end; [|done..];
    rewrite Hg; cbn [mbind result_mbind result_bind Z.eqb negb].
  all: match goal with |- context [padic ?f ?x 2] =>
         destruct (padic f x 2) as [[e r]|err|] eqn:Hpadic end;
       [|by apply padic_loop_no_raise in Hpadic|done];
       cbn [mbind result_mbind result_bind];
       pose proof Hpadic as (_ & Hne & He & Heq & Hr)%padic_partial;
       pose proof (Z.mod_neg_bound a b Hb) as Hrange;
       assert (0 < 2 ^ e) as Hpow by (apply Z.pow_pos_nonneg; lia);
       assert (r < 0) as Hrneg by nia;
       rewrite (proj2 (Z.eqb_neq r 1)) by lia; try done.
  rewrite IH; [done|done| |by apply (odd_part_coprime a b e r)].
  pose proof (Z.mod_pos_bound r 2). lia.
Qed.

Lemma jacobi_mono (G : gmap string Z) (fuel : nat) : ∀ (fuel' : nat) a b,
  (fuel ≤ fuel')%nat → le_res (jacobi G fuel a b) (jacobi G fuel' a b).
Proof.
  assert (∀ (A : Type) (r : result A), le_res r r) as Hrefl by (by intros A r v).
  induction fuel as [|fuel IH]; intros fuel' a b Hle;
    rewrite (jacobi_unfold G _ a b), (jacobi_unfold G fuel' a b).
  all: destruct (b mod 2 =? 0); [done|]; destruct (b =? 1); [done|].
  all: apply le_res_bind; [by apply gcd_mono|]; intros g.
  all: destruct (negb (g =? 1)); [done|].
  all: apply le_res_bind;
    [intros v; unfold padic; cbn [Z.ltb Z.compare Pos.compare Pos.compare_cont];
     by apply padic_loop_mono|].
  all: intros [e r]; destruct (r =? 1); [done|].
  - done.
  - destruct fuel' as [|fuel']; [lia|].
    apply le_res_bind; [apply IH; lia|done].
Qed.

End JacobiFacts.

(** X8.  For a base [>= 2] and a nonzero [num], the exponent that [padic]
    returns is the multiplicity of [base] in [num]: it is not negative, and
    [base^k] divides [num] exactly for the [k] up to it. *)
Theorem padic_exponent_is_multiplicity (num base : Z) :
  2 ≤ base → num ≠ 0 →
  ∃ (n : nat) (exp rest : Z),
    (∀ fuel, (n ≤ fuel)%nat → Numth.padic fuel num base = Ok (exp, rest))
    ∧ 0 ≤ exp
    ∧ ∀ k, 0 ≤ k → (base ^ k | num) ↔ k ≤ exp.
Proof.
  intros Hbase Hnum. set (n := Z.to_nat (Z.abs num)).
  destruct (padic_loop_spec base n 0 num)
    as (e & r & Hrun & _ & _); [done|done|lia|lia|].
  assert (Numth.padic n num base = Ok (e, r)) as Hpadic.
  { unfold Numth.padic. by rewrite (proj2 (Z.ltb_ge base 2)) by lia. }
  exists n, e, r. split.
  { intros fuel Hfuel. unfold Numth.padic.
    rewrite (proj2 (Z.ltb_ge base 2)) by lia.
    by apply (padic_loop_mono base n fuel). }
  apply padic_partial in Hpadic as (_ & _ & He & Heq & Hr).
  split; [done|]. intros k Hk. by apply (padic_valuation num base e r).
Qed.

Lemma padic_exponent_is_multiplicity_witness :
  ∃ (n : nat) (exp rest : Z),
    (∀ fuel, (n ≤ fuel)%nat → Numth.padic fuel (-72) 6 = Ok (exp, rest))
    ∧ 0 ≤ exp
    ∧ ∀ k, 0 ≤ k → (6 ^ k | -72) ↔ k ≤ exp.
Proof. apply (padic_exponent_is_multiplicity (-72) 6); lia. Defined.

(** X9.  For an odd [b > 0] and any [a], [jacobi] stops, whatever the
    module's globals, on 1, -1 or 0, and on 0 exactly when [a] and [b]
    have a common factor. *)
Theorem jacobi_positive_odd (G : gmap string Z) (a b : Z) :
  0 < b → b mod 2 = 1 →
  ∃ (n : nat) (j : Z),
    (∀ fuel, (n ≤ fuel)%nat → Numth.jacobi G fuel a b = Ok j)
    ∧ (j = 1 ∨ j = -1 ∨ j = 0)
    ∧ (j = 0 ↔ Z.gcd a b ≠ 1).
Proof.
  intros Hb Hodd.
  destruct (jacobi_positive G (Z.to_nat b) a b) as (j & Hj & Hv & H0);
    [done|done|lia|].
  exists (Z.to_nat b), j. split; [|done].
  intros fuel Hfuel. by apply (jacobi_mono G (Z.to_nat b) fuel).
Qed.

Lemma jacobi_positive_odd_witness :
  ∃ (n : nat) (j : Z),
    (∀ fuel, (n ≤ fuel)%nat → Numth.jacobi ∅ fuel 7 15 = Ok j)
    ∧ (j = 1 ∨ j = -1 ∨ j = 0)
    ∧ (j = 0 ↔ Z.gcd 7 15 ≠ 1).
Proof. apply (jacobi_positive_odd ∅ 7 15); (lia || reflexivity). Defined.

(** X10.  For an odd [b < 0], [jacobi] returns 0 when [a] and [b] have a
    common factor, and otherwise never returns: the recursion keeps a
    negative second argument and ends in [padic(0, 2)], whose loop does
    not stop. *)
Theorem jacobi_negative_odd (G : gmap string Z) (a b : Z) :
  b < 0 → b mod 2 = 1 →
  (Z.gcd a b ≠ 1 →
   ∃ n : nat, ∀ fuel, (n ≤ fuel)%nat → Numth.jacobi G fuel a b = Ok 0)
  ∧ (Z.gcd a b = 1 → ∀ fuel, Numth.jacobi G fuel a b = OutOfFuel).
Proof.
  intros Hb Hodd. split.
  - intros Hg. exists (Z.to_nat (Z.abs b)). intros fuel Hfuel.
    rewrite jacobi_unfold, Hodd. cbn [Z.eqb].
    rewrite (proj2 (Z.eqb_neq b 1)) by lia.
    rewrite gcd_spec by lia. cbn [mbind result_mbind result_bind].
    by rewrite (proj2 (Z.eqb_neq _ 1) Hg).
  - intros Hg fuel. by apply jacobi_negative.
Qed.

Lemma jacobi_negative_odd_witness :
  (∃ n : nat, ∀ fuel, (n ≤ fuel)%nat → Numth.jacobi ∅ fuel 14 (-7) = Ok 0)
  ∧ (∀ fuel, Numth.jacobi ∅ fuel 2 (-7) = OutOfFuel).
Proof.
  split.
  - destruct (jacobi_negative_odd ∅ 14 (-7) ltac:(lia) eq_refl) as [Hzero _].
    apply Hzero. vm_compute. discriminate.
  - destruct (jacobi_negative_odd ∅ 2 (-7) ltac:(lia) eq_refl) as [_ Hloop].
    apply Hloop. reflexivity.
Defined.

Section EuclideanAlgorithm.
Import Numth.

(** Both modes of [div] leave a remainder no larger than the divisor, and
    as large only in default mode, for a negative divisor. *)
Lemma div_any_mode (num denom : Z) (METHOD : option string) :
  denom ≠ 0 →
  ∃ q r, div num denom METHOD = Ok (q, r)
         ∧ num = q * denom + r
         ∧ (Z.abs r < Z.abs denom ∨ (denom < 0 ∧ r = - denom)).
Proof.
  intros Hd. destruct (is_SMALL METHOD) eqn:Hmode.
  - destruct METHOD as [s|]; [|done]. apply String.eqb_eq in Hmode as ->.
    destruct (div_small_eq num denom Hd) as (q & r & Hrun & Heq & Hlo & Hhi).
    exists q, r. split; [done|]. split; [done|]. left. lia.
  - destruct (div_default_eq num denom Hd) as (q & r & Hrun & Heq & Hr & Hmax).
    exists q, r. split; [|split; [done|lia]].
    rewrite <- Hrun. unfold div. by rewrite Hmode.
Qed.

Lemma euclidean_algorithm_unfold (fuel : nat) (a b : Z) (METHOD : option string) :
  euclidean_algorithm fuel a b METHOD =
  qr ← div a b METHOD;
  if negb (qr.2 =? 0) then
    match fuel with
    | O => OutOfFuel
    | S fuel' =>
        rest ← euclidean_algorithm fuel' b qr.2 METHOD;
        Ok (format_line a qr.1 b qr.2 :: rest)
    end
  else Ok [format_line a qr.1 b qr.2].
Proof. destruct fuel; simpl; by destruct (div a b METHOD) as [[q r]| |]. Qed.

Lemma euclidean_algorithm_run (METHOD : option string) (fuel : nat) : ∀ a b : Z,
  b ≠ 0 → 2 * Z.abs b + (if b <? 0 then 1 else 0) ≤ Z.of_nat fuel →
  ∃ steps,
    euclidean_algorithm fuel a b METHOD
    = Ok (map (λ s, format_line s.1.1.1 s.1.1.2 s.1.2 s.2) steps)
    ∧ division_chain (Z.gcd a b) a b steps
    ∧ Z.of_nat (length steps) ≤ 2 * Z.abs b + (if b <? 0 then 1 else 0).
Proof.
  induction fuel as [|fuel IH]; intros a b Hb Hfuel;
    [destruct (b <? 0); lia|].
  rewrite euclidean_algorithm_unfold.
  destruct (div_any_mode a b METHOD Hb) as (q & r & -> & Heq & Hr).
  cbn [mbind result_mbind result_bind fst snd].
  pose proof (gcd_step a b q r Heq) as Hg.
  destruct (Z.eqb_spec r 0) as [->|Hr0]; cbn [negb].
  { exists [(a, q, b, 0)]. split; [done|]. rewrite Z.gcd_0_r in Hg.
    split; [done|]. simpl. destruct (b <? 0); lia. }
  assert (2 * Z.abs r + (if r <? 0 then 1 else 0)
          < 2 * Z.abs b + (if b <? 0 then 1 else 0)) as Hless.
  { destruct (Z.ltb_spec r 0), (Z.ltb_spec b 0); lia. }
  destruct (IH b r Hr0 ltac:(lia)) as (steps & -> & Hchain & Hlen).
  cbn [mbind result_mbind result_bind].
  exists ((a, q, b, r) :: steps). split; [done|]. split.
  - destruct steps as [|s steps]; [done|]. rewrite <- Hg. done.
  - cbn [length]. lia.
Qed.

Lemma euclidean_algorithm_mono (METHOD : option string) (fuel : nat) :
  ∀ (fuel' : nat) a b, (fuel ≤ fuel')%nat →
  le_res (euclidean_algorithm fuel a b METHOD)
         (euclidean_algorithm fuel' a b METHOD).
Proof.
  induction fuel as [|fuel IH]; intros fuel' a b Hle;
    rewrite (euclidean_algorithm_unfold _ a b),
            (euclidean_algorithm_unfold fuel' a b).
  all: apply le_res_bind; [by intros v|]; intros [q r]; cbn [fst snd].
  all: destruct (negb (r =? 0)); [|by intros v].
  - by intros v.
  - destruct fuel' as [|fuel']; [lia|].
    apply le_res_bind; [apply IH; lia|by intros rest v].
Qed.

End EuclideanAlgorithm.

(** X11.  For a nonzero [b] and in either mode, [euclidean_algorithm]
    stops after printing the lines of a chain of divisions from [a] and
    [b]: each line is an exact division of the previous divisor by the
    previous remainder, only the last remainder is zero, and the last
    divisor is the greatest common divisor of [a] and [b] up to sign.  In
    default mode a negative divisor can leave a remainder as large as
    itself, so the chain has up to [2|b| + 1] lines. *)
Theorem euclidean_algorithm_prints_chain (a b : Z) (METHOD : option string) :
  b ≠ 0 →
  ∃ (n : nat) (steps : list (Z * Z * Z * Z)),
    (∀ fuel, (n ≤ fuel)%nat →
       Numth.euclidean_algorithm fuel a b METHOD
       = Ok (map (λ s, Numth.format_line s.1.1.1 s.1.1.2 s.1.2 s.2) steps))
    ∧ division_chain (Z.gcd a b) a b steps
    ∧ Z.of_nat (length steps) ≤ 2 * Z.abs b + 1.
Proof.
  intros Hb. set (n := Z.to_nat (2 * Z.abs b + 1)).
  destruct (euclidean_algorithm_run METHOD n a b Hb) as (steps & Hrun & Hchain & Hlen).
  { destruct (b <? 0); lia. }
  exists n, steps. split; [|split; [done|destruct (b <? 0); lia]].
  intros fuel Hfuel. by apply (euclidean_algorithm_mono METHOD n fuel).
Qed.

Lemma euclidean_algorithm_prints_chain_witness :
  ∃ (n : nat) (steps : list (Z * Z * Z * Z)),
    (∀ fuel, (n ≤ fuel)%nat →
       Numth.euclidean_algorithm fuel 6 (-3) None
       = Ok (map (λ s, Numth.format_line s.1.1.1 s.1.1.2 s.1.2 s.2) steps))
    ∧ division_chain (Z.gcd 6 (-3)) 6 (-3) steps
    ∧ Z.of_nat (length steps) ≤ 2 * Z.abs (-3) + 1.
Proof. apply (euclidean_algorithm_prints_chain 6 (-3) None). lia. Defined.

(** * Further properties of the ring *)

Section RingOperations.
Import Numth ModularRing.

Lemma mult_reduce_spec (md : Z) (elements : list Z) : ∀ acc : Z,
  md ≠ 0 →
  mult_reduce md (acc mod md) elements
  = Ok ((acc * product elements) mod md).
Proof.
  induction elements as [|y rest IH]; intros acc Hmd; simpl.
  { by rewrite Z.mul_1_r. }
  unfold py_mod. rewrite (proj2 (Z.eqb_neq md 0) Hmd). simpl.
  rewrite IH by done. f_equal.
  by rewrite <- Z.mul_assoc, Z.mul_mod_idemp_l by done.
Qed.

Lemma add_reduce_spec (md : Z) (elements : list Z) : ∀ acc : Z,
  md ≠ 0 →
  add_reduce md (acc mod md) elements
  = Ok ((acc + foldr Z.add 0 elements) mod md).
Proof.
  induction elements as [|y rest IH]; intros acc Hmd; simpl.
  { by rewrite Z.add_0_r. }
  unfold py_mod. rewrite (proj2 (Z.eqb_neq md 0) Hmd). simpl.
  rewrite IH by done. f_equal.
  by rewrite <- Z.add_assoc, Z.add_mod_idemp_l by done.
Qed.

(** The last assignment of an order is the one looked up afterwards. *)
Lemma order_search_records (fuel : nat) (x : Z) (primes : list Z) :
  ∀ (powers : Dict.dict) (s : ring) o s',
  order_search fuel x primes powers s = Ok (Some o, s') →
  orders s' !! x = Some o.
Proof.
  induction primes as [|p primes IH]; intros powers s o s';
    cbn [order_search]; [done|].
  destruct (new_powers_items fuel p powers powers s)
    as [[items s1]| |] eqn:Hitems; simpl; try done.
  destruct (py_min _) as [o'|]; [|apply IH].
  intros [= <- <-]. simpl. apply lookup_insert_eq.
Qed.

Lemma order_of_body_records (C : collaborators)
    (dl : M (option (gmap Z Z))) (fuel : nat) (x : Z) (s : ring) o s' :
  order_of_body C dl fuel x s = Ok (Some o, s') → orders s' !! x = Some o.
Proof.
  unfold order_of_body.
  destruct (orders s !! x) as [o0|] eqn:Ho; [by intros [= <- <-]|].
  destruct (_generator s).
  - destruct (euler C s) as [[e s1]| |]; simpl; try done.
    destruct (dl s1) as [[[d|] s2]| |]; simpl; try done.
    destruct (d !! x); [|done].
    destruct (euler C s2) as [[e' s3]| |]; simpl; try done.
    destruct (gcd fuel _ _); simpl; try done.
    destruct (_ =? 0); [done|]. intros [= <- <-]. simpl.
    apply lookup_insert_eq.
  - destruct (elem x s) as [[v s1]| |]; simpl; try done.
    destruct (carmichael_primes C s1) as [[primes s2]| |]; simpl; try done.
    apply order_search_records.
Qed.

Lemma order_of_records (C : collaborators) (fuel : nat) (x : Z) (s : ring) o s' :
  order_of C fuel x s = Ok (Some o, s') → orders s' !! x = Some o.
Proof. rewrite order_of_unfold. apply order_of_body_records. Qed.

End RingOperations.

(** X12.  In a ring of modulus at least 2, [mult] returns the product of
    its arguments reduced modulo the modulus (1 for no argument) and [add]
    their sum reduced (0 for no argument); neither changes the ring. *)
Theorem mult_add_reduce (s : ModularRing.ring) (elements : list Z) :
  2 ≤ ModularRing.modulus s →
  ModularRing.mult elements s
  = Ok (product elements mod ModularRing.modulus s, s)
  ∧ ModularRing.add elements s
    = Ok (foldr Z.add 0 elements mod ModularRing.modulus s, s).
Proof.
  intros Hm. unfold ModularRing.mult, ModularRing.add. split.
  - rewrite <- (Z.mod_1_l (ModularRing.modulus s)) at 1 by lia.
    rewrite mult_reduce_spec by lia. simpl. by rewrite Z.mul_1_l.
  - rewrite <- (Z.mod_0_l (ModularRing.modulus s)) at 1 by lia.
    rewrite add_reduce_spec by lia. done.
Qed.

Lemma mult_add_reduce_witness :
  ModularRing.mult [3; 5; -4] (ModularRing.__init__ 7)
  = Ok (product [3; 5; -4] mod 7, ModularRing.__init__ 7)
  ∧ ModularRing.add [3; 5; -4] (ModularRing.__init__ 7)
    = Ok (foldr Z.add 0 [3; 5; -4] mod 7, ModularRing.__init__ 7).
Proof.
  apply (mult_add_reduce (ModularRing.__init__ 7) [3; 5; -4]). simpl. lia.
Defined.

(** X13.  In a ring of modulus [m >= 2] and for [x] prime to [m],
    [inverse_of(x)] stops on a residue whose product with [x], taken by
    [mult], is 1, and [power_of(x, -1)] is the same residue; the ring is
    left as it was. *)
Theorem inverse_of_inverts (s : ModularRing.ring) (x : Z) :
  2 ≤ ModularRing.modulus s → Z.gcd x (ModularRing.modulus s) = 1 →
  ∃ (n : nat) (i : Z), ∀ fuel, (n ≤ fuel)%nat →
    ModularRing.inverse_of fuel x s = Ok (i, s)
    ∧ ModularRing.mult [x; i] s = Ok (1, s)
    ∧ ModularRing.power_of fuel x (-1) s = Ok (i, s).
Proof.
  intros Hm Hg. set (m := ModularRing.modulus s) in *.
  set (n := S (Z.to_nat m)).
  destruct (mod_inverse_spec n x m) as (i & Hi & Hrange & Hi1);
    [done|done|lia|].
  exists n, i. intros fuel Hfuel.
  apply (mod_inverse_mono n fuel) in Hi; [|done].
  split; [|split].
  - unfold ModularRing.inverse_of. fold m. by rewrite Hi.
  - rewrite (mult_pair m Hm s x i eq_refl). by rewrite Hi1.
  - unfold ModularRing.power_of. fold m.
    rewrite (mod_power_negative fuel x (-1) m i); [|done|lia|lia|done].
    simpl. rewrite Z.pow_1_r, Z.mod_small by lia. done.
Qed.

Lemma inverse_of_inverts_witness :
  ∃ (n : nat) (i : Z), ∀ fuel, (n ≤ fuel)%nat →
    ModularRing.inverse_of fuel 3 (ModularRing.__init__ 7)
    = Ok (i, ModularRing.__init__ 7)
    ∧ ModularRing.mult [3; i] (ModularRing.__init__ 7)
      = Ok (1, ModularRing.__init__ 7)
    ∧ ModularRing.power_of fuel 3 (-1) (ModularRing.__init__ 7)
      = Ok (i, ModularRing.__init__ 7).
Proof.
  apply (inverse_of_inverts (ModularRing.__init__ 7) 3);
    [simpl; lia|reflexivity].
Defined.

(** X14.  In every state of a ring of modulus [m >= 2] whose collaborators
    meet their contracts, [order_of] stops on every unit [x] and returns
    its multiplicative order: the least positive exponent [o] with
    [x^o = 1 (mod m)].  The order is entered in [orders], so that a second
    call returns it and changes nothing. *)
Theorem order_of_is_multiplicative_order
    (C : ModularRing.collaborators) (m : Z) (s : ModularRing.ring) (x : Z) :
  2 ≤ m → meets_contracts C m → ModularRing.reachable C m s →
  x ∈ units m →
  ∃ (n : nat) (o : Z),
    is_order m x o
    ∧ ∀ fuel, (n ≤ fuel)%nat →
        ∃ s1, ModularRing.order_of C fuel x s = Ok (Some o, s1)
              ∧ ModularRing.orders s1 !! x = Some o
              ∧ ModularRing.order_of C fuel x s1 = Ok (Some o, s1).
Proof.
  intros Hm HC Hinv%(reachable_inv C m Hm HC) Hx.
  set (lam := ModularRing.carmichael_lambda C (ModularRing.factor C m)).
  set (phi := ModularRing.euler_phi C (ModularRing.factor C m)).
  set (n := S (Z.to_nat (lam + phi))).
  destruct (order_of_run C m Hm HC n x s Hinv Hx)
    as (o & s0 & _ & Hord & _); [fold lam phi; lia|].
  exists n, o. split; [done|]. intros fuel Hfuel.
  destruct (order_of_run C m Hm HC fuel x s Hinv Hx)
    as (o' & s1 & Hrun & Hord' & _); [fold lam phi; lia|].
  rewrite (order_unique m x o o' Hord Hord').
  pose proof (order_of_records C fuel x s o' s1 Hrun) as Hrec.
  exists s1. split; [done|]. split; [done|]. by apply order_of_cached.
Qed.

Lemma order_of_is_multiplicative_order_witness :
  ∃ (n : nat) (o : Z),
    is_order 7 2 o
    ∧ ∀ fuel, (n ≤ fuel)%nat →
        ∃ s1, ModularRing.order_of Reference.collaborators fuel 2
                (ModularRing.__init__ 7) = Ok (Some o, s1)
              ∧ ModularRing.orders s1 !! 2 = Some o
              ∧ ModularRing.order_of Reference.collaborators fuel 2 s1
                = Ok (Some o, s1).
Proof.
  apply (order_of_is_multiplicative_order Reference.collaborators 7
           (ModularRing.__init__ 7) 2).
  - lia.
  - apply reference_contracts_7.
  - apply ModularRing.reachable_init.
  - apply (bool_decide_unpack _). by vm_compute.
Defined.

(** ** The reference collaborators at modulus 8 *)

Lemma is_order_8_3 : is_order 8 3 2.
Proof.
  split; [lia|]. split; [reflexivity|]. intros j Hj.
  assert (j = 1) as -> by lia. vm_compute. discriminate.
Qed.

Lemma reference_contracts_8 : meets_contracts Reference.collaborators 8.
Proof.
  assert (Reference.factor 8 = [(2, 3)]) as Hf8 by (by vm_compute).
  assert (Reference.factor 2 = [(2, 1)]) as Hf2 by (by vm_compute).
  assert (Reference.carmichael_lambda [(2, 3)] = 2) as Hlam by reflexivity.
  assert (units 8 = [1; 3; 5; 7]) as Hunits by (by vm_compute).
  split; simpl; rewrite ?Hf8, ?Hlam, ?Hf2, ?Hunits.
  - split; [|split; [|reflexivity]].
    + apply Forall_singleton. split; [apply Z.prime_2|simpl; lia].
    + apply NoDup_singleton.
  - split; [|split; [|reflexivity]].
    + apply Forall_singleton. split; [apply Z.prime_2|simpl; lia].
    + apply NoDup_singleton.
  - reflexivity.
  - by repeat constructor.
  - apply Exists_exists. exists 3. split; [|apply is_order_8_3].
    apply (bool_decide_unpack _). by vm_compute.
  - reflexivity.
Qed.

Section CyclicFacts.
Import ModularRing.
Variable C : collaborators.
Variable m : Z.
Hypothesis Hm : 2 ≤ m.
Hypothesis HC : meets_contracts C m.

Let phi := euler_phi C (factor C m).
Let lam := carmichael_lambda C (factor C m).

(** What [is_cyclic] answers in a state of the ring. *)
Lemma is_cyclic_answer (s : ring) (b : bool) (s0 : ring) :
  ring_inv C m s → is_cyclic C s = Ok (b, s0) → b = (phi =? lam).
Proof.
  intros Hinv Hrun. destruct (is_cyclic_run C m s Hinv) as (s' & Hrun' & _).
  rewrite Hrun' in Hrun. by injection Hrun as <- _.
Qed.

(** In a ring that is not cyclic no generator and no table is cached. *)
Lemma not_cyclic_caches (s : ring) :
  ring_inv C m s → phi ≠ lam →
  _generator s = None ∧ _as_cyclic_group s = None ∧ _discrete_log s = None.
Proof.
  intros Hinv Hne.
  assert (_generator s = None) as Hg.
  { destruct (_generator s) as [g|] eqn:Hg; [|done].
    by destruct (inv_generator _ _ _ Hinv g Hg) as (? & _). }
  assert (_as_cyclic_group s = None) as Hc.
  { destruct (_as_cyclic_group s) as [c|] eqn:Hc; [|done].
    destruct (inv_cyclic _ _ _ Hinv c Hc) as (g & Hg' & _). congruence. }
  split; [done|]. split; [done|].
  destruct (_discrete_log s) as [d|] eqn:Hd; [|done].
  destruct (inv_dlog _ _ _ Hinv d Hd) as (c & Hc' & _). congruence.
Qed.

Lemma not_cyclic_runs (fuel : nat) (s : ring) :
  ring_inv C m s → phi ≠ lam →
  ∃ s1 s2 s3,
    generator C fuel s = Ok (None, s1)
    ∧ as_cyclic_group C fuel s = Ok (None, s2)
    ∧ discrete_log C fuel s = Ok (None, s3).
Proof.
  intros Hinv Hne.
  destruct (not_cyclic_caches s Hinv Hne) as (Hg & Hc & Hd).
  destruct (is_cyclic_run C m s Hinv)
    as (s1 & Hrun & Hinv1 & (_ & _ & Hg1 & Hc1 & Hd1)).
  fold phi lam in Hrun. rewrite (proj2 (Z.eqb_neq phi lam) Hne) in Hrun.
  exists s1, s1, s1. split; [|split].
  - unfold generator, generator_body. rewrite Hg, Hrun. simpl.
    by rewrite Hg1, Hg.
  - unfold as_cyclic_group, as_cyclic_group_body. rewrite Hc, Hrun. simpl.
    by rewrite Hc1, Hc.
  - unfold discrete_log, discrete_log_body. rewrite Hd, Hrun. simpl.
    by rewrite Hd1, Hd.
Qed.

(** The entries of the inverse of the table of powers of a generator. *)
Lemma log_table_lookup (g x i : Z) :
  is_order m g phi →
  invert_items (powers_table m g phi) !! x = Some i
  ↔ 0 ≤ i < phi ∧ x = g ^ i mod m.
Proof.
  intros Hord. rewrite <- powers_table_lookup. split.
  - apply invert_items_lookup_inv.
  - apply invert_items_lookup. rewrite powers_table_values.
    by apply powers_nodup.
Qed.

End CyclicFacts.

(** X15.  In every state of a cyclic ring ([is_cyclic()] is true) of
    modulus [m >= 2] whose collaborators meet their contracts,
    [generator()] stops on a unit [g] whose powers [g^0 .. g^(n-1)], [n] the
    number of units, are all the units; the generator is cached, so that a
    second call returns it and changes nothing. *)
Theorem generator_generates_units
    (C : ModularRing.collaborators) (m : Z) (s : ModularRing.ring) :
  2 ≤ m → meets_contracts C m → ModularRing.reachable C m s →
  (∃ s0, ModularRing.is_cyclic C s = Ok (true, s0)) →
  ∃ (n : nat) (g : Z),
    g ∈ units m
    ∧ (∀ x, x ∈ units m
            ↔ ∃ i, 0 ≤ i < Z.of_nat (length (units m)) ∧ x = g ^ i mod m)
    ∧ ∀ fuel, (n ≤ fuel)%nat →
        ∃ s1, ModularRing.generator C fuel s = Ok (Some g, s1)
              ∧ ModularRing.generator C fuel s1 = Ok (Some g, s1).
Proof.
  intros Hm HC Hinv%(reachable_inv C m Hm HC) [s0 Hcyclic].
  set (lam := ModularRing.carmichael_lambda C (ModularRing.factor C m)).
  set (phi := ModularRing.euler_phi C (ModularRing.factor C m)).
  assert (phi = lam) as Hcyc.
  { apply (is_cyclic_answer C m s true s0 Hinv) in Hcyclic.
    symmetry in Hcyclic. by apply Z.eqb_eq in Hcyclic. }
  destruct (generator_run C m Hm HC (Z.to_nat lam) s Hinv)
    as (s1 & Hrun & Hinv1 & _ & Hsome); [fold lam; lia|].
  destruct (Hsome Hcyc) as [g Hg]. rewrite Hg in Hrun.
  destruct (inv_generator _ _ _ Hinv1 g Hg) as (_ & Hunit & Hord).
  exists (Z.to_nat lam), g. split; [done|]. split.
  { intros x. apply (generator_covers m Hm).
    by rewrite <- (euler_contract C m HC). }
  intros fuel Hfuel. exists s1. split.
  - by apply (generator_mono C (Z.to_nat lam) fuel).
  - unfold ModularRing.generator, ModularRing.generator_body.
    by rewrite Hg.
Qed.

Lemma generator_generates_units_witness :
  ∃ (n : nat) (g : Z),
    g ∈ units 7
    ∧ (∀ x, x ∈ units 7
            ↔ ∃ i, 0 ≤ i < Z.of_nat (length (units 7)) ∧ x = g ^ i mod 7)
    ∧ ∀ fuel, (n ≤ fuel)%nat →
        ∃ s1, ModularRing.generator Reference.collaborators fuel
                (ModularRing.__init__ 7) = Ok (Some g, s1)
              ∧ ModularRing.generator Reference.collaborators fuel s1
                = Ok (Some g, s1).
Proof.
  apply (generator_generates_units Reference.collaborators 7
           (ModularRing.__init__ 7)).
  - lia.
  - apply reference_contracts_7.
  - apply ModularRing.reachable_init.
  - eexists. by vm_compute.
Defined.

(** X16.  In every state of a ring of modulus [m >= 2] that is not cyclic
    ([is_cyclic()] is false), [generator()], [as_cyclic_group()] and
    [discrete_log()] return [None], without raising and whatever the
    fuel. *)
Theorem not_cyclic_returns_None
    (C : ModularRing.collaborators) (m : Z) (s : ModularRing.ring)
    (fuel : nat) :
  2 ≤ m → meets_contracts C m → ModularRing.reachable C m s →
  (∃ s0, ModularRing.is_cyclic C s = Ok (false, s0)) →
  ∃ s1 s2 s3,
    ModularRing.generator C fuel s = Ok (None, s1)
    ∧ ModularRing.as_cyclic_group C fuel s = Ok (None, s2)
    ∧ ModularRing.discrete_log C fuel s = Ok (None, s3).
Proof.
  intros Hm HC Hinv%(reachable_inv C m Hm HC) [s0 Hcyclic].
  apply (not_cyclic_runs C m); [done|].
  apply (is_cyclic_answer C m s false s0 Hinv) in Hcyclic.
  symmetry in Hcyclic. by apply Z.eqb_neq in Hcyclic.
Qed.

Lemma not_cyclic_returns_None_witness :
  ∃ s1 s2 s3,
    ModularRing.generator Reference.collaborators 0
      (ModularRing.__init__ 8) = Ok (None, s1)
    ∧ ModularRing.as_cyclic_group Reference.collaborators 0
        (ModularRing.__init__ 8) = Ok (None, s2)
    ∧ ModularRing.discrete_log Reference.collaborators 0
        (ModularRing.__init__ 8) = Ok (None, s3).
Proof.
  apply (not_cyclic_returns_None Reference.collaborators 8
           (ModularRing.__init__ 8) 0).
  - lia.
  - apply reference_contracts_8.
  - apply ModularRing.reachable_init.
  - eexists. by vm_compute.
Defined.

(** X17.  In every state of a cyclic ring of modulus [m >= 2] whose
    collaborators meet their contracts, [discrete_log()] stops on a table
    [dl] of logarithms to the base of the generator [g] that
    [generator()] then returns: [dl] has an entry for the units and for
    nothing else, and [dl[x] = i] exactly when [0 <= i < euler()] and
    [g^i = x (mod m)]. *)
Theorem discrete_log_is_logarithm
    (C : ModularRing.collaborators) (m : Z) (s : ModularRing.ring) :
  2 ≤ m → meets_contracts C m → ModularRing.reachable C m s →
  (∃ s0, ModularRing.is_cyclic C s = Ok (true, s0)) →
  ∃ (n : nat) (g : Z) (dl : gmap Z Z),
    (∀ fuel, (n ≤ fuel)%nat →
       ∃ s1, ModularRing.discrete_log C fuel s = Ok (Some dl, s1)
             ∧ ModularRing.generator C fuel s1 = Ok (Some g, s1))
    ∧ (∀ x, is_Some (dl !! x) ↔ x ∈ units m)
    ∧ (∀ x i, dl !! x = Some i
              ↔ 0 ≤ i < ModularRing.euler_phi C (ModularRing.factor C m)
                ∧ x = g ^ i mod m).
Proof.
  intros Hm HC Hinv%(reachable_inv C m Hm HC) [s0 Hcyclic].
  set (lam := ModularRing.carmichael_lambda C (ModularRing.factor C m)).
  set (phi := ModularRing.euler_phi C (ModularRing.factor C m)).
  assert (phi = lam) as Hcyc.
  { apply (is_cyclic_answer C m s true s0 Hinv) in Hcyclic.
    symmetry in Hcyclic. by apply Z.eqb_eq in Hcyclic. }
  pose proof (lam_pos C m HC). pose proof (phi_nonneg C m HC).
  set (n := Z.to_nat (lam + phi)).
  destruct (discrete_log_run C m Hm HC n s Hinv Hcyc)
    as (g & s1 & Hdl & Hg & _ & _ & Hinv1 & _); [fold lam phi; lia..|].
  destruct (inv_generator _ _ _ Hinv1 g Hg) as (_ & _ & Hord).
  exists n, g, (ModularRing.invert_items (powers_table m g phi)).
  split; [|split].
  - intros fuel Hfuel. exists s1. split.
    + by apply (discrete_log_mono C n fuel).
    + unfold ModularRing.generator, ModularRing.generator_body.
      by rewrite Hg.
  - intros x. rewrite (generator_covers m Hm g x)
      by (by rewrite <- (euler_contract C m HC)).
    rewrite <- (euler_contract C m HC). unfold is_Some.
    split; intros [i Hi]; exists i;
      by apply (log_table_lookup C m Hm g x i Hord).
  - intros x i. by apply (log_table_lookup C m Hm).
Qed.

Lemma discrete_log_is_logarithm_witness :
  ∃ (n : nat) (g : Z) (dl : gmap Z Z),
    (∀ fuel, (n ≤ fuel)%nat →
       ∃ s1, ModularRing.discrete_log Reference.collaborators fuel
               (ModularRing.__init__ 7) = Ok (Some dl, s1)
             ∧ ModularRing.generator Reference.collaborators fuel s1
               = Ok (Some g, s1))
    ∧ (∀ x, is_Some (dl !! x) ↔ x ∈ units 7)
    ∧ (∀ x i, dl !! x = Some i
              ↔ 0 ≤ i < ModularRing.euler_phi Reference.collaborators
                          (ModularRing.factor Reference.collaborators 7)
                ∧ x = g ^ i mod 7).
Proof.
  apply (discrete_log_is_logarithm Reference.collaborators 7
           (ModularRing.__init__ 7)).
  - lia.
  - apply reference_contracts_7.
  - apply ModularRing.reachable_init.
  - eexists. by vm_compute.
Defined.

Section OutsideTheGroup.
Import ModularRing.
Variable C : collaborators.
Variable m : Z.
Hypothesis Hm : 2 ≤ m.
Hypothesis HC : meets_contracts C m.

Let phi := euler_phi C (factor C m).
Let lam := carmichael_lambda C (factor C m).

(** No power of a residue that shares a factor with [m] is 1, so the
    search of [order_of] uses up its primes. *)
Lemma order_search_none (fuel : nat) (x : Z) (primes : list Z) :
  ∀ (powers : Dict.dict) (s : ring),
  modulus s = m →
  Forall (fun p => 1 ≤ p ≤ Z.of_nat fuel) primes →
  NoDup powers.*1 →
  (∀ e v, (e, v) ∈ powers → Z.gcd v m ≠ 1) →
  order_search fuel x primes powers s = Ok (None, s).
Proof.
  induction primes as [|p primes IH]; intros powers s Hs Hpr Hnd Hval;
    cbn [order_search]; [done|].
  apply Forall_cons in Hpr as [Hp Hpr].
  rewrite (new_powers_items_run m) by (done || lia). simpl.
  pose proof (new_items_nodup m p powers ltac:(lia) Hnd) as Hnd'.
  rewrite (dict_of_items_nodup (new_items m p powers)) by done.
  assert (∀ e v, (e, v) ∈ new_items m p powers → Z.gcd v m ≠ 1) as Hval'.
  { intros o v (e & v0 & Hin & _ & -> & ->)%new_items_elem.
    rewrite Z.gcd_mod_l. intros Hg. apply (Hval _ _ Hin).
    apply (gcd_divisor_of_coprime (v0 ^ p)); [done|].
    exists (v0 ^ (p - 1)).
    rewrite Z.mul_comm, <- Z.pow_succ_r by lia. f_equal. lia. }
  destruct (py_min _) as [o|] eqn:Hmin.
  { apply py_min_Some in Hmin as [Hin _].
    apply list_elem_of_fmap in Hin as ([o' v] & -> & Hin).
    apply list_elem_of_filter in Hin as [Hv Hin]. simpl in Hv. subst v.
    destruct (Hval' _ _ Hin). apply Z.gcd_1_l. }
  assert (NoDup (powers ++ new_items m p powers).*1) as Hnd''.
  { rewrite fmap_app. apply NoDup_app. split; [done|]. split; [|done].
    intros d Hd (e & _ & _ & Hfresh)%new_items_keys. done. }
  rewrite (dict_of_items_nodup (powers ++ _)) by done.
  apply IH; try done.
  intros e v [Hin|Hin]%elem_of_app; [by apply (Hval e)|by apply (Hval' e)].
Qed.

Lemma order_of_outside_search (fuel : nat) (x : Z) (s : ring) :
  ring_inv C m s → Z.gcd x m ≠ 1 →
  orders s !! x = None → _generator s = None →
  lam ≤ Z.of_nat fuel →
  ∃ s', order_of C fuel x s = Ok (None, s') ∧ orders s' = orders s.
Proof.
  intros Hinv Hx Hnone Hgen Hfuel.
  rewrite order_of_unfold. unfold order_of_body. rewrite Hnone, Hgen.
  unfold elem, py_mod. rewrite (inv_modulus _ _ _ Hinv).
  rewrite (proj2 (Z.eqb_neq m 0)) by lia. simpl.
  destruct (carmichael_primes_run C m s Hinv)
    as (s1 & -> & Hinv1 & (_ & Ho & _)). simpl.
  pose proof (Counter_elements_prime _ _ (factor_contract C m HC)) as Hprimes.
  pose proof (Counter_elements_product _ _ (factor_contract C m HC)) as Hprod.
  exists s1. split; [|done]. apply order_search_none.
  - by apply (inv_modulus _ _ _ Hinv1).
  - apply Forall_forall. intros p Hp.
    pose proof (prime_le_product _ p Hprimes Hp) as Hle.
    rewrite Hprod in Hle. rewrite Forall_forall in Hprimes.
    pose proof (Z.prime_ge_2 p (Hprimes p Hp)). unfold lam in Hfuel. lia.
  - apply NoDup_singleton.
  - intros e v [= -> ->]%list_elem_of_singleton. by rewrite Z.gcd_mod_l.
Qed.

Lemma order_of_outside_log (fuel : nat) (x : Z) (s : ring) :
  ring_inv C m s → x ∉ units m →
  orders s !! x = None → is_Some (_generator s) →
  lam + phi < Z.of_nat fuel →
  order_of C fuel x s = Raise (KeyError x).
Proof.
  intros Hinv Hx Hnone [g0 Hg0] Hfuel.
  pose proof (lam_pos C m HC). pose proof (phi_nonneg C m HC).
  destruct (inv_generator _ _ _ Hinv g0 Hg0) as (Hcyc & _ & _).
  rewrite order_of_unfold. unfold order_of_body. rewrite Hnone, Hg0.
  destruct (euler_run C m s Hinv) as (s1 & -> & Hinv1 & Hfl1). simpl.
  destruct fuel as [|fuel]; [lia|].
  destruct (discrete_log_run C m Hm HC fuel s1 Hinv1 Hcyc)
    as (g & s2 & -> & Hg2 & _ & _ & Hinv2 & _); [fold lam phi; lia..|].
  simpl.
  destruct (inv_generator _ _ _ Hinv2 g Hg2) as (_ & _ & Hord).
  destruct (invert_items _ !! x) as [i|] eqn:Hlook; [|done].
  apply invert_items_lookup_inv, powers_table_lookup in Hlook as [Hi ->].
  destruct Hx. apply pow_unit; [done| |lia].
  by apply (order_coprime m Hm g (euler_phi C (factor C m))).
Qed.

End OutsideTheGroup.

(** X18.  In a state of the ring where no generator is cached, [order_of]
    on an [x] that shares a factor with the modulus and has no entry in
    [orders] uses up the primes of the Carmichael exponent and returns
    [None]; [orders] is left as it was. *)
Theorem order_of_non_unit_returns_None
    (C : ModularRing.collaborators) (m : Z) (s : ModularRing.ring) (x : Z) :
  2 ≤ m → meets_contracts C m → ModularRing.reachable C m s →
  Z.gcd x m ≠ 1 →
  ModularRing.orders s !! x = None → ModularRing._generator s = None →
  ∃ n : nat, ∀ fuel, (n ≤ fuel)%nat →
    ∃ s1, ModularRing.order_of C fuel x s = Ok (None, s1)
          ∧ ModularRing.orders s1 = ModularRing.orders s.
Proof.
  intros Hm HC Hinv%(reachable_inv C m Hm HC) Hx Hnone Hgen.
  exists (Z.to_nat
            (ModularRing.carmichael_lambda C (ModularRing.factor C m))).
  intros fuel Hfuel. apply (order_of_outside_search C m Hm HC); try done. lia.
Qed.

Lemma order_of_non_unit_returns_None_witness :
  ∃ n : nat, ∀ fuel, (n ≤ fuel)%nat →
    ∃ s1, ModularRing.order_of Reference.collaborators fuel 6
            (ModularRing.__init__ 8) = Ok (None, s1)
          ∧ ModularRing.orders s1 = ModularRing.orders (ModularRing.__init__ 8).
Proof.
  apply (order_of_non_unit_returns_None Reference.collaborators 8
           (ModularRing.__init__ 8) 6).
  - lia.
  - apply reference_contracts_8.
  - apply ModularRing.reachable_init.
  - vm_compute. discriminate.
  - reflexivity.
  - reflexivity.
Defined.

(** X19.  In a state of the ring where a generator is cached, [order_of]
    on an [x] that is not among the units (the residues of [1, m) prime to
    [m]) and has no entry in [orders] raises [KeyError]: the discrete-log
    table has no entry for it. *)
Theorem order_of_outside_units_raises
    (C : ModularRing.collaborators) (m : Z) (s : ModularRing.ring) (x : Z) :
  2 ≤ m → meets_contracts C m → ModularRing.reachable C m s →
  x ∉ units m →
  ModularRing.orders s !! x = None → is_Some (ModularRing._generator s) →
  ∃ n : nat, ∀ fuel, (n ≤ fuel)%nat →
    ModularRing.order_of C fuel x s = Raise (KeyError x).
Proof.
  intros Hm HC Hinv%(reachable_inv C m Hm HC) Hx Hnone Hgen.
  exists (S (Z.to_nat
               (ModularRing.carmichael_lambda C (ModularRing.factor C m)
                + ModularRing.euler_phi C (ModularRing.factor C m)))).
  intros fuel Hfuel. apply (order_of_outside_log C m Hm HC); try done. lia.
Qed.

Lemma order_of_outside_units_raises_witness :
  ∃ n : nat, ∀ fuel, (n ≤ fuel)%nat →
    ModularRing.order_of Reference.collaborators fuel 9
      ring_7_after_generator = Raise (KeyError 9).
Proof.
  apply (order_of_outside_units_raises Reference.collaborators 7
           ring_7_after_generator 9).
  - lia.
  - apply reference_contracts_7.
  - apply (ModularRing.reachable_call _ _ (ModularRing.__init__ 7) _ 10%nat
             ModularRing.Call_generator).
    + apply ModularRing.reachable_init.
    + vm_compute. reflexivity.
  - apply (bool_decide_unpack _). by vm_compute.
  - vm_compute. reflexivity.
  - apply (bool_decide_unpack _). by vm_compute.
Defined.

(** ** The entries of [orders] stay

    No method deletes from [orders]: the accessors of the cached numbers
    leave it alone, and the others only assign to it. *)

Section Entries.
Import ModularRing.
Variable C : collaborators.

Lemma keeps_entries_refl (s : ring) : keeps_entries s s.
Proof. by intros y. Qed.

Lemma keeps_entries_trans (s1 s2 s3 : ring) :
  keeps_entries s1 s2 → keeps_entries s2 s3 → keeps_entries s1 s3.
Proof. intros H12 H23 y Hy. by apply H23, H12. Qed.

Lemma keeps_entries_eq (s s' : ring) :
  orders s' = orders s → keeps_entries s s'.
Proof. intros Heq y. by rewrite Heq. Qed.

Lemma keeps_entries_insert (s : ring) (x o : Z) :
  keeps_entries s (set_orders (<[ x := o ]> (orders s)) s).
Proof.
  intros y Hy. simpl. destruct (decide (x = y)) as [->|Hne].
  - rewrite lookup_insert_eq. by eexists.
  - by rewrite lookup_insert_ne.
Qed.

Lemma keeps_entries_record (s : ring) (x k : Z) :
  keeps_entries s (record_order x k s).
Proof.
  unfold record_order. destruct (orders s !! x).
  - apply keeps_entries_refl.
  - apply keeps_entries_insert.
Qed.

Lemma factorization_orders (s : ring) v s' :
  factorization C s = Ok (v, s') → orders s' = orders s.
Proof.
  unfold factorization. destruct (_factorization s); by intros [= _ <-].
Qed.

Lemma euler_orders (s : ring) v s' :
  euler C s = Ok (v, s') → orders s' = orders s.
Proof.
  unfold euler. destruct (_euler s); [by intros [= _ <-]|].
  destruct (factorization C s) as [[f s1]| |] eqn:Hf; simpl; try done.
  intros [= _ <-]. simpl. by apply factorization_orders in Hf.
Qed.

Lemma carmichael_orders (s : ring) v s' :
  carmichael C s = Ok (v, s') → orders s' = orders s.
Proof.
  unfold carmichael. destruct (_carmichael s); [by intros [= _ <-]|].
  destruct (factorization C s) as [[f s1]| |] eqn:Hf; simpl; try done.
  intros [= _ <-]. simpl. by apply factorization_orders in Hf.
Qed.

Lemma carmichael_primes_orders (s : ring) v s' :
  carmichael_primes C s = Ok (v, s') → orders s' = orders s.
Proof.
  unfold carmichael_primes, carmichael_factorization.
  destruct (_carmichael_factorization s); simpl; [by intros [= _ <-]|].
  destruct (carmichael C s) as [[c s1]| |] eqn:Hc; simpl; try done.
  intros [= _ <-]. simpl. by apply carmichael_orders in Hc.
Qed.

Lemma is_cyclic_orders (s : ring) v s' :
  is_cyclic C s = Ok (v, s') → orders s' = orders s.
Proof.
  unfold is_cyclic.
  destruct (euler C s) as [[e s1]| |] eqn:He; simpl; try done.
  destruct (carmichael C s1) as [[c s2]| |] eqn:Hc; simpl; try done.
  intros [= _ <-]. apply euler_orders in He. apply carmichael_orders in Hc.
  congruence.
Qed.

Lemma multiplicative_group_orders (s : ring) v s' :
  multiplicative_group C s = Ok (v, s') → orders s' = orders s.
Proof.
  unfold multiplicative_group.
  destruct (_multiplicative_group s); [by intros [= _ <-]|].
  destruct (factorization C s) as [[f s1]| |] eqn:Hf; simpl; try done.
  intros [= _ <-]. simpl. by apply factorization_orders in Hf.
Qed.

End Entries.

Section EntriesOfTheCycle.
Import ModularRing.
Variable C : collaborators.

Lemma order_of_body_keeps (dl : M (option (gmap Z Z))) (fuel : nat) :
  (∀ s v s', dl s = Ok (v, s') → keeps_entries s s') →
  ∀ x s v s', order_of_body C dl fuel x s = Ok (v, s') → keeps_entries s s'.
Proof.
  intros Hdl x s v s'. unfold order_of_body.
  destruct (orders s !! x); [intros [= _ <-]; apply keeps_entries_refl|].
  destruct (_generator s).
  - destruct (euler C s) as [[e s1]| |] eqn:He; simpl; try done.
    destruct (dl s1) as [[[d|] s2]| |] eqn:Hd; simpl; try done.
    destruct (d !! x); [|done].
    destruct (euler C s2) as [[e' s3]| |] eqn:He'; simpl; try done.
    destruct (Numth.gcd fuel _ _); simpl; try done.
    destruct (_ =? 0); [done|]. intros [= _ <-].
    apply euler_orders in He, He'. apply Hdl in Hd.
    eapply keeps_entries_trans; [by apply keeps_entries_eq|].
    eapply keeps_entries_trans; [done|].
    eapply keeps_entries_trans; [by apply keeps_entries_eq|].
    apply keeps_entries_insert.
  - destruct (elem x s) as [[y s1]| |] eqn:Hy; simpl; try done.
    assert (s1 = s) as ->.
    { revert Hy. unfold elem. destruct (py_mod _ _); simpl; try done.
      by intros [= _ <-]. }
    destruct (carmichael_primes C s) as [[primes s2]| |] eqn:Hp; simpl;
      try done.
    apply carmichael_primes_orders in Hp.
    intros [->|[o ->]]%order_search_frame.
    + by apply keeps_entries_eq.
    + eapply keeps_entries_trans; [by apply keeps_entries_eq|].
      apply keeps_entries_insert.
Qed.

Section Step.
Variable fuel : nat.
Hypothesis order_of_keeps :
  ∀ x s v s', order_of C fuel x s = Ok (v, s') → keeps_entries s s'.

Lemma generator_scan_keeps (group : list Z) : ∀ s v s',
  generator_scan C (order_of C fuel) group s = Ok (v, s') →
  keeps_entries s s'.
Proof.
  induction group as [|x group IH]; intros s v s'; simpl.
  { intros [= _ <-]. apply keeps_entries_refl. }
  destruct (order_of C fuel x s) as [[o s1]| |] eqn:Ho; simpl; try done.
  destruct (euler C s1) as [[e s2]| |] eqn:He; simpl; try done.
  apply order_of_keeps in Ho. apply euler_orders in He.
  assert (keeps_entries s s2) as Hs2.
  { eapply keeps_entries_trans; [done|]. by apply keeps_entries_eq. }
  case_bool_decide.
  - intros [= _ <-]. eapply keeps_entries_trans; [done|].
    by apply keeps_entries_eq.
  - intros Hrest%IH. by eapply keeps_entries_trans.
Qed.

Lemma generator_keeps (s : ring) v s' :
  generator C fuel s = Ok (v, s') → keeps_entries s s'.
Proof.
  unfold generator, generator_body.
  destruct (_generator s); [intros [= _ <-]; apply keeps_entries_refl|].
  destruct (is_cyclic C s) as [[b s1]| |] eqn:Hc; simpl; try done.
  apply is_cyclic_orders in Hc. destruct b.
  - destruct (multiplicative_group C s1) as [[group s2]| |] eqn:Hg; simpl;
      try done.
    apply multiplicative_group_orders in Hg.
    destruct (generator_scan C _ group s2) as [[u s3]| |] eqn:Hscan; simpl;
      try done.
    apply generator_scan_keeps in Hscan. intros [= _ <-].
    eapply keeps_entries_trans; [by apply keeps_entries_eq|].
    eapply keeps_entries_trans; [by apply keeps_entries_eq|]. done.
  - intros [= _ <-]. by apply keeps_entries_eq.
Qed.

Lemma as_cyclic_group_keeps (s : ring) v s' :
  as_cyclic_group C fuel s = Ok (v, s') → keeps_entries s s'.
Proof.
  unfold as_cyclic_group, as_cyclic_group_body.
  destruct (_as_cyclic_group s); [intros [= _ <-]; apply keeps_entries_refl|].
  destruct (is_cyclic C s) as [[b s1]| |] eqn:Hc; simpl; try done.
  apply is_cyclic_orders in Hc. destruct b.
  - destruct (generator C fuel s1) as [[[g|] s2]| |] eqn:Hg; simpl; try done.
    apply generator_keeps in Hg.
    destruct (cyclic_subgroup_from fuel g s2) as [[sub s3]| |] eqn:Hsub;
      simpl; try done.
    apply cyclic_subgroup_from_frame in Hsub as [k ->].
    intros [= _ <-].
    eapply keeps_entries_trans; [by apply keeps_entries_eq|].
    eapply keeps_entries_trans; [done|].
    eapply keeps_entries_trans; [apply (keeps_entries_record _ g k)|].
    apply keeps_entries_eq. by destruct (_multiplicative_group _).
  - intros [= _ <-]. by apply keeps_entries_eq.
Qed.

Lemma discrete_log_keeps (s : ring) v s' :
  discrete_log C fuel s = Ok (v, s') → keeps_entries s s'.
Proof.
  unfold discrete_log, discrete_log_body.
  destruct (_discrete_log s); [intros [= _ <-]; apply keeps_entries_refl|].
  destruct (is_cyclic C s) as [[b s1]| |] eqn:Hc; simpl; try done.
  apply is_cyclic_orders in Hc. destruct b.
  - destruct (as_cyclic_group C fuel s1) as [[[c|] s2]| |] eqn:Hg; simpl;
      try done.
    apply as_cyclic_group_keeps in Hg. intros [= _ <-].
    eapply keeps_entries_trans; [by apply keeps_entries_eq|].
    eapply keeps_entries_trans; [done|]. by apply keeps_entries_eq.
  - intros [= _ <-]. by apply keeps_entries_eq.
Qed.

End Step.

Lemma order_of_keeps_entries (fuel : nat) : ∀ x s v s',
  order_of C fuel x s = Ok (v, s') → keeps_entries s s'.
Proof.
  induction fuel as [|fuel IH]; intros x s v s'; rewrite order_of_unfold;
    apply order_of_body_keeps; [done|].
  by apply discrete_log_keeps.
Qed.

End EntriesOfTheCycle.

Section AllOrders.
Import ModularRing.
Variable C : collaborators.
Variable m : Z.
Hypothesis Hm : 2 ≤ m.
Hypothesis HC : meets_contracts C m.

Let phi := euler_phi C (factor C m).
Let lam := carmichael_lambda C (factor C m).

Lemma all_orders_loop_run (fuel : nat) (group : list Z) : ∀ s : ring,
  ring_inv C m s → (∀ x, x ∈ group → x ∈ units m) →
  lam + phi < Z.of_nat fuel →
  ∃ s', all_orders_loop C fuel group s = Ok (tt, s')
        ∧ ring_inv C m s' ∧ keeps_entries s s'
        ∧ ∀ x, x ∈ group → is_Some (orders s' !! x).
Proof.
  induction group as [|x group IH]; intros s Hinv Hgroup Hfuel; simpl.
  { exists s. split; [done|]. split; [done|].
    split; [apply keeps_entries_refl|]. by intros x ?%elem_of_nil. }
  destruct (order_of_run C m Hm HC fuel x s Hinv)
    as (k & s1 & Hrun & _ & Hinv1); [apply Hgroup; left|done|].
  rewrite Hrun. simpl.
  destruct (IH s1 Hinv1) as (s' & -> & Hinv' & Hkeep & Hin);
    [intros y Hy; apply Hgroup; by right|done|].
  exists s'. split; [done|]. split; [done|]. split.
  - eapply keeps_entries_trans; [|done].
    by apply (order_of_keeps_entries C fuel x s (Some k)).
  - intros y [->|Hy]%elem_of_cons; [|by apply Hin].
    apply Hkeep. apply order_of_records in Hrun. by eexists.
Qed.

(** A table on units with as many entries as there are units has one for
    each. *)
Lemma entries_cover_units (d : gmap Z Z) :
  (∀ y, is_Some (d !! y) → y ∈ units m) →
  Z.of_nat (size d) = Z.of_nat (length (units m)) →
  ∀ x, x ∈ units m → is_Some (d !! x).
Proof.
  intros Hkeys Hsize x Hx.
  assert (dom d = list_to_set (units m) :> gset Z) as Hdom.
  { apply set_subseteq_size_eq.
    - intros y Hy%elem_of_dom. apply elem_of_list_to_set. by apply Hkeys.
    - rewrite size_dom, size_list_to_set by apply NoDup_units. lia. }
  apply elem_of_dom. rewrite Hdom. by apply elem_of_list_to_set.
Qed.

Lemma all_orders_run (fuel : nat) (s : ring) :
  ring_inv C m s → (∀ y, is_Some (orders s !! y) → y ∈ units m) →
  lam + phi < Z.of_nat fuel →
  ∃ s', all_orders C fuel s = Ok (orders s', s')
        ∧ ring_inv C m s'
        ∧ ∀ x, x ∈ units m → is_Some (orders s' !! x).
Proof.
  intros Hinv Hkeys Hfuel. pose proof (lam_pos C m HC) as Hlam.
  pose proof (phi_nonneg C m HC) as Hphi.
  unfold all_orders.
  destruct (euler_run C m s Hinv) as (s1 & -> & Hinv1 & (_ & Ho1 & _)).
  simpl. case_bool_decide as Hsize.
  2:{ exists s1. split; [done|]. split; [done|].
      rewrite Ho1 in *.
      apply entries_cover_units; [done|].
      by rewrite Hsize, (euler_contract C m HC). }
  destruct (is_cyclic_run C m s1 Hinv1) as (s2 & -> & Hinv2 & _). simpl.
  assert (∃ v s3,
            (if euler_phi C (factor C m) =? carmichael_lambda C (factor C m)
             then generator C fuel s2 else Ok (None, s2)) = Ok (v, s3)
            ∧ ring_inv C m s3) as (v & s3 & -> & Hinv3).
  { destruct (_ =? _).
    - destruct (generator_run C m Hm HC fuel s2 Hinv2)
        as (s3 & Hrun & Hinv3 & _); [fold lam; lia|]. by eauto.
    - by eauto. }
  simpl.
  destruct (multiplicative_group_run C m HC s3 Hinv3)
    as (group & s4 & -> & Hgroup & Hinv4 & _). simpl.
  destruct (all_orders_loop_run fuel group s4 Hinv4)
    as (s5 & -> & Hinv5 & _ & Hin); [by intros x ?%Hgroup|done|].
  simpl. exists s5. split; [done|]. split; [done|].
  intros x Hx. by apply Hin, Hgroup.
Qed.

End AllOrders.

(** X20.  In a state of the ring where [orders] has entries for units
    only, [all_orders()] stops on a table that holds, for every unit, its
    multiplicative order.  (The method takes [orders] to be complete as
    soon as it has [euler()] entries, which is right when every entry is
    that of a unit.) *)
Theorem all_orders_complete
    (C : ModularRing.collaborators) (m : Z) (s : ModularRing.ring) :
  2 ≤ m → meets_contracts C m → ModularRing.reachable C m s →
  (∀ y, is_Some (ModularRing.orders s !! y) → y ∈ units m) →
  ∃ n : nat, ∀ fuel, (n ≤ fuel)%nat →
    ∃ d s', ModularRing.all_orders C fuel s = Ok (d, s')
            ∧ d = ModularRing.orders s'
            ∧ ∀ x, x ∈ units m → ∃ o, d !! x = Some o ∧ is_order m x o.
Proof.
  intros Hm HC Hinv%(reachable_inv C m Hm HC) Hkeys.
  exists (S (Z.to_nat
               (ModularRing.carmichael_lambda C (ModularRing.factor C m)
                + ModularRing.euler_phi C (ModularRing.factor C m)))).
  intros fuel Hfuel.
  destruct (all_orders_run C m Hm HC fuel s Hinv Hkeys)
    as (s' & Hrun & Hinv' & Hall); [lia|].
  exists (ModularRing.orders s'), s'. split; [done|]. split; [done|].
  intros x Hx. destruct (Hall x Hx) as [o Ho]. exists o. split; [done|].
  by apply (inv_orders _ _ _ Hinv' x o).
Qed.

Lemma all_orders_complete_witness :
  ∃ n : nat, ∀ fuel, (n ≤ fuel)%nat →
    ∃ d s', ModularRing.all_orders Reference.collaborators fuel
              (ModularRing.__init__ 7) = Ok (d, s')
            ∧ d = ModularRing.orders s'
            ∧ ∀ x, x ∈ units 7 → ∃ o, d !! x = Some o ∧ is_order 7 x o.
Proof.
  apply (all_orders_complete Reference.collaborators 7
           (ModularRing.__init__ 7)).
  - lia.
  - apply reference_contracts_7.
  - apply ModularRing.reachable_init.
  - intros y [o Ho]. revert y o Ho.
    change (map_Forall (fun y _ => y ∈ units 7)
              (ModularRing.orders (ModularRing.__init__ 7))).
    apply (bool_decide_unpack _). by vm_compute.
Defined.

Section GroupFacts.
Import ModularRing.
Variable C : collaborators.
Variable m : Z.
Hypothesis Hm : 2 ≤ m.
Hypothesis HC : meets_contracts C m.

(** The order of a unit is at most the number of units. *)
Lemma order_le_units (x k : Z) :
  is_order m x k → k ≤ Z.of_nat (length (units m)).
Proof.
  intros Hord. pose proof (order_coprime m Hm x k Hord) as Hg.
  pose proof Hord as (Hk & _).
  assert ((fun i => x ^ i mod m) <$> seqZ 0 k ⊆+ units m) as Hsub.
  { apply NoDup_submseteq; [by apply powers_nodup|].
    intros y (i & -> & Hi%elem_of_seqZ)%list_elem_of_fmap.
    apply pow_unit; [done|done|lia]. }
  apply submseteq_length in Hsub.
  rewrite length_fmap, length_seqZ in Hsub. lia.
Qed.

(** The two exponents agree exactly when some unit generates the group. *)
Lemma cyclic_iff_generator :
  euler_phi C (factor C m) = carmichael_lambda C (factor C m)
  ↔ ∃ g, g ∈ units m ∧ is_order m g (Z.of_nat (length (units m))).
Proof.
  rewrite (euler_contract C m HC). split.
  - intros Heq. pose proof (carmichael_attained _ _ HC) as Hmax.
    apply Exists_exists in Hmax as (g & Hg & Hord).
    exists g. split; [done|]. by rewrite Heq.
  - intros (g & Hg & Hord).
    pose proof (order_divides_lam C m Hm HC g _ Hg Hord) as Hdiv.
    pose proof (lam_pos C m HC) as Hpos.
    apply Z.divide_pos_le in Hdiv; [|done].
    pose proof (carmichael_attained _ _ HC) as Hmax.
    apply Exists_exists in Hmax as (x & Hx & Hordx).
    apply order_le_units in Hordx. lia.
Qed.

End GroupFacts.

Lemma init_entries (m x o : Z) :
  2 ≤ m →
  ModularRing.orders (ModularRing.__init__ m) !! x = Some o →
  x ∈ units m ∧ is_order m x o.
Proof.
  intros Hm Ho. simpl in Ho.
  assert (1 ∈ units m ∧ is_order m 1 1) as Hone.
  { split; [|by apply order_one].
    apply (units_elem m). split; [lia|apply Z.gcd_1_l]. }
  destruct (Z.eqb_spec m 2) as [->|Hne].
  { by apply lookup_singleton_Some in Ho as [<- <-]. }
  apply lookup_insert_Some in Ho as [[<- <-]|[_ Ho]].
  2:{ by apply lookup_singleton_Some in Ho as [<- <-]. }
  split.
  - apply (units_elem m). split; [lia|].
    apply Z.coprime_Bezout. exists (-1), 1. lia.
  - split; [lia|]. split.
    + replace ((m - 1) ^ 2) with (1 + (m - 2) * m) by lia.
      rewrite Z.mod_add by lia. apply Z.mod_small. lia.
    + intros j Hj. assert (j = 1) as -> by lia.
      rewrite Z.pow_1_r, Z.mod_small by lia. lia.
Qed.

(** X21.  In a ring of modulus at least 2, [cyclic_subgroup_from] on an
    [x] other than 1 that is congruent to 1 returns [{0: 1, 1: x}] and
    enters 2 in [orders] as the order of [x] (if [x] had no entry),
    although [x^1 = 1] modulo the modulus: the loop compares the argument
    with 1 before it is reduced. *)
Theorem cyclic_subgroup_from_unreduced_one
    (s : ModularRing.ring) (x : Z) (fuel : nat) :
  2 ≤ ModularRing.modulus s → x mod ModularRing.modulus s = 1 → x ≠ 1 →
  (1 ≤ fuel)%nat →
  ModularRing.cyclic_subgroup_from fuel x s
  = Ok ([(0, 1); (1, x)], record_order x 2 s)
  ∧ x ^ 1 mod ModularRing.modulus s = 1.
Proof.
  intros Hm Hx Hne Hfuel. split; [|by rewrite Z.pow_1_r].
  destruct fuel as [|fuel]; [lia|].
  unfold ModularRing.cyclic_subgroup_from.
  cbn [ModularRing.cyclic_subgroup_loop].
  rewrite (proj2 (Z.eqb_neq x 1) Hne).
  rewrite (mult_pair (ModularRing.modulus s) Hm s x x eq_refl).
  rewrite <- Z.mul_mod_idemp_l, <- Z.mul_mod_idemp_r, Hx by lia.
  rewrite Z.mod_1_l by lia.
  cbn [mbind result_mbind result_bind].
  assert (∀ sub k, ModularRing.cyclic_subgroup_loop fuel x sub 1 k s
                   = Ok ((sub, k), s)) as Hstop by (by destruct fuel).
  rewrite Hstop. done.
Qed.

Lemma cyclic_subgroup_from_unreduced_one_witness :
  ModularRing.cyclic_subgroup_from 1 8 (ModularRing.__init__ 7)
  = Ok ([(0, 1); (1, 8)], record_order 8 2 (ModularRing.__init__ 7))
  ∧ 8 ^ 1 mod ModularRing.modulus (ModularRing.__init__ 7) = 1.
Proof.
  apply (cyclic_subgroup_from_unreduced_one (ModularRing.__init__ 7) 8 1);
    (simpl; lia) || reflexivity.
Defined.

(** X22.  The entries that [__init__] puts in [orders] for a modulus
    [m >= 2] are right: each is the multiplicative order of a unit (1 for
    1 and, when [m] is not 2, 2 for [m - 1]). *)
Theorem init_orders_are_orders (m x o : Z) :
  2 ≤ m →
  ModularRing.orders (ModularRing.__init__ m) !! x = Some o →
  x ∈ units m ∧ is_order m x o.
Proof. intros Hm. by apply init_entries. Qed.

Lemma init_orders_are_orders_witness : 9 ∈ units 10 ∧ is_order 10 9 2.
Proof.
  apply (init_orders_are_orders 10 9 2); [lia|reflexivity].
Defined.

(** X23.  In a ring of modulus at least 2 and for exponents [a, b >= 0],
    the product by [mult] of [power_of(x, a)] and [power_of(x, b)] is
    [power_of(x, a + b)], and [power_of] returns the same for [x] and for
    [elem(x)]; none of the calls changes the ring. *)
Theorem power_of_adds_exponents (s : ModularRing.ring) (x a b : Z) :
  2 ≤ ModularRing.modulus s → 0 ≤ a → 0 ≤ b →
  ∃ (n : nat) (pa pb pab : Z), ∀ fuel, (n ≤ fuel)%nat →
    ModularRing.power_of fuel x a s = Ok (pa, s)
    ∧ ModularRing.power_of fuel x b s = Ok (pb, s)
    ∧ ModularRing.power_of fuel x (a + b) s = Ok (pab, s)
    ∧ ModularRing.mult [pa; pb] s = Ok (pab, s)
    ∧ ('(y, s') ← ModularRing.elem x s; ModularRing.power_of fuel y a s')
      = Ok (pa, s).
Proof.
  intros Hm Ha Hb. set (m := ModularRing.modulus s) in *.
  exists (Z.to_nat (a + b)), (x ^ a mod m), (x ^ b mod m),
    (x ^ (a + b) mod m).
  intros fuel Hfuel. unfold ModularRing.power_of, ModularRing.elem, py_mod.
  fold m. rewrite !mod_power_spec by lia.
  rewrite (proj2 (Z.eqb_neq m 0)) by lia. simpl.
  rewrite mod_power_spec by lia. simpl.
  rewrite (mult_pair m Hm s _ _ eq_refl).
  rewrite <- (pow_add_mod m Hm) by lia.
  by rewrite (pow_mod_idemp m Hm).
Qed.

Lemma power_of_adds_exponents_witness :
  ∃ (n : nat) (pa pb pab : Z), ∀ fuel, (n ≤ fuel)%nat →
    ModularRing.power_of fuel 10 3 (ModularRing.__init__ 7)
    = Ok (pa, ModularRing.__init__ 7)
    ∧ ModularRing.power_of fuel 10 4 (ModularRing.__init__ 7)
      = Ok (pb, ModularRing.__init__ 7)
    ∧ ModularRing.power_of fuel 10 (3 + 4) (ModularRing.__init__ 7)
      = Ok (pab, ModularRing.__init__ 7)
    ∧ ModularRing.mult [pa; pb] (ModularRing.__init__ 7)
      = Ok (pab, ModularRing.__init__ 7)
    ∧ ('(y, s') ← ModularRing.elem 10 (ModularRing.__init__ 7);
       ModularRing.power_of fuel y 3 s')
      = Ok (pa, ModularRing.__init__ 7).
Proof.
  apply (power_of_adds_exponents (ModularRing.__init__ 7) 10 3 4);
    simpl; lia.
Defined.

(** X24.  In every state of a ring of modulus [m >= 2] whose collaborators
    meet their contracts, [multiplicative_group()] returns a list whose
    members are the residues [x] of [1, m) with [gcd(x, m) = 1], whether
    the cache was filled by [prime_to] or from the values of the cyclic
    table; a second call returns the same list and changes nothing. *)
Theorem multiplicative_group_members
    (C : ModularRing.collaborators) (m : Z) (s : ModularRing.ring) :
  2 ≤ m → meets_contracts C m → ModularRing.reachable C m s →
  ∃ g s1,
    ModularRing.multiplicative_group C s = Ok (g, s1)
    ∧ ModularRing.multiplicative_group C s1 = Ok (g, s1)
    ∧ ∀ x, x ∈ g ↔ 1 ≤ x < m ∧ Z.gcd x m = 1.
Proof.
  intros Hm HC Hinv%(reachable_inv C m Hm HC).
  destruct (multiplicative_group_run C m HC s Hinv)
    as (g & s1 & Hrun & Hg & _ & _).
  exists g, s1. split; [done|]. split.
  - revert Hrun. unfold ModularRing.multiplicative_group.
    destruct (ModularRing._multiplicative_group s) as [g0|] eqn:Hg0.
    + intros [= <- <-]. by rewrite Hg0.
    + destruct (ModularRing.factorization C s) as [[f s0]| |]; simpl;
        try done.
      by intros [= <- <-].
  - intros x. by rewrite Hg, (units_elem m).
Qed.

Lemma multiplicative_group_members_witness :
  ∃ g s1,
    ModularRing.multiplicative_group Reference.collaborators
      ring_7_after_generator = Ok (g, s1)
    ∧ ModularRing.multiplicative_group Reference.collaborators s1
      = Ok (g, s1)
    ∧ ∀ x, x ∈ g ↔ 1 ≤ x < 7 ∧ Z.gcd x 7 = 1.
Proof.
  apply (multiplicative_group_members Reference.collaborators 7
           ring_7_after_generator).
  - lia.
  - apply reference_contracts_7.
  - apply (ModularRing.reachable_call _ _ (ModularRing.__init__ 7) _ 10%nat
             ModularRing.Call_generator).
    + apply ModularRing.reachable_init.
    + vm_compute. reflexivity.
Defined.

(** X25.  In every state of a ring of modulus [m >= 2] whose collaborators
    meet their contracts, [is_cyclic()] returns true exactly when the
    group of units is cyclic: some unit has the number of units as its
    multiplicative order. *)
Theorem is_cyclic_iff_generator_exists
    (C : ModularRing.collaborators) (m : Z) (s : ModularRing.ring) :
  2 ≤ m → meets_contracts C m → ModularRing.reachable C m s →
  ∃ b s1,
    ModularRing.is_cyclic C s = Ok (b, s1)
    ∧ (b = true
       ↔ ∃ g, g ∈ units m ∧ is_order m g (Z.of_nat (length (units m)))).
Proof.
  intros Hm HC Hinv%(reachable_inv C m Hm HC).
  destruct (is_cyclic_run C m s Hinv) as (s1 & Hrun & _).
  eexists _, s1. split; [done|].
  rewrite <- (cyclic_iff_generator C m Hm HC). apply Z.eqb_eq.
Qed.

Lemma is_cyclic_iff_generator_exists_witness :
  ∃ b s1,
    ModularRing.is_cyclic Reference.collaborators (ModularRing.__init__ 8)
    = Ok (b, s1)
    ∧ (b = true
       ↔ ∃ g, g ∈ units 8 ∧ is_order 8 g (Z.of_nat (length (units 8)))).
Proof.
  apply (is_cyclic_iff_generator_exists Reference.collaborators 8
           (ModularRing.__init__ 8)).
  - lia.
  - apply reference_contracts_8.
  - apply ModularRing.reachable_init.
Defined.

(** X26.  In every state of a ring of modulus [m >= 2] whose collaborators
    meet their contracts, [carmichael_primes()] returns prime numbers, each
    as many times as it divides [carmichael()], so that their product is
    the value [carmichael()] returns. *)
Theorem carmichael_primes_product
    (C : ModularRing.collaborators) (m : Z) (s : ModularRing.ring) :
  2 ≤ m → meets_contracts C m → ModularRing.reachable C m s →
  ∃ ps s1 c s2,
    ModularRing.carmichael_primes C s = Ok (ps, s1)
    ∧ ModularRing.carmichael C s1 = Ok (c, s2)
    ∧ Forall Z.prime ps ∧ product ps = c.
Proof.
  intros Hm HC Hinv%(reachable_inv C m Hm HC).
  destruct (carmichael_primes_run C m s Hinv) as (s1 & Hrun & Hinv1 & _).
  destruct (carmichael_run C m s1 Hinv1) as (s2 & Hcar & _).
  eexists _, s1, _, s2. split; [done|]. split; [done|]. split.
  - apply (Counter_elements_prime _ _ (factor_contract C m HC)).
  - apply (Counter_elements_product _ _ (factor_contract C m HC)).
Qed.

Lemma carmichael_primes_product_witness :
  ∃ ps s1 c s2,
    ModularRing.carmichael_primes Reference.collaborators
      (ModularRing.__init__ 7) = Ok (ps, s1)
    ∧ ModularRing.carmichael Reference.collaborators s1 = Ok (c, s2)
    ∧ Forall Z.prime ps ∧ product ps = c.
Proof.
  apply (carmichael_primes_product Reference.collaborators 7
           (ModularRing.__init__ 7)).
  - lia.
  - apply reference_contracts_7.
  - apply ModularRing.reachable_init.
Defined.

(** X27.  In every state of a ring of modulus [m >= 2] whose collaborators
    meet their contracts and for every unit [x], the dictionary that
    [cyclic_subgroup_from(x)] returns after [order_of(x)] has as many
    entries as the order says, the powers [x^0 .. x^(o-1)], and the call
    changes nothing. *)
Theorem cyclic_subgroup_has_order_entries
    (C : ModularRing.collaborators) (m : Z) (s : ModularRing.ring) (x : Z) :
  2 ≤ m → meets_contracts C m → ModularRing.reachable C m s →
  x ∈ units m →
  ∃ (n : nat) (o : Z), ∀ fuel, (n ≤ fuel)%nat →
    ∃ s1 sub,
      ModularRing.order_of C fuel x s = Ok (Some o, s1)
      ∧ ModularRing.cyclic_subgroup_from fuel x s1 = Ok (sub, s1)
      ∧ Z.of_nat (length sub) = o
      ∧ ∀ i v, Dict.get i sub = Some v ↔ 0 ≤ i < o ∧ v = x ^ i mod m.
Proof.
  intros Hm HC Hinv%(reachable_inv C m Hm HC) Hx.
  pose proof Hx as [Hrange Hgcd]%units_elem.
  destruct (order_exists m Hm x Hgcd) as [o Hord].
  pose proof Hord as (Ho & _).
  set (lam := ModularRing.carmichael_lambda C (ModularRing.factor C m)).
  set (phi := ModularRing.euler_phi C (ModularRing.factor C m)).
  pose proof (lam_pos C m HC) as Hlam. pose proof (phi_nonneg C m HC) as Hphi.
  fold lam in Hlam. fold phi in Hphi.
  exists (S (Z.to_nat (lam + phi + o))), o. intros fuel Hfuel.
  destruct (order_of_run C m Hm HC fuel x s Hinv Hx)
    as (o' & s1 & Hrun & Hord' & Hinv1); [fold lam phi; lia|].
  rewrite <- (order_unique m x o o' Hord Hord') in Hrun.
  pose proof (order_of_records C fuel x s o s1 Hrun) as Hrec.
  exists s1, (powers_table m x o). split; [done|]. split; [|split].
  - rewrite (cyclic_subgroup_from_run m Hm s1 x o fuel);
      [|apply Hinv1|lia|done|lia].
    unfold record_order. by rewrite Hrec.
  - unfold powers_table. rewrite length_fmap, length_seqZ. lia.
  - intros i v. apply powers_table_get.
Qed.

Lemma cyclic_subgroup_has_order_entries_witness :
  ∃ (n : nat) (o : Z), ∀ fuel, (n ≤ fuel)%nat →
    ∃ s1 sub,
      ModularRing.order_of Reference.collaborators fuel 2
        (ModularRing.__init__ 7) = Ok (Some o, s1)
      ∧ ModularRing.cyclic_subgroup_from fuel 2 s1 = Ok (sub, s1)
      ∧ Z.of_nat (length sub) = o
      ∧ ∀ i v, Dict.get i sub = Some v ↔ 0 ≤ i < o ∧ v = 2 ^ i mod 7.
Proof.
  apply (cyclic_subgroup_has_order_entries Reference.collaborators 7
           (ModularRing.__init__ 7) 2).
  - lia.
  - apply reference_contracts_7.
  - apply ModularRing.reachable_init.
  - apply (bool_decide_unpack _). by vm_compute.
Defined.

(** * lib/basic/shape_number.py *)

Section ShapeNumbers.
Import ShapeNumber.

Lemma shape_number_twice (k sides : Z) :
  2 * shape_number_by_index k sides = k * (k * (sides - 2) - sides + 4).
Proof.
  unfold shape_number_by_index.
  assert (∃ t, k * (k - 1) = 2 * t) as [t Ht].
  { destruct (Z.Even_or_Odd k) as [[j ->]|[j ->]].
    - exists (j * (2 * j - 1)). lia.
    - exists ((2 * j + 1) * j). lia. }
  replace (k * (k * (sides - 2) - sides + 4))
    with (((sides - 2) * t + k) * 2) by nia.
  rewrite Z.div_mul by lia. lia.
Qed.

Lemma sample_imports_ok : shape_imports_ok sample_is_square Z.sqrt sample_div.
Proof.
  split.
  - intros n. unfold sample_is_square. rewrite andb_true_iff.
    rewrite Z.leb_le, Z.eqb_eq. split.
    + intros [_ Heq]. by exists (Z.sqrt n).
    + intros [r <-]. split; [nia|].
      replace (r * r) with (Z.abs r * Z.abs r) by nia.
      by rewrite Z.sqrt_square by lia.
  - intros r Hr. by apply Z.sqrt_square.
  - done.
Qed.

Section Imports.
Variable is_square : Z → bool.
Variable integer_sqrt : Z → Z.
Variable div : Z → Z → Z * Z.
Hypothesis Himports : shape_imports_ok is_square integer_sqrt div.

Lemma which_shape_number_finds (k sides : Z) :
  3 ≤ sides → 1 ≤ k →
  which_shape_number is_square integer_sqrt div
    (shape_number_by_index k sides) sides = Some k.
Proof.
  intros Hs Hk. pose proof (shape_number_twice k sides) as H2.
  set (n := shape_number_by_index k sides) in *.
  set (t := 2 * (sides - 2) * k - (sides - 4)).
  assert (0 ≤ t) as Ht by (unfold t; nia).
  assert (8 * (sides - 2) * n + (sides - 4) ^ 2 = t * t) as Hroot
    by (unfold t; nia).
  unfold which_shape_number. rewrite Hroot.
  rewrite (proj2 (is_square_ok _ _ _ Himports (t * t))) by (by exists t).
  rewrite (integer_sqrt_ok _ _ _ Himports t Ht). simpl.
  rewrite (div_ok _ _ _ Himports) by lia.
  replace (sides - 4 + t) with (k * (2 * (sides - 2))) by (unfold t; lia).
  rewrite Z.div_mul, Z.mod_mul by lia. done.
Qed.

Lemma which_shape_number_sound (number sides q : Z) :
  3 ≤ sides →
  which_shape_number is_square integer_sqrt div number sides = Some q →
  shape_number_by_index q sides = number.
Proof.
  intros Hs. unfold which_shape_number.
  destruct (is_square _) eqn:Hsq; [|done]. simpl.
  apply (is_square_ok _ _ _ Himports) in Hsq as [r Hr].
  assert (Z.abs r * Z.abs r
          = 8 * (sides - 2) * number + (sides - 4) ^ 2) as Hroot by nia.
  rewrite <- Hroot, (integer_sqrt_ok _ _ _ Himports) by lia.
  rewrite (div_ok _ _ _ Himports) by lia.
  destruct (Z.eqb_spec ((sides - 4 + Z.abs r) mod (2 * (sides - 2))) 0)
    as [Hrem|]; [|done].
  intros [= <-].
  pose proof (Z.div_mod (sides - 4 + Z.abs r) (2 * (sides - 2))
                ltac:(lia)) as Hdm.
  rewrite Hrem, Z.add_0_r in Hdm.
  set (q := (sides - 4 + Z.abs r) / (2 * (sides - 2))) in *.
  pose proof (shape_number_twice q sides) as H2.
  assert (Z.abs r = 2 * (sides - 2) * q - (sides - 4)) as Habs by lia.
  rewrite Habs in Hroot.
  assert (4 * (sides - 2) * (2 * shape_number_by_index q sides)
          = 4 * (sides - 2) * (2 * number)) as Heq by (rewrite H2; nia).
  apply Z.mul_reg_l in Heq; lia.
Qed.

Lemma which_shape_number_zero (sides : Z) :
  5 ≤ sides →
  which_shape_number is_square integer_sqrt div
    (shape_number_by_index 0 sides) sides = None.
Proof.
  intros Hs. unfold which_shape_number, shape_number_by_index.
  rewrite Z.mul_0_l, Z.div_0_l, Z.mul_0_r, Z.add_0_l by lia.
  replace ((sides - 4) ^ 2) with ((sides - 4) * (sides - 4)) by lia.
  rewrite (proj2 (is_square_ok _ _ _ Himports _)) by (by eexists).
  rewrite (integer_sqrt_ok _ _ _ Himports) by lia. simpl.
  rewrite (div_ok _ _ _ Himports) by lia.
  replace (sides - 4 + (sides - 4)) with (2 * (sides - 4)) by lia.
  rewrite Z.mod_small by lia.
  by rewrite (proj2 (Z.eqb_neq _ 0)) by lia.
Qed.

End Imports.

End ShapeNumbers.

(** X28.  The division by 2 in [shape_number_by_index] is exact, the
    number of index 0 is 0, and consecutive numbers differ by
    [(sides - 2) * k + 1]: for [sides = 3] the numbers are the sums
    [1 + 2 + ... + k], for [sides = 4] the squares. *)
Theorem shape_number_recurrence (k sides : Z) :
  2 * ShapeNumber.shape_number_by_index k sides
  = k * (k * (sides - 2) - sides + 4)
  ∧ ShapeNumber.shape_number_by_index 0 sides = 0
  ∧ ShapeNumber.shape_number_by_index (k + 1) sides
    = ShapeNumber.shape_number_by_index k sides + (sides - 2) * k + 1.
Proof.
  split; [apply shape_number_twice|]. split; [done|].
  pose proof (shape_number_twice k sides).
  pose proof (shape_number_twice (k + 1) sides). nia.
Qed.

(** X29.  Provided the imported [is_square], [integer_sqrt] and [div]
    tell the perfect squares, return their roots and divide with
    remainder, [which_shape_number] inverts [shape_number_by_index] for
    [sides >= 3]: it returns [k] on the number of index [k >= 1], whatever
    it returns is an index of its argument, and on the number of index 0
    it returns [None] when [sides >= 5]. *)
Theorem which_shape_number_inverts
    (is_square : Z → bool) (integer_sqrt : Z → Z) (div : Z → Z → Z * Z)
    (sides : Z) :
  shape_imports_ok is_square integer_sqrt div → 3 ≤ sides →
  (∀ k, 1 ≤ k →
     ShapeNumber.which_shape_number is_square integer_sqrt div
       (ShapeNumber.shape_number_by_index k sides) sides = Some k)
  ∧ (∀ number q,
       ShapeNumber.which_shape_number is_square integer_sqrt div
         number sides = Some q →
       ShapeNumber.shape_number_by_index q sides = number)
  ∧ (5 ≤ sides →
     ShapeNumber.which_shape_number is_square integer_sqrt div
       (ShapeNumber.shape_number_by_index 0 sides) sides = None).
Proof.
  intros Himports Hs. split; [|split].
  - intros k Hk. by apply which_shape_number_finds.
  - intros number q. by apply which_shape_number_sound.
  - by apply which_shape_number_zero.
Qed.

Lemma which_shape_number_inverts_witness :
  (∀ k, 1 ≤ k →
     ShapeNumber.which_shape_number sample_is_square Z.sqrt sample_div
       (ShapeNumber.shape_number_by_index k 5) 5 = Some k)
  ∧ (∀ number q,
       ShapeNumber.which_shape_number sample_is_square Z.sqrt sample_div
         number 5 = Some q →
       ShapeNumber.shape_number_by_index q 5 = number)
  ∧ ShapeNumber.which_shape_number sample_is_square Z.sqrt sample_div
      (ShapeNumber.shape_number_by_index 0 5) 5 = None.
Proof.
  destruct (which_shape_number_inverts sample_is_square Z.sqrt sample_div 5
              sample_imports_ok ltac:(lia)) as (Hfind & Hsound & Hzero).
  split; [exact Hfind|]. split; [exact Hsound|]. apply Hzero. lia.
Defined.

(** ** Sample runs *)

Example euclidean_algorithm_1071_462 :
  Numth.euclidean_algorithm 10 1071 462 Numth.SMALL
  = Ok ["1071 = 2 * 462 + 147"; "462 = 3 * 147 + 21"; "147 = 7 * 21 + 0"]%string.
Proof. vm_compute. reflexivity. Qed.

Example euclidean_algorithm_6_m3 :
  Numth.euclidean_algorithm 10 6 (-3) None
  = Ok ["6 = -1 * -3 + 3"; "-3 = -1 * 3 + 0"]%string.
Proof. vm_compute. reflexivity. Qed.

Example shape_number_5_3 : ShapeNumber.shape_number_by_index 5 3 = 15.
Proof. reflexivity. Qed.

Example which_shape_number_15_3 :
  ShapeNumber.which_shape_number sample_is_square Z.sqrt sample_div 15 3
  = Some 5.
Proof. reflexivity. Qed.

Example which_shape_number_20_3 :
  ShapeNumber.which_shape_number sample_is_square Z.sqrt sample_div 20 3
  = None.
Proof. reflexivity. Qed.

(** Once [cyclic_subgroup_from] has entered the unreduced 6 and 11 in the
    [orders] of the ring of modulus 5, the table has [euler() = 4] entries
    and [all_orders()] returns it as it is, without the units 2 and 3. *)
Remark all_orders_after_unreduced_entries :
  ('(_, s1) ← ModularRing.cyclic_subgroup_from 5 6 (ModularRing.__init__ 5);
   '(_, s2) ← ModularRing.cyclic_subgroup_from 5 11 s1;
   d ← ModularRing.value_of
          (ModularRing.all_orders Reference.collaborators 10 s2);
   Ok ((fun x => d !! x) <$> [1; 2; 3; 4; 6; 11]))
  = Ok [Some 1; None; None; Some 2; Some 2; Some 2].
Proof. vm_compute. reflexivity. Qed.
